(** * BAO filters of cosmoprimo: a shallow embedding of [bao_filter.py]

    The development follows the source file top-down: the two base
    classes with their instance life cycle ([__init__], [set_k],
    [set_pk], [__call__], [wiggles], [rs_drag_ratio]), the seven
    power-spectrum engines, the correlation-function engine and the two
    factory functions.

    Python floats are kept abstract (class [Float]): every statement
    holds for any interpretation of the arithmetic; the few theorems that
    need an arithmetic fact name it as a law ([FloatLaws]).  Routines of
    numpy's and scipy's numerical core, the least-square solver of
    [utils.py], the interpolators of [interpolator.py] and the
    cosmological engines are external collaborators (class [External]),
    and so is the case mapping of the builtin [str.lower] (class [Str]). *)

From Stdlib Require Import Ascii String QArith Qcanon Qround.
From stdpp Require Import base option list strings gmap numbers.

Open Scope Z_scope.

(** ** Exceptions and the error monad *)

Inductive exn : Type :=
  | ValueError (msg : string)
  | IndexError
  | TypeError
  | AttributeError
  | CosmologyError (msg : string)
  | ExternalError.

Inductive Result (A : Type) : Type :=
  | Ok (a : A)
  | Err (e : exn).
Arguments Ok {A} a.
Arguments Err {A} e.

#[global] Instance Result_ret : MRet Result := fun A a => Ok a.
#[global] Instance Result_bind : MBind Result := fun A B f r =>
  match r with Ok a => f a | Err e => Err e end.
#[global] Instance Result_fmap : FMap Result := fun A B f r =>
  match r with Ok a => Ok (f a) | Err e => Err e end.

Definition is_Ok {A} (r : Result A) : Prop := exists a, r = Ok a.

(** [mapR f l] runs [f] over [l] from left to right and stops at the
    first exception. *)
Fixpoint mapR {A B} (f : A -> Result B) (l : list A) : Result (list B) :=
  match l with
  | [] => Ok []
  | x :: l' => y ← f x; ys ← mapR f l'; Ok (y :: ys)
  end.

Definition of_option {A} (e : exn) (o : option A) : Result A :=
  match o with Some a => Ok a | None => Err e end.

(** ** Floating-point numbers *)

Class Float (F : Type) := {
  lit : Q -> F;            (* the double written as a decimal literal *)
  of_int : Z -> F;         (* int -> float conversion *)
  fadd : F -> F -> F;
  fsub : F -> F -> F;
  fmul : F -> F -> F;
  fdiv : F -> F -> F;
  fneg : F -> F;
  flt : F -> F -> bool;
  fle : F -> F -> bool;
  feqb : F -> F -> bool;
  fexp : F -> F;
  flog : F -> F;
  flog10 : F -> F;
  fpow : F -> F -> F;      (* float ** float *)
  fpowi : F -> Z -> F;     (* float ** int *)
  fceil : F -> option Z    (* np.ceil as an integer; None on inf and nan *)
}.

Declare Scope float_scope.
Delimit Scope float_scope with fl.
Infix "+" := fadd : float_scope.
Infix "-" := fsub : float_scope.
Infix "*" := fmul : float_scope.
Infix "/" := fdiv : float_scope.
Infix "<?" := flt : float_scope.
Infix "<=?" := fle : float_scope.
Notation "x >? y" := (flt y x) (only parsing) : float_scope.
Notation "x >=? y" := (fle y x) (only parsing) : float_scope.

(** The arithmetic facts used by the theorems below.  They hold in any
    ordered field and, on finite values, for IEEE doubles. *)
Class FloatLaws (F : Type) `{Float F} : Prop := {
  fmul_1_r : forall x : F, (x * lit 1)%fl = x;
  fdiv_1_r : forall x : F, (x / lit 1)%fl = x;
  fsub_diag_1 : (lit 1 - lit 1)%fl = lit 0;
  fmul_0_l : forall x : F, (lit 0 * x)%fl = lit 0;
  fadd_0_l : forall x : F, (lit 0 + x)%fl = x;
  fle_not_gt : forall x y : F, (x <=? y)%fl = true -> (y <? x)%fl = false;
  flt_not_ge : forall x y : F, (x <? y)%fl = true -> (y <=? x)%fl = false;
  flt_asym : forall x y : F, (x <? y)%fl = true -> (y <? x)%fl = false;
  flt_trans : forall x y z : F,
    (x <? y)%fl = true -> (y <? z)%fl = true -> (x <? z)%fl = true;
  flt_consts : (lit 50 <? lit 82)%fl = true /\ (lit 150 <? lit 190)%fl = true
}.

(** ** Arrays

    A numpy array of floats of dimension 0, 1 or 2.  A 2D array keeps its
    number of columns, so that shapes [(0, m)] exist. *)

Record mat (F : Type) := Mat { ncol : nat; rows : list (list F) }.
Arguments Mat {F} ncol rows.
Arguments ncol {F} m.
Arguments rows {F} m.

Inductive ndarray (F : Type) : Type :=
  | A0 (x : F)
  | A1 (v : list F)
  | A2 (m : mat F).
Arguments A0 {F} x.
Arguments A1 {F} v.
Arguments A2 {F} m.

Definition nrow {F} (m : mat F) : nat := length (rows m).

Definition shape {F} (a : ndarray F) : list nat :=
  match a with
  | A0 _ => []
  | A1 v => [length v]
  | A2 m => [nrow m; ncol m]
  end.

(** Every row of a well-formed 2D array has [ncol] entries. *)
Definition mat_wf {F} (m : mat F) : Prop :=
  Forall (fun r => length r = ncol m) (rows m).

Definition wf {F} (a : ndarray F) : Prop :=
  match a with A2 m => mat_wf m | _ => True end.

(** Entry [(i, j)] of a 2D array. *)
Definition entry {F} (m : mat F) (i j : nat) : option F :=
  r ← rows m !! i; r !! j.

(** Entry of an array at a full index. *)
Definition nd_get {F} (a : ndarray F) (ix : list nat) : option F :=
  match a, ix with
  | A0 x, [] => Some x
  | A1 v, [i] => v !! i
  | A2 m, [i; j] => entry m i j
  | _, _ => None
  end.

(** [a[i]] as a list: the entry of a 1D array, the row of a 2D array. *)
Definition nd_row {F} (a : ndarray F) (i : nat) : option (list F) :=
  match a with
  | A0 _ => None
  | A1 v => x ← v !! i; Some [x]
  | A2 m => rows m !! i
  end.

Section Arrays.
Context {F : Type} `{Float F}.

(** *** Broadcasting *)

(** Length of two broadcast axes. *)
Definition bdim (n m : nat) : Result nat :=
  if decide (n = m) then Ok n
  else if decide (n = 1%nat) then Ok m
  else if decide (m = 1%nat) then Ok n
  else Err (ValueError "operands could not be broadcast together").

(** Repeat a length-1 axis [n] times; other lengths are left as they are. *)
Definition stretch {A} (n : nat) (l : list A) : list A :=
  if decide (length l = n) then l
  else match l with [x] => replicate n x | _ => l end.

Definition vec_binop (f : F -> F -> F) (a b : list F) : Result (list F) :=
  n ← bdim (length a) (length b);
  Ok (zip_with f (stretch n a) (stretch n b)).

Definition mat_binop (f : F -> F -> F) (a b : mat F) : Result (mat F) :=
  r ← bdim (nrow a) (nrow b);
  c ← bdim (ncol a) (ncol b);
  Ok (Mat c (zip_with (fun ra rb => zip_with f (stretch c ra) (stretch c rb))
                      (stretch r (rows a)) (stretch r (rows b)))).

Definition mat_map (f : F -> F) (m : mat F) : mat F :=
  Mat (ncol m) (map (map f) (rows m)).

(** A ufunc of one argument. *)
Definition nd_map (f : F -> F) (a : ndarray F) : ndarray F :=
  match a with
  | A0 x => A0 (f x)
  | A1 v => A1 (map f v)
  | A2 m => A2 (mat_map f m)
  end.

(** A 1D array seen as one row, as broadcasting against a 2D array does. *)
Definition as_row (v : list F) : mat F := Mat (length v) [v].

(** A binary ufunc, with numpy's broadcasting. *)
Definition nd_binop (f : F -> F -> F) (a b : ndarray F) : Result (ndarray F) :=
  match a, b with
  | A0 x, _ => Ok (nd_map (f x) b)
  | _, A0 y => Ok (nd_map (fun x => f x y) a)
  | A1 u, A1 v => A1 <$> vec_binop f u v
  | A1 u, A2 m => A2 <$> mat_binop f (as_row u) m
  | A2 m, A1 v => A2 <$> mat_binop f m (as_row v)
  | A2 m, A2 n => A2 <$> mat_binop f m n
  end.

(** Broadcast [v] to the shape [(r, c)], as assignment into a 2D slice does. *)
Definition broadcast_rows (r c : nat) (v : ndarray F) : Result (list (list F)) :=
  match v with
  | A0 x => Ok (replicate r (replicate c x))
  | A1 u =>
      if decide (length u = c) then Ok (replicate r u)
      else match u with
           | [x] => Ok (replicate r (replicate c x))
           | _ => Err (ValueError "could not broadcast input array")
           end
  | A2 m =>
      if decide ((nrow m = r \/ nrow m = 1%nat) /\ (ncol m = c \/ ncol m = 1%nat))
      then Ok (map (stretch c) (stretch r (rows m)))
      else Err (ValueError "could not broadcast input array")
  end.

(** Broadcast [v] to the shape [(n,)]. *)
Definition broadcast_vec (n : nat) (v : ndarray F) : Result (list F) :=
  match v with
  | A0 x => Ok (replicate n x)
  | A1 u =>
      if decide (length u = n) then Ok u
      else match u with
           | [x] => Ok (replicate n x)
           | _ => Err (ValueError "could not broadcast input array")
           end
  | A2 _ => Err (ValueError "could not broadcast input array")
  end.

(** The shape of the result of a binary ufunc, when the operands can
    be broadcast together. *)
Definition bmax (n m : nat) : nat := if decide (n = 1%nat) then m else n.

Definition bshape (s1 s2 : list nat) : list nat :=
  match s1, s2 with
  | [], s => s
  | s, [] => s
  | [n], [m] => [bmax n m]
  | [n], [r; c] => [r; bmax n c]
  | [r; c], [n] => [r; bmax c n]
  | [r1; c1], [r2; c2] => [bmax r1 r2; bmax c1 c2]
  | _, _ => []
  end.

(** *** Indexing *)

(** Python's index normalisation: [i] or [n + i] for a negative [i]. *)
Definition norm_index (n : nat) (i : Z) : Result nat :=
  if decide (0 <= i < Z.of_nat n) then Ok (Z.to_nat i)
  else if decide (- Z.of_nat n <= i < 0) then Ok (Z.to_nat (Z.of_nat n + i))
  else Err IndexError.

(** [v[i]] *)
Definition vec_get (v : list F) (i : Z) : Result F :=
  j ← norm_index (length v) i; of_option IndexError (v !! j).

(** Column [j] of a 2D array. *)
Definition mat_col (m : mat F) (j : nat) : list F :=
  map (fun r => default (lit 0) (r !! j)) (rows m).

(** [a[..., j]] *)
Definition nd_last (a : ndarray F) (j : Z) : Result (ndarray F) :=
  match a with
  | A0 _ => Err IndexError
  | A1 v => A0 <$> vec_get v j
  | A2 m => i ← norm_index (ncol m) j; Ok (A1 (mat_col m i))
  end.

(** [a[i]] *)
Definition nd_first (a : ndarray F) (i : Z) : Result (ndarray F) :=
  match a with
  | A0 _ => Err IndexError
  | A1 v => A0 <$> vec_get v i
  | A2 m => j ← norm_index (nrow m) i;
            A1 <$> of_option IndexError (rows m !! j)
  end.

(** [a[:, None]] and [a[..., None]] on a 1D array. *)
Definition column (v : list F) : mat F := Mat 1 (map (fun x => [x]) v).

(** [a.T] *)
Definition mat_T (m : mat F) : mat F :=
  Mat (nrow m) (map (mat_col m) (seq 0 (ncol m))).

Definition nd_T (a : ndarray F) : ndarray F :=
  match a with A2 m => A2 (mat_T m) | _ => a end.

(** *** Boolean masks *)

(** Entries of [l] at the positions where [mask] holds. *)
Fixpoint select {A} (mask : list bool) (l : list A) : list A :=
  match mask, l with
  | b :: mask', x :: l' => if b then x :: select mask' l' else select mask' l'
  | _, _ => []
  end.

Definition count (mask : list bool) : nat := length (filter (fun b => b = true) mask).

(** Number of selected positions strictly before position [i]. *)
Definition rank (mask : list bool) (i : nat) : nat := count (take i mask).

(** [a[mask]]: a boolean index must be as long as the first axis. *)
Definition vec_mask (mask : list bool) (v : list F) : Result (list F) :=
  if decide (length mask = length v) then Ok (select mask v) else Err IndexError.

Definition mat_mask (mask : list bool) (m : mat F) : Result (mat F) :=
  if decide (length mask = nrow m) then Ok (Mat (ncol m) (select mask (rows m)))
  else Err IndexError.

(** Put the entries of [vals], in order, at the positions where [mask] holds. *)
Fixpoint scatter {A} (mask : list bool) (l vals : list A) : list A :=
  match mask, l with
  | b :: mask', x :: l' =>
      if b then match vals with
                | v :: vals' => v :: scatter mask' l' vals'
                | [] => x :: scatter mask' l' []
                end
      else x :: scatter mask' l' vals
  | _, _ => l
  end.

(** [m[mask] = v] on a 2D array *)
Definition mat_mask_assign (mask : list bool) (m : mat F) (v : ndarray F)
  : Result (mat F) :=
  if decide (length mask = nrow m) then
    vals ← broadcast_rows (count mask) (ncol m) v;
    Ok (Mat (ncol m) (scatter mask (rows m) vals))
  else Err IndexError.

(** *** Slices *)

(** [l[start:]] with a start that may be negative. *)
Definition slice_from {A} (start : Z) (l : list A) : list A :=
  let n := Z.of_nat (length l) in
  let s := if decide (start < 0) then Z.max 0 (n + start) else Z.min start n in
  drop (Z.to_nat s) l.

(** First position of [l[start:]] in [l]. *)
Definition slice_start {A} (start : Z) (l : list A) : nat :=
  let n := Z.of_nat (length l) in
  Z.to_nat (if decide (start < 0) then Z.max 0 (n + start) else Z.min start n).

(** [l[start::2]] for [start] 0 or 1. *)
Fixpoint every_other {A} (l : list A) : list A :=
  match l with
  | x :: _ :: l' => x :: every_other l'
  | [x] => [x]
  | [] => []
  end.

(** [merged[::2] = even; merged[1::2] = odd] *)
Fixpoint interleave {A} (even odd : list A) : list A :=
  match even, odd with
  | e :: even', o :: odd' => e :: o :: interleave even' odd'
  | [e], [] => [e]
  | _, _ => []
  end.

(** [np.concatenate(ms, axis=0)] of 2D arrays. *)
Fixpoint concat_rows (ms : list (mat F)) : Result (mat F) :=
  match ms with
  | [] => Err (ValueError "need at least one array to concatenate")
  | [m] => Ok m
  | m :: ms' =>
      m' ← concat_rows ms';
      if decide (ncol m = ncol m') then Ok (Mat (ncol m) (rows m ++ rows m'))
      else Err (ValueError "all the input array dimensions must match")
  end.

(** [np.column_stack(cols)] of 1D arrays. *)
Definition column_stack (cols : list (list F)) : Result (mat F) :=
  match cols with
  | [] => Err (ValueError "need at least one array to concatenate")
  | c :: _ =>
      if decide (Forall (fun c' => length c' = length c) cols)
      then Ok (mat_T (Mat (length c) cols))
      else Err (ValueError "all the input array dimensions must match")
  end.

(** [np.array(rows)] of a list of 1D arrays of one length. *)
Definition array_of_rows (rs : list (list F)) : ndarray F :=
  match rs with
  | [] => A1 []
  | r :: _ => A2 (Mat (length r) rs)
  end.

End Arrays.

(** ** External collaborators *)

(** Modelled from the spec: the interpolators of [interpolator.py], which
    is not part of the sources at hand.  "Callable at arbitrary k (and z,
    for the 2D case) returning power values; exposes [extrap_kmin],
    [extrap_kmax], an associated redshift list (2D case)". *)
Record PowerSpectrumInterpolator1D (F : Type) := {
  extrap_kmin1 : F;
  extrap_kmax1 : F;
  pk_eval1 : F -> F
}.
Arguments extrap_kmin1 {F} _.
Arguments extrap_kmax1 {F} _.
Arguments pk_eval1 {F} _ _.

Record PowerSpectrumInterpolator2D (F : Type) := {
  extrap_kmin2 : F;
  extrap_kmax2 : F;
  pk_z : list F;
  pk_eval2 : F -> F -> F
}.
Arguments extrap_kmin2 {F} _.
Arguments extrap_kmax2 {F} _.
Arguments pk_z {F} _.
Arguments pk_eval2 {F} _ _ _.

Inductive PowerSpectrumInterpolator (F : Type) : Type :=
  | PK1D (i : PowerSpectrumInterpolator1D F)
  | PK2D (i : PowerSpectrumInterpolator2D F).
Arguments PK1D {F} i.
Arguments PK2D {F} i.

Record CorrelationFunctionInterpolator1D (F : Type) := {
  extrap_smin1 : F;
  extrap_smax1 : F;
  xi_eval1 : F -> F
}.
Arguments extrap_smin1 {F} _.
Arguments extrap_smax1 {F} _.
Arguments xi_eval1 {F} _ _.

Record CorrelationFunctionInterpolator2D (F : Type) := {
  extrap_smin2 : F;
  extrap_smax2 : F;
  xi_z : list F;
  xi_eval2 : F -> F -> F
}.
Arguments extrap_smin2 {F} _.
Arguments extrap_smax2 {F} _.
Arguments xi_z {F} _.
Arguments xi_eval2 {F} _ _ _.

Inductive CorrelationFunctionInterpolator (F : Type) : Type :=
  | XI1D (i : CorrelationFunctionInterpolator1D F)
  | XI2D (i : CorrelationFunctionInterpolator2D F).
Arguments XI1D {F} i.
Arguments XI2D {F} i.

(** What the filters read from a cosmological engine: the sound horizon
    at the drag epoch of its thermodynamics section and the power
    spectrum interpolator of its Fourier section.  [None] stands for an
    engine class without the [get_] method of the section. *)
Record BaseEngine (F : Type) := {
  engine_get_thermodynamics : option (Result F);
  engine_get_fourier : option (Result (PowerSpectrumInterpolator2D F))
}.
Arguments engine_get_thermodynamics {F} _.
Arguments engine_get_fourier {F} _.

Class External (F : Type) := {
  (* cosmology.py: parameter dictionaries *)
  Params : Type;
  default_params : Params;
  (* get_engine(name) called on the parameters *)
  engine_new : string -> Params -> Result (BaseEngine F);
  (* interpolator.clone(k=..., pk=...) *)
  pk_clone : PowerSpectrumInterpolator F -> list F -> ndarray F ->
             Result (PowerSpectrumInterpolator F);
  (* utils.LeastSquareSolver(gradient, precision, constraint_gradient) *)
  LeastSquareSolver : Type;
  lss_new : ndarray F -> ndarray F -> option (ndarray F) -> Result LeastSquareSolver;
  (* lss(y, constraint=...): returns the fitted parameters *)
  lss_call : LeastSquareSolver -> ndarray F -> option (ndarray F) ->
             Result (LeastSquareSolver * ndarray F);
  lss_model : LeastSquareSolver -> Result (ndarray F);
  (* scipy.fftpack.dst / idst (type=2, axis=0, norm='ortho') *)
  dst : mat F -> Result (mat F);
  idst : mat F -> Result (mat F);
  (* scipy.interpolate.CubicSpline(x, y, axis, bc_type='clamped',
     extrapolate=False) and its evaluation spline(x, nu) *)
  Spline : Type;
  CubicSpline : list F -> ndarray F -> Result Spline;
  spline_call : Spline -> list F -> nat -> Result (ndarray F);
  (* scipy.signal.savgol_filter(x, window_length, polyorder, axis=-1) *)
  savgol_filter : ndarray F -> Z -> Z -> Result (ndarray F);
  (* scipy.interpolate.interp1d(x, y, kind, axis=0,
     fill_value='extrapolate', assume_sorted=True) and its evaluation *)
  Interp1d : Type;
  interp1d : list F -> ndarray F -> Z -> Result Interp1d;
  interp1d_call : Interp1d -> list F -> Result (ndarray F);
  (* scipy.signal.find_peaks(x)[0] *)
  find_peaks : list F -> Result (list Z)
}.

(** What the theorems below take from the documentation of scipy: the
    Savitzky-Golay filter keeps the shape of its input; a spline or an
    interpolant evaluated at n points along axis 0 has n rows, one
    column per column of the data; a spline returns its data on its
    knots. *)
Class ExternalLaws (F : Type) `{Float F, External F} : Prop := {
  savgol_filter_shape : forall x w p y,
    savgol_filter x w p = Ok y -> shape y = shape x;
  spline_call_shape : forall x m sp xs nu out,
    CubicSpline x (A2 m) = Ok sp -> spline_call sp xs nu = Ok out ->
    shape out = [length xs; ncol m];
  spline_call_knot : forall x m sp xs out,
    CubicSpline x (A2 m) = Ok sp -> spline_call sp xs 0 = Ok (A2 out) ->
    forall i j v, xs !! i = Some v -> x !! j = Some v ->
      rows out !! i = rows m !! j;
  interp1d_call_shape : forall x y kind f xs out,
    interp1d x y kind = Ok f -> interp1d_call f xs = Ok out ->
    shape out = length xs :: tail (shape y)
}.

(** ** cosmology.py: cosmologies and their engines *)

Record Cosmology (F : Type) `{External F} := {
  _params : Params;
  _engine : option (BaseEngine F)
}.
Arguments _params {F _} _.
Arguments _engine {F _} _.
Arguments Build_Cosmology {F _} _ _.

Section CosmologyPy.
Context {F : Type} `{Float F, External F}.

(** [Cosmology()]: default parameters, no engine. *)
Definition Cosmology_default : Cosmology F :=
  {| _params := default_params; _engine := None |}.

(** [_get_cosmology_engine(cosmology, engine, set_engine)]; the second
    component is the cosmology with its attached engine afterwards. *)
Definition _get_cosmology_engine (cosmology : Cosmology F)
    (engine : option string) (set_engine : bool)
  : Result (BaseEngine F * Cosmology F) :=
  e ← match engine with
      | None =>
          match _engine cosmology with
          | None => Err (CosmologyError "Please provide an engine")
          | Some e => Ok e
          end
      | Some name => engine_new name (_params cosmology)
      end;
  Ok (e, if set_engine
         then {| _params := _params cosmology; _engine := Some e |}
         else cosmology).

(** [cosmology.get_thermodynamics().rs_drag] *)
Definition get_thermodynamics_rs_drag (cosmology : Cosmology F) : Result F :=
  '(e, _) ← _get_cosmology_engine cosmology None true;
  match engine_get_thermodynamics e with
  | None => Err (CosmologyError "Engine does not provide thermodynamics")
  | Some r => r
  end.

(** [Fourier(cosmology, engine=engine, set_engine=set_engine).pk_interpolator()] *)
Definition Fourier_pk_interpolator (cosmology : Cosmology F)
    (engine : option string) (set_engine : bool)
  : Result (PowerSpectrumInterpolator2D F) :=
  '(e, _) ← _get_cosmology_engine cosmology engine set_engine;
  match engine_get_fourier e with
  | None => Err AttributeError
  | Some r => r
  end.

(** [interp(k)] on a 1D interpolator *)
Definition pk_call1 (i : PowerSpectrumInterpolator1D F) (k : list F) : list F :=
  map (pk_eval1 i) k.

(** [interp(k, z, ignore_growth=True)] on a 2D interpolator *)
Definition pk_call2 (i : PowerSpectrumInterpolator2D F) (k z : list F) : mat F :=
  Mat (length z) (map (fun x => map (pk_eval2 i x) z) k).

(** [interp(k, z=0.)] on a 2D interpolator *)
Definition pk_call_z0 (i : PowerSpectrumInterpolator2D F) (k : list F) : list F :=
  map (fun x => pk_eval2 i x (lit 0)) k.

Definition xi_call1 (i : CorrelationFunctionInterpolator1D F) (s : list F) : list F :=
  map (xi_eval1 i) s.

Definition xi_call2 (i : CorrelationFunctionInterpolator2D F) (s z : list F) : mat F :=
  Mat (length z) (map (fun x => map (xi_eval2 i x) z) s).

Definition extrap_kmin (i : PowerSpectrumInterpolator F) : F :=
  match i with PK1D i => extrap_kmin1 i | PK2D i => extrap_kmin2 i end.
Definition extrap_kmax (i : PowerSpectrumInterpolator F) : F :=
  match i with PK1D i => extrap_kmax1 i | PK2D i => extrap_kmax2 i end.
Definition extrap_smin (i : CorrelationFunctionInterpolator F) : F :=
  match i with XI1D i => extrap_smin1 i | XI2D i => extrap_smin2 i end.
Definition extrap_smax (i : CorrelationFunctionInterpolator F) : F :=
  match i with XI1D i => extrap_smax1 i | XI2D i => extrap_smax2 i end.

(** [isinstance(interp, PowerSpectrumInterpolator2D)] *)
Definition pk_isinstance2D (i : PowerSpectrumInterpolator F) : bool :=
  match i with PK2D _ => true | PK1D _ => false end.
Definition xi_isinstance2D (i : CorrelationFunctionInterpolator F) : bool :=
  match i with XI2D _ => true | XI1D _ => false end.

End CosmologyPy.

(** ** cosmology.py: parameter dictionaries

    A Python dictionary with string keys: the items in insertion order,
    no key twice. *)

Definition dict (V : Type) : Type := list (string * V).

Section Dict.
Context {V : Type}.

(** [d.keys()] *)
Definition keys (d : dict V) : list string := map fst d.

(** [d.get(k)] *)
Fixpoint dict_get (k : string) (d : dict V) : option V :=
  match d with
  | [] => None
  | (k', v) :: d' => if decide (k' = k) then Some v else dict_get k d'
  end.

(** [k in d] *)
Definition dict_in (k : string) (d : dict V) : bool := bool_decide (k ∈ keys d).

(** [d.pop(k)] for a key of [d] *)
Definition dict_pop (k : string) (d : dict V) : dict V :=
  filter (fun kv => kv.1 <> k) d.

(** [d[k] = v]: a key of [d] keeps its place, a new key goes last. *)
Fixpoint dict_set (k : string) (v : V) (d : dict V) : dict V :=
  match d with
  | [] => [(k, v)]
  | (k', v') :: d' =>
      if decide (k' = k) then (k, v) :: d' else (k', v') :: dict_set k v d'
  end.

(** [d.update(more)] *)
Definition dict_update (d more : dict V) : dict V :=
  foldl (fun d kv => dict_set kv.1 kv.2 d) d more.

End Dict.

(** The input parameters that conflict with each other. *)
Definition conflicts : list (list string) :=
  [["h"; "H0"];
   ["T_cmb"; "Omega_g"; "omega_g"; "Omega0_g"];
   ["Omega_b"; "omega_b"; "Omega0_b"];
   ["N_ur"; "Omega_ur"; "omega_ur"; "Omega0_ur"; "N_eff"];
   ["Omega_cdm"; "omega_cdm"; "Omega0_cdm"; "Omega_c"; "omega_c"; "Omega_m";
    "omega_m"; "Omega0_m"];
   ["m_ncdm"; "Omega_ncdm"; "omega_ncdm"; "Omega0_ncdm"];
   ["A_s"; "ln10^{10}A_s"; "sigma8"];
   ["tau_reio"; "z_reio"]].

(** [find_conflicts(name)]: the first tuple [name] is in, else [()]. *)
Fixpoint find_in (name : string) (groups : list (list string)) : list string :=
  match groups with
  | [] => []
  | conf :: groups' =>
      if bool_decide (name ∈ conf) then conf else find_in name groups'
  end.

Definition find_conflicts (name : string) : list string := find_in name conflicts.

(** [str] of a list of names, none of which holds a quote or an escape. *)
Fixpoint join (sep : string) (l : list string) : string :=
  match l with
  | [] => EmptyString
  | [s] => s
  | s :: l' => s +:+ sep +:+ join sep l'
  end.

Definition repr_names (l : list string) : string :=
  "[" +:+ join ", " (map (fun s => "'" +:+ s +:+ "'") l) +:+ "]".

Section Parameters.
Context {V : Type}.

(** [conf[name]] in [check_params]: the other keys of [args] that
    conflict with [name], in the order of the tuple. *)
Definition conflicting (args : dict V) (name : string) : list string :=
  filter (fun eq => eq <> name /\ eq ∈ keys args) (find_conflicts name).

(** [check_params(args)]: raises for the first key that has a conflict. *)
Definition check_params (args : dict V) : Result unit :=
  match list_find (fun name => conflicting args name <> []) (keys args) with
  | Some (_, name) =>
      Err (CosmologyError ("Conflicting parameters are given: " +:+
                           repr_names (name :: conflicting args name)))
  | None => Ok tt
  end.

(** The first loop of [merge_params]: the keys of [args] that conflict
    with [name] are popped. *)
Definition pop_conflicts (args : dict V) (name : string) : dict V :=
  foldl (fun args eq => if dict_in eq args then dict_pop eq args else args)
        args (find_conflicts name).

(** [merge_params(args, moreargs)] *)
Definition merge_params (args moreargs : dict V) : dict V :=
  dict_update (foldl pop_conflicts args (keys moreargs)) moreargs.

(** [_include_conflicts(params)]: every name in conflict with a key gets
    the value of that key.  [None] is the [KeyError] of [params[name]]. *)
Definition include_name (params : option (dict V)) (name : string)
  : option (dict V) :=
  foldl (fun params conf =>
           p ← params; v ← dict_get name p; Some (dict_set conf v p))
        params (find_conflicts name).

Definition _include_conflicts (params : dict V) : option (dict V) :=
  foldl include_name (Some params) (keys params).

End Parameters.

(** The values of the default parameters; [VConst] is a constant of
    [constants.py]. *)
Inductive value : Type :=
  | VFloat (x : Q)
  | VInt (n : Z)
  | VStr (s : string)
  | VBool (b : bool)
  | VNone
  | VConst (name : string).

Definition _default_cosmological_parameters : dict value :=
  [("h", VFloat 0.7); ("Omega_cdm", VFloat 0.25); ("Omega_b", VFloat 0.05);
   ("Omega_k", VFloat 0); ("sigma8", VFloat 0.8); ("k_pivot", VFloat 0.05);
   ("n_s", VFloat 0.96); ("alpha_s", VFloat 0); ("r", VFloat 0);
   ("T_cmb", VConst "TCMB"); ("m_ncdm", VNone); ("neutrino_hierarchy", VNone);
   ("T_ncdm_over_cmb", VConst "TNCDM_OVER_CMB"); ("N_eff", VConst "NEFF");
   ("tau_reio", VFloat 0.06); ("reionization_width", VFloat 0.5);
   ("A_L", VFloat 1); ("w0_fld", VFloat (-1)); ("wa_fld", VFloat 0)].

Definition _default_calculation_parameters : dict value :=
  [("non_linear", VStr EmptyString); ("modes", VStr "s"); ("lensing", VBool false);
   ("z_pk", VNone); ("kmax_pk", VFloat 10); ("ellmax_cl", VInt 2500)].

(** [Cosmology.get_default_parameters(of, include_conflicts)].  The
    defaults are fixed, and no key is missing when their conflicts are
    added in. *)
Definition defaults_of (d : dict value) (include_conflicts : bool)
  : Result (dict value) :=
  if include_conflicts then of_option IndexError (_include_conflicts d) else Ok d.

Definition get_default_parameters (of_ : option string) (include_conflicts : bool)
  : Result (dict value) :=
  match of_ with
  | None =>
      toret ← defaults_of _default_cosmological_parameters include_conflicts;
      calc ← defaults_of _default_calculation_parameters include_conflicts;
      Ok (dict_update toret calc)
  | Some name =>
      if decide (name = "cosmology")
      then defaults_of _default_cosmological_parameters include_conflicts
      else if decide (name = "calculation")
      then defaults_of _default_calculation_parameters include_conflicts
      else Err (CosmologyError ("No default parameters for " +:+ name))
  end.

(** The dictionary [Cosmology.__init__] hands over to [compile_params]:
    [merge_params(get_default_parameters(include_conflicts=False), params)],
    once [check_params(params)] has passed. *)
Definition Cosmology_merged_params (params : dict value) : Result (dict value) :=
  _ ← check_params params;
  defaults ← get_default_parameters None false;
  Ok (merge_params defaults params).

(** No two keys of [args] conflict: what [check_params] checks. *)
Definition conflict_free {V} (args : dict V) : Prop :=
  forall a b, a ∈ keys args -> b ∈ keys args -> a <> b -> b ∉ find_conflicts a.

(** What holds of [params] in the loop of [_include_conflicts] over the
    keys of [d], once the keys [seen] are through. *)
Definition included {V} (d : dict V) (seen : list string) (p : dict V) : Prop :=
  forall k,
    (forall name, name ∈ seen -> k ∈ find_conflicts name ->
       dict_get k p = dict_get name d) /\
    ((forall name, name ∈ seen -> k ∉ find_conflicts name) ->
       dict_get k p = dict_get k d).

(** ** numpy routines *)

Section Numpy.
Context {F : Type} `{Float F}.

Local Open Scope float_scope.

Definition ones_like {A} (l : list A) : list F := map (fun _ => lit 1) l.

Definition mat_ones_like (m : mat F) : mat F :=
  Mat (ncol m) (map ones_like (rows m)).

(** [range(n)] *)
Definition range (n : Z) : list Z := map Z.of_nat (seq 0 (Z.to_nat n)).

(** [np.sum] and [np.mean] of a 1D array *)
Definition sum (v : list F) : F := foldl fadd (lit 0) v.
Definition mean (v : list F) : F := sum v / of_int (Z.of_nat (length v)).

(** [np.argmax] of a 1D array: the first position of the maximum. *)
Fixpoint argmax_from (best : F) (ibest i : nat) (v : list F) : nat :=
  match v with
  | [] => ibest
  | x :: v' => if best <? x then argmax_from x i (S i) v'
               else argmax_from best ibest (S i) v'
  end.
Definition argmax (v : list F) : Result nat :=
  match v with
  | [] => Err (ValueError "attempt to get argmax of an empty sequence")
  | x :: v' => Ok (argmax_from x 0%nat 1%nat v')
  end.

(** [np.searchsorted(v, x, side='right')]: number of leading entries
    that are not above [x] in a sorted [v]. *)
Fixpoint searchsorted_right (v : list F) (x : F) : nat :=
  match v with
  | [] => 0%nat
  | y :: v' => if x <? y then 0%nat else S (searchsorted_right v' x)
  end.

(** [np.flatnonzero] of a mask *)
Definition flatnonzero (mask : list bool) : list nat :=
  select mask (seq 0 (length mask)).

(** [np.linspace(start, stop, num)] *)
Definition linspace (start stop : F) (num : Z) : Result (list F) :=
  if decide (num < 0)%Z
  then Err (ValueError "Number of samples must be non-negative")
  else
    let div := (num - 1)%Z in
    let delta := stop - start in
    let step := delta / of_int div in
    let y := map (fun i : Z =>
                    (if decide (0 < div)%Z
                     then if feqb step (lit 0)
                          then (of_int i / of_int div) * delta
                          else of_int i * step
                     else of_int i * delta) + start) (range num) in
    Ok (if decide (1 < num)%Z then <[Z.to_nat div := stop]> y else y).

(** [np.geomspace(start, stop, num)]: samples on a log scale, with the
    end points set to [start] and [stop] themselves.  numpy refuses a
    zero end point and a negative number of samples, nothing else. *)
Definition geomspace (start stop : F) (num : Z) : Result (list F) :=
  if feqb start (lit 0) || feqb stop (lit 0)
  then Err (ValueError "Geometric sequence cannot include zero")
  else
    let both_negative := (start <? lit 0) && (stop <? lit 0) in
    let sgn x := if both_negative then lit 0 - x else x in
    exps ← linspace (flog10 (sgn start)) (flog10 (sgn stop)) num;
    let result := map (fpow (lit 10)) exps in
    let result := if decide (0 < num)%Z then <[0%nat := sgn start]> result
                  else result in
    let result := if decide (1 < num)%Z
                  then <[Z.to_nat (num - 1) := sgn stop]> result
                  else result in
    Ok (map sgn result).

(** *** Operations on arrays of any dimension *)

(** [a[mask]] *)
Definition nd_mask (mask : list bool) (a : ndarray F) : Result (ndarray F) :=
  match a with
  | A0 _ => Err IndexError
  | A1 v => A1 <$> vec_mask mask v
  | A2 m => A2 <$> mat_mask mask m
  end.

(** [a[mask] = v] *)
Definition nd_mask_assign (mask : list bool) (a v : ndarray F)
  : Result (ndarray F) :=
  match a with
  | A0 _ => Err IndexError
  | A1 u =>
      if decide (length mask = length u) then
        vals ← broadcast_vec (count mask) v;
        Ok (A1 (scatter mask u vals))
      else Err IndexError
  | A2 m => A2 <$> mat_mask_assign mask m v
  end.

(** [a[start:] = v] *)
Definition nd_slice_assign (start : Z) (a v : ndarray F) : Result (ndarray F) :=
  match a with
  | A0 _ => Err IndexError
  | A1 u =>
      let s := slice_start start u in
      vals ← broadcast_vec (length u - s) v;
      Ok (A1 (take s u ++ vals))
  | A2 m =>
      let s := slice_start start (rows m) in
      vals ← broadcast_rows (nrow m - s) (ncol m) v;
      Ok (A2 (Mat (ncol m) (take s (rows m) ++ vals)))
  end.

(** [m[start:]] on a 2D array *)
Definition mat_slice_from (start : Z) (m : mat F) : mat F :=
  Mat (ncol m) (slice_from start (rows m)).

(** One argument of [np.column_stack] as a 2D array. *)
Definition as_columns (a : ndarray F) : mat F :=
  match a with
  | A0 x => Mat 1 [[x]]
  | A1 v => column v
  | A2 m => m
  end.

(** [np.column_stack(cols)] *)
Fixpoint nd_column_stack (cols : list (ndarray F)) : Result (mat F) :=
  match cols with
  | [] => Err (ValueError "need at least one array to concatenate")
  | [c] => Ok (as_columns c)
  | c :: cols' =>
      m ← nd_column_stack cols';
      let c := as_columns c in
      if decide (nrow c = nrow m)
      then Ok (Mat (ncol c + ncol m) (zip_with app (rows c) (rows m)))
      else Err (ValueError "all the input array dimensions must match")
  end.

(** [a.dot(b)] of two 2D arrays *)
Definition dot_row (r : list F) (b : mat F) : list F :=
  map (fun j => sum (zip_with fmul r (mat_col b j))) (seq 0 (ncol b)).
Definition mat_dot (a b : mat F) : Result (mat F) :=
  if decide (ncol a = nrow b) then Ok (Mat (ncol b) (map (fun r => dot_row r b) (rows a)))
  else Err (ValueError "shapes not aligned").
Definition nd_dot (a b : ndarray F) : Result (ndarray F) :=
  match a, b with
  | A2 m, A2 n => A2 <$> mat_dot m n
  | A1 u, A2 n =>
      if decide (length u = nrow n) then Ok (A1 (dot_row u n))
      else Err (ValueError "shapes not aligned")
  | A2 m, A1 v =>
      if decide (ncol m = length v)
      then Ok (A1 (map (fun r => sum (zip_with fmul r v)) (rows m)))
      else Err (ValueError "shapes not aligned")
  | A1 u, A1 v =>
      if decide (length u = length v) then Ok (A0 (sum (zip_with fmul u v)))
      else Err (ValueError "shapes not aligned")
  | A0 x, _ => Ok (nd_map (fmul x) b)
  | _, A0 y => Ok (nd_map (fun x => fmul x y) a)
  end.

End Numpy.

(** ** Strings *)

(** A string is the sequence of the bytes of its UTF-8 encoding.
    [str.isascii]: every character is below U+0080, one byte each. *)
Fixpoint isascii (s : string) : bool :=
  match s with
  | EmptyString => true
  | String c s' => (nat_of_ascii c <? 128)%nat && isascii s'
  end.

(** What [str.lower] does to a string of ASCII characters: the letters
    [A] to [Z] become [a] to [z], every other character is kept. *)
Definition lower_ascii (c : ascii) : ascii :=
  let n := nat_of_ascii c in
  if decide (65 <= n <= 90)%nat then ascii_of_nat (n + 32) else c.

Fixpoint str_lower_ascii (s : string) : string :=
  match s with
  | EmptyString => EmptyString
  | String c s' => String (lower_ascii c) (str_lower_ascii s')
  end.

(** The builtin [str.lower] follows the case mapping of Unicode (so that
    the Kelvin sign U+212A becomes [k]); its table is no part of the
    sources, and the method is kept abstract. *)
Class Str := {
  lower : string -> string
}.

(** What is taken from the documentation of Python: on a string of
    ASCII characters [str.lower] is [str_lower_ascii]. *)
Class StrLaws `{Str} : Prop := {
  lower_isascii : forall s, isascii s = true -> lower s = str_lower_ascii s
}.

Module PS.

(** ** Power-spectrum filters: the base class *)

(** The classes registered by the metaclass
    [RegisteredPowerSpectrumBAOFilter], in the order of their definition. *)
Inductive PowerSpectrumBAOFilterClass : Type :=
  | BasePowerSpectrumBAOFilter
  | Hinton2017PowerSpectrumBAOFilter
  | SavGolPowerSpectrumBAOFilter
  | EHNoWigglePolyPowerSpectrumBAOFilter
  | Wallish2018PowerSpectrumBAOFilter
  | Brieden2022PowerSpectrumBAOFilter
  | PeakAveragePowerSpectrumBAOFilter.

(** The class attribute [name]. *)
Definition name (c : PowerSpectrumBAOFilterClass) : string :=
  match c with
  | BasePowerSpectrumBAOFilter => "base"
  | Hinton2017PowerSpectrumBAOFilter => "hinton2017"
  | SavGolPowerSpectrumBAOFilter => "savgol"
  | EHNoWigglePolyPowerSpectrumBAOFilter => "ehpoly"
  | Wallish2018PowerSpectrumBAOFilter => "wallish2018"
  | Brieden2022PowerSpectrumBAOFilter => "brieden2022"
  | PeakAveragePowerSpectrumBAOFilter => "peakaverage"
  end.

Section PowerSpectrum.
Context {F : Type} `{Float F, External F}.

Local Open Scope float_scope.

(** Keyword arguments of the constructors; [None] is an argument left
    out. *)
Record Kwargs := {
  kw_cosmo : option (Cosmology F);
  kw_cosmo_fid : option (Cosmology F);
  kw_nk : option Z;
  kw_degree : option Z;
  kw_sigma : option F;
  kw_weight : option F;
  kw_krange : option (F * F);
  kw_krange_damp : option (F * F);
  kw_sigma_damp : option F;
  kw_rescale_krange : option bool
}.

(** The attributes a constructor of a derived class sets before it
    calls the constructor of the base class. *)
Inductive Settings : Type :=
  | NoSettings
  | HintonSettings (degree : Z) (sigma weight : F)
  | EHpolySettings (krange : F * F) (rescale_krange : bool).

(** The attributes set by [_prepare]. *)
Inductive Prepared : Type :=
  | NotPrepared
  | BriedenPrepared (kmask_fid : list bool) (k_fid : list F)
      (pknow_correction : mat F) (ratio_fid : ndarray F)
      (ik_fid_peaks : list (list Z)) (ratio_now_fid : ndarray F)
  | PeakAveragePrepared (k_peaks : list (list F)).

(** The arrays [Wallish2018._compute] keeps for inspection:
    [_even], [_odd], [_dd_even], [_dd_odd], [_even_now], [_odd_now]. *)
Record WallishKept := {
  _even : mat F; _odd : mat F;
  _dd_even : ndarray F; _dd_odd : ndarray F;
  _even_now : mat F; _odd_now : mat F
}.

(** An instance.  [pknow] is [None] as long as [_compute] has not run. *)
Record PSFilter := {
  cls : PowerSpectrumBAOFilterClass;
  settings : Settings;
  _cosmo_fid : option (Cosmology F);
  pk_interpolator : PowerSpectrumInterpolator F;
  k : list F;
  _cosmo : option (Cosmology F);
  is2d : bool;
  pk : ndarray F;
  prepared : Prepared;
  pknow : option (ndarray F);
  kept : option WallishKept
}.

Definition with_cosmo (st : PSFilter) (c : option (Cosmology F)) : PSFilter :=
  {| cls := cls st; settings := settings st; _cosmo_fid := _cosmo_fid st;
     pk_interpolator := pk_interpolator st; k := k st; _cosmo := c;
     is2d := is2d st; pk := pk st; prepared := prepared st;
     pknow := pknow st; kept := kept st |}.

Definition with_cosmo_fid (st : PSFilter) (c : option (Cosmology F)) : PSFilter :=
  {| cls := cls st; settings := settings st; _cosmo_fid := c;
     pk_interpolator := pk_interpolator st; k := k st; _cosmo := _cosmo st;
     is2d := is2d st; pk := pk st; prepared := prepared st;
     pknow := pknow st; kept := kept st |}.

Definition with_prepared (st : PSFilter) (p : Prepared) : PSFilter :=
  {| cls := cls st; settings := settings st; _cosmo_fid := _cosmo_fid st;
     pk_interpolator := pk_interpolator st; k := k st; _cosmo := _cosmo st;
     is2d := is2d st; pk := pk st; prepared := p;
     pknow := pknow st; kept := kept st |}.

Definition with_pknow (st : PSFilter) (a : ndarray F) : PSFilter :=
  {| cls := cls st; settings := settings st; _cosmo_fid := _cosmo_fid st;
     pk_interpolator := pk_interpolator st; k := k st; _cosmo := _cosmo st;
     is2d := is2d st; pk := pk st; prepared := prepared st;
     pknow := Some a; kept := kept st |}.

Definition with_kept (st : PSFilter) (w : WallishKept) : PSFilter :=
  {| cls := cls st; settings := settings st; _cosmo_fid := _cosmo_fid st;
     pk_interpolator := pk_interpolator st; k := k st; _cosmo := _cosmo st;
     is2d := is2d st; pk := pk st; prepared := prepared st;
     pknow := pknow st; kept := Some w |}.

(** [set_k]: the grid, between the extrapolation bounds of the
    interpolator.  No check of the bounds is made here. *)
Definition set_k (pk_interpolator : PowerSpectrumInterpolator F) (nk : Z)
  : Result (list F) :=
  geomspace (extrap_kmin pk_interpolator) (extrap_kmax pk_interpolator) nk.

(** [interp.z] *)
Definition z_of (i : PowerSpectrumInterpolator F) : Result (list F) :=
  match i with PK2D i => Ok (pk_z i) | PK1D _ => Err AttributeError end.

(** The sampling of [set_pk] and of the engines that sample again:
    [interp(k, self.pk_interpolator.z, ignore_growth=True)] if
    [self.is2d], else [interp(k)[:, None]]. *)
Definition sample_pk (is2d : bool) (interp self_pk_interpolator : PowerSpectrumInterpolator F)
    (k : list F) : Result (mat F) :=
  if is2d then
    z ← z_of self_pk_interpolator;
    match interp with
    | PK2D i => Ok (pk_call2 i k z)
    | PK1D _ => Err TypeError
    end
  else
    match interp with
    | PK1D i => Ok (column (pk_call1 i k))
    | PK2D _ => Err TypeError
    end.

(** [set_pk] *)
Definition set_pk (st : PSFilter) (pk_interpolator : PowerSpectrumInterpolator F)
    (cosmo : option (Cosmology F)) : Result PSFilter :=
  let is2d := pk_isinstance2D pk_interpolator in
  pk ← sample_pk is2d pk_interpolator pk_interpolator (k st);
  Ok {| cls := cls st; settings := settings st; _cosmo_fid := _cosmo_fid st;
        pk_interpolator := pk_interpolator; k := k st; _cosmo := cosmo;
        is2d := is2d; pk := A2 pk; prepared := prepared st;
        pknow := pknow st; kept := kept st |}.

(** The property [cosmo]: set to [Cosmology()] when first read unset. *)
Definition cosmo (st : PSFilter) : Cosmology F * PSFilter :=
  match _cosmo st with
  | None => (Cosmology_default, with_cosmo st (Some Cosmology_default))
  | Some c => (c, st)
  end.

(** The property [cosmo_fid] *)
Definition cosmo_fid (st : PSFilter) : Cosmology F * PSFilter :=
  match _cosmo_fid st with
  | None => (Cosmology_default, with_cosmo_fid st (Some Cosmology_default))
  | Some c => (c, st)
  end.

(** [rs_drag_ratio]; the properties are read only where the attribute
    is set, so that the instance is left as it is. *)
Definition rs_drag_ratio (st : PSFilter) : Result F :=
  match _cosmo st with
  | None => Ok (lit 1)
  | Some _ =>
      rs_drag_fid ← match _cosmo_fid st with
                    | None => Ok (lit 100.91463132327911)
                    | Some _ => get_thermodynamics_rs_drag (fst (cosmo_fid st))
                    end;
      rs_drag ← get_thermodynamics_rs_drag (fst (cosmo st));
      Ok (rs_drag / rs_drag_fid)
  end.

(** The property [wiggles]: the value read and the instance afterwards. *)
Definition wiggles (st : PSFilter) : Result (ndarray F) * PSFilter :=
  (pknow ← of_option AttributeError (pknow st);
   nd_binop fdiv (pk st) pknow, st).

End PowerSpectrum.

(** ** Power-spectrum filters: the engines *)

Section Engines.
Context {F : Type} `{Float F, External F}.

Local Open Scope float_scope.

(** [self.pk] inside [_compute]: [set_pk] has just stored a 2D array.
    The engines are not modelled on an array of another dimension. *)
Definition pk2d (st : PSFilter) : Result (mat F) :=
  match pk st with A2 m => Ok m | _ => Err TypeError end.

Definition nd_sub := nd_binop (F:=F) fsub.
Definition nd_add := nd_binop (F:=F) fadd.
Definition nd_mul := nd_binop (F:=F) fmul.
Definition nd_div := nd_binop (F:=F) fdiv.

(** The boundary terms of the constrained fits:
    [[a[..., 0], a[..., 1] - a[..., 0], a[..., -1], a[..., -2] - a[..., -1]]] *)
Definition edges2 (a : ndarray F) : Result (list (ndarray F)) :=
  a0 ← nd_last a 0; a1 ← nd_last a 1;
  d0 ← nd_sub a1 a0;
  b0 ← nd_last a (-1); b1 ← nd_last a (-2);
  e0 ← nd_sub b1 b0;
  Ok [a0; d0; b0; e0].

(** The same with the second differences
    [a[..., 2] - 2. * a[..., 1] + a[..., 0]] and
    [a[..., -3] - 2. * a[..., -2] + a[..., -1]]. *)
Definition edges3 (a : ndarray F) : Result (list (ndarray F)) :=
  a0 ← nd_last a 0; a1 ← nd_last a 1;
  d0 ← nd_sub a1 a0;
  a2 ← nd_last a 2;
  t ← nd_mul (A0 (lit 2)) a1; u ← nd_sub a2 t; dd0 ← nd_add u a0;
  b0 ← nd_last a (-1); b1 ← nd_last a (-2);
  e0 ← nd_sub b1 b0;
  b2 ← nd_last a (-3);
  t' ← nd_mul (A0 (lit 2)) b1; u' ← nd_sub b2 t'; ee0 ← nd_add u' b0;
  Ok [a0; d0; dd0; b0; e0; ee0].

(** *** Hinton2017 *)

Definition Hinton2017_compute (degree : Z) (sigma weight : F) (st : PSFilter)
  : Result PSFilter :=
  pk ← pk2d st;
  let mask := map (fun x => (x >? lit 1e-4) && (x <? lit 5)) (k st) in
  kmask ← vec_mask mask (k st);
  let logk := map flog10 kmask in
  pkmask ← mat_mask mask pk;
  let logpk := mat_map flog10 (mat_T pkmask) in
  logpk0 ← of_option IndexError (rows logpk !! 0%nat);
  imax ← argmax logpk0;
  maxk ← of_option IndexError (logk !! imax);
  let meanlogk := mean logk in
  let gauss := map (fun x => fexp (lit (-0.5) * fpowi ((x - maxk) / sigma) 2)) logk in
  let w := zip_with fsub (ones_like logk) (map (fmul weight) gauss) in
  let gradient :=
    array_of_rows (map (fun i => map (fun x => fpowi (x - meanlogk) i) logk)
                       (range degree)) in
  cg ← edges3 gradient;
  constraint_gradient ← nd_column_stack cg;
  lss ← lss_new gradient (A1 (map (fun x => fpowi x 2) w))
                (Some (A2 constraint_gradient));
  c ← edges3 (A2 logpk);
  constraint ← nd_column_stack c;
  '(lss, _) ← lss_call lss (A2 logpk) (Some (A2 constraint));
  model ← lss_model lss;
  pknow ← mat_mask_assign mask pk (nd_map (fpow (lit 10)) (nd_T model));
  Ok (with_pknow st (A2 pknow)).

(** *** SavGol *)

(** The filter length: [int(np.ceil(x) // 2 * 2 + 1)]. *)
Definition nfilter_of (c : Z) : Z := (c / 2 * 2 + 1)%Z.

Definition SavGol_nfilter (k : list F) : Result Z :=
  klast ← vec_get k (-1);
  kprev ← vec_get k (-2);
  c ← of_option (ValueError "cannot convert float to integer")
                (fceil (flog (lit 7) / flog (klast / kprev)));
  Ok (nfilter_of c).

Definition SavGol_compute (st : PSFilter) : Result PSFilter :=
  pk ← pk2d st;
  nfilter ← SavGol_nfilter (k st);
  kpk ← nd_mul (A1 (k st)) (A2 (mat_T pk));
  filtered ← savgol_filter (nd_map flog kpk) nfilter 4;
  q ← nd_div (nd_map fexp filtered) (A1 (k st));
  let pknow := nd_T q in
  let hnfilter := (nfilter / 2)%Z in
  pknow ← nd_slice_assign (- hnfilter) pknow (A2 (mat_slice_from (- hnfilter) pk));
  Ok (with_pknow st pknow).

(** *** EHNoWigglePoly *)

(** [Fourier(self.cosmo, engine='eisenstein_hu_nowiggle',
    set_engine=False).pk_interpolator()]; reading [self.cosmo] may set it. *)
Definition nowiggle_interpolator (st : PSFilter)
  : Result (PowerSpectrumInterpolator2D F * PSFilter) :=
  let '(c, st) := cosmo st in
  i ← Fourier_pk_interpolator c (Some "eisenstein_hu_nowiggle") false;
  Ok (i, st).

Definition EHNoWigglePoly_compute (krange : F * F) (rescale_krange : bool)
    (st : PSFilter) : Result PSFilter :=
  pk ← pk2d st;
  krange ← (if rescale_krange
            then r ← rs_drag_ratio st; Ok (fst krange / r, snd krange / r)
            else Ok krange);
  let mask := map (fun x => (x >=? fst krange) && (x <=? snd krange)) (k st) in
  kk ← vec_mask mask (k st);
  pkmask ← mat_mask mask pk;
  '(nowiggle, st) ← nowiggle_interpolator st;
  ratio ← nd_div (A2 (mat_T pkmask)) (A1 (pk_call_z0 nowiggle kk));
  let gradient :=
    array_of_rows (map (fun i => map (fun x => fpowi x (i - 2)) kk) (range 6)) in
  cg ← edges2 gradient;
  constraint_gradient ← nd_column_stack cg;
  lss ← lss_new gradient (A1 (map (fun x => fpowi x 2) kk))
                (Some (A2 constraint_gradient));
  c ← edges2 ratio;
  constraint ← nd_column_stack c;
  '(lss, _) ← lss_call lss ratio (Some (A2 constraint));
  model ← lss_model lss;
  q ← nd_div ratio model;
  wiggles ← mat_mask_assign mask (mat_ones_like pk) (nd_T q);
  pknow ← nd_div (A2 pk) (A2 wiggles);
  Ok (with_pknow st pknow).

(** *** Wallish2018 *)

(** [_tophat(k, kmax, scale)]: the Gaussian-tapered tophat kernel. *)
Definition _tophat (k : list F) (kmax scale : F) : list F :=
  map (fun x => if x >? kmax
                then lit 1 * fexp (fneg (fpowi scale 2) * fpowi (x / kmax - lit 1) 2)
                else lit 1) k.

Definition margin_first : nat := 20.
Definition margin_second : nat := 5.
Definition offset_even : nat * nat := (10%nat, 20%nat).  (* (-10, 20) *)
Definition offset_odd : nat * nat := (10%nat, 20%nat).

(** [1 + np.arange(n)] *)
Definition arange1 (n : nat) : list Z := map (fun i => (1 + Z.of_nat i)%Z) (seq 0 n).

(** [mask = ones(n, bool); mask[lo:hi + 1] = False] *)
Definition box_mask (n lo hi : nat) : list bool :=
  map (fun i => negb (bool_decide (lo <= i <= hi)%nat)) (seq 0 n).

(** One half of [smooth_even_odd]: cut the box out of [even * x**2],
    spline through the rest and evaluate on the full index range. *)
Definition smooth_half (x : list Z) (even : list F) (ibox : nat * nat)
  : Result (ndarray F) :=
  let mask := box_mask (length even) (fst ibox) (snd ibox) in
  xm ← of_option IndexError
        (if decide (length mask = length x) then Some (select mask x) else None);
  em ← vec_mask mask even;
  y ← vec_binop fmul em (map (fun i => of_int (i ^ 2)) xm);
  spline ← CubicSpline (map of_int xm) (A1 y);
  v ← spline_call spline (map of_int x) 0;
  nd_div v (A1 (map (fun i => of_int (i ^ 2)) x)).

Definition smooth_even_odd (xeven xodd : list Z) (even odd dd_even dd_odd : list F)
  : Result (ndarray F * ndarray F) :=
  a ← argmax (drop margin_first dd_even);
  let argmax_even := (a + margin_first)%nat in
  a ← argmax (drop margin_first dd_odd);
  let argmax_odd := (a + margin_first)%nat in
  b ← argmax (drop (argmax_even + margin_first) dd_even);
  let ibox_even := ((argmax_even - fst offset_even)%nat,
                    (argmax_even + margin_second + b + snd offset_even)%nat) in
  b ← argmax (drop (argmax_odd + margin_second) dd_odd);
  let ibox_odd := ((argmax_odd - fst offset_odd)%nat,
                   (argmax_odd + margin_second + b + snd offset_odd)%nat) in
  e ← smooth_half xeven even ibox_even;
  o ← smooth_half xodd odd ibox_odd;
  Ok (e, o).

(** [a[:, iz]] *)
Definition nd_col (a : ndarray F) (iz : nat) : Result (list F) :=
  match a with
  | A2 m => if decide (iz < ncol m)%nat then Ok (mat_col m iz) else Err IndexError
  | _ => Err IndexError
  end.

(** [m[:, iz] = v] *)
Definition mat_set_col (m : mat F) (iz : nat) (v : ndarray F) : Result (mat F) :=
  if decide (iz < ncol m)%nat then
    vals ← broadcast_vec (nrow m) v;
    Ok (Mat (ncol m) (zip_with (fun r x => <[iz := x]> r) (rows m) vals))
  else Err IndexError.

(** The loop over the redshifts, on the columns [iz], [iz + 1], ... *)
Fixpoint smooth_columns (xeven xodd : list Z) (dd_even dd_odd : ndarray F)
    (izs : list nat) (even odd : mat F) : Result (mat F * mat F) :=
  match izs with
  | [] => Ok (even, odd)
  | iz :: izs' =>
      e ← nd_col (A2 even) iz; o ← nd_col (A2 odd) iz;
      de ← nd_col dd_even iz; do ← nd_col dd_odd iz;
      '(e', o') ← smooth_even_odd xeven xodd e o de do;
      even ← mat_set_col even iz e';
      odd ← mat_set_col odd iz o';
      smooth_columns xeven xodd dd_even dd_odd izs' even odd
  end.

(** The smooth spectrum on the fine grid: sine transform, peak cut out
    of the even and of the odd coefficients, transform back. *)
Definition Wallish2018_fine (st : PSFilter) (pk : mat F)
  : Result (list F * mat F * WallishKept) :=
  kf ← linspace (extrap_kmin (pk_interpolator st)) (lit 2) 4096;
  pkf ← sample_pk (is2d st) (pk_interpolator st) (pk_interpolator st) kf;
  kpk ← mat_binop fmul (column kf) pkf;
  kpkffted ← dst (mat_map flog kpk);
  let even := Mat (ncol kpkffted) (every_other (rows kpkffted)) in
  let odd := Mat (ncol kpkffted) (every_other (drop 1 (rows kpkffted))) in
  let xeven := arange1 (nrow even) in
  let xodd := arange1 (nrow odd) in
  spline_even ← CubicSpline (map of_int xeven) (A2 even);
  dd_even ← spline_call spline_even (map of_int xeven) 2;
  spline_odd ← CubicSpline (map of_int xodd) (A2 odd);
  dd_odd ← spline_call spline_odd (map of_int xodd) 2;
  '(even, odd) ← smooth_columns xeven xodd dd_even dd_odd (seq 0 (ncol pk)) even odd;
  let merged := Mat (ncol kpkffted) (interleave (rows even) (rows odd)) in
  kpknow ← idst merged;
  pknow ← mat_binop fdiv (mat_map fexp kpknow) (column kf);
  (* [self._even] and [self._odd] are the arrays the loop wrote into *)
  Ok (kf, pknow, {| _even := even; _odd := odd; _dd_even := dd_even;
                    _dd_odd := dd_odd; _even_now := even; _odd_now := odd |}).

Definition Wallish2018_compute (st : PSFilter) : Result PSFilter :=
  pk ← pk2d st;
  '(kf, pknow, kept) ← Wallish2018_fine st pk;
  let mask := map (fun x => (x >? lit 1e-2) && (x <? lit 1.5)) kf in
  kin ← vec_mask mask kf;
  pknow ← mat_mask mask pknow;
  let mask_left := map (fun x => x <? lit 5e-4) (k st) in
  let mask_right := map (fun x => x >? lit 2) (k st) in
  kl ← vec_mask mask_left (k st);
  kr ← vec_mask mask_right (k st);
  let knots := kl ++ kin ++ kr in
  pkl ← mat_mask mask_left pk;
  pkr ← mat_mask mask_right pk;
  values ← concat_rows [pkl; pknow; pkr];
  spline ← CubicSpline knots (A2 values);
  pknow ← spline_call spline (k st) 0;
  let tophat := column (_tophat (k st) (lit 1) (lit 20)) in
  q ← nd_div (A2 pk) pknow;
  d ← nd_sub q (A0 (lit 1));
  t ← nd_mul d (A2 tophat);
  wiggles ← nd_add t (A0 (lit 1));
  pknow ← nd_div (A2 pk) wiggles;
  Ok (with_pknow (with_kept st kept) pknow).

(** *** Brieden2022 *)

(** [x[ix]] with an array of integer indices, negative ones counted
    from the end. *)
Definition take_idx {A} (ix : list Z) (l : list A) : Result (list A) :=
  mapR (fun i => j ← norm_index (length l) i; of_option IndexError (l !! j)) ix.

Definition nd_take (ix : list Z) (a : ndarray F) : Result (ndarray F) :=
  match a with
  | A0 _ => Err IndexError
  | A1 v => A1 <$> take_idx ix v
  | A2 m => rs ← take_idx ix (rows m); Ok (A2 (Mat (ncol m) rs))
  end.

(** A list of 0D arrays as a 1D array. *)
Definition scalars (l : list (ndarray F)) : Result (ndarray F) :=
  A1 <$> mapR (fun a => match a with A0 x => Ok x | _ => Err TypeError end) l.

(** [a *= b]: the product has to fit into [a]. *)
Definition nd_imul (a b : ndarray F) : Result (ndarray F) :=
  r ← nd_mul a b;
  if decide (shape r = shape a) then Ok r
  else Err (ValueError "non-broadcastable output operand").

(** [a[start:]] *)
Definition nd_slice_from (start : Z) (a : ndarray F) : Result (ndarray F) :=
  match a with
  | A0 _ => Err IndexError
  | A1 v => Ok (A1 (slice_from start v))
  | A2 m => Ok (A2 (mat_slice_from start m))
  end.

(** [Fourier(self.cosmo_fid).pk_interpolator()]; reading
    [self.cosmo_fid] may set it. *)
Definition fid_interpolator (engine : option string) (set_engine : bool)
    (st : PSFilter) : Result (PowerSpectrumInterpolator2D F * PSFilter) :=
  let '(c, st) := cosmo_fid st in
  i ← Fourier_pk_interpolator c engine set_engine;
  Ok (i, st).

(** [try: r except TypeError: r'] *)
Definition except_TypeError {A} (r r' : Result A) : Result A :=
  match r with Err TypeError => r' | _ => r end.

(** The ratio of the fiducial power spectrum to its no-wiggle
    counterpart on [k_fid], and its constrained polynomial fit: the
    common beginning of the two [_prepare]. *)
Definition fid_ratio (st : PSFilter) (k_fid : list F)
  : Result (list F * ndarray F * PSFilter) :=
  '(pk_fid, st) ← except_TypeError
     ('(i, st) ← fid_interpolator None true st; Ok (pk_call_z0 i k_fid, st))
     ('(i, st) ← fid_interpolator None true st; Ok (pk_call_z0 i k_fid, st));
  '(i, st) ← fid_interpolator (Some "eisenstein_hu_nowiggle") false st;
  let pknow_fid := pk_call_z0 i k_fid in
  ratio ← vec_binop fdiv pk_fid pknow_fid;
  let gradient :=
    array_of_rows (map (fun i => map (fun x => fpowi x (i - 1)) k_fid) (range 4)) in
  cg ← edges2 gradient;
  constraint_gradient ← nd_column_stack cg;
  lss ← lss_new gradient (A1 (map (fun x => fpowi x 2) k_fid))
                (Some (A2 constraint_gradient));
  c ← edges2 (A1 ratio);
  constraint ← scalars c;
  '(lss, _) ← lss_call lss (A1 ratio) (Some constraint);
  model ← lss_model lss;
  Ok (ratio, model, st).

(** [_interp(ixh, ixl, x, y, kind=2)] of Brieden2022 *)
Definition Brieden2022_interp_one (ix : list Z) (x : list F) (y : ndarray F)
  : Result (ndarray F) :=
  xi ← take_idx ix x;
  yi ← nd_take ix y;
  f ← interp1d xi yi 2;
  interp1d_call f x.

Definition Brieden2022_interp (ixh ixl : list Z) (x : list F) (y : ndarray F)
  : Result (ndarray F) :=
  h ← Brieden2022_interp_one ixh x y;
  toret ← nd_add (A0 (lit 0)) h;
  l ← Brieden2022_interp_one ixl x y;
  toret ← nd_add toret l;
  nd_div toret (A0 (lit 2)).

(** The peaks of [si * ratio_fid[ik0:, 0]], extended to the two ends. *)
Definition Brieden2022_peaks (si : F) (ik0 : nat) (size : nat) (ratio_fid : mat F)
  : Result (list Z) :=
  let col := mat_col (mat_slice_from (Z.of_nat ik0) ratio_fid) 0 in
  p ← find_peaks (map (fmul si) col);
  let ix := map (fun i => (i + Z.of_nat ik0)%Z) p in
  first ← of_option IndexError (ix !! 0%nat);
  last ← of_option IndexError (list.last ix);
  Ok ((if decide (first > 0)%Z then [0%Z] else []) ++ ix ++
      (if decide (last < Z.of_nat size - 1)%Z then [(-1)%Z] else [])).

Definition Brieden2022_prepare (st : PSFilter) : Result PSFilter :=
  let kmask_fid := map (fun x => (x >=? lit 1e-3) && (x <=? lit 1)) (k st) in
  k_fid ← vec_mask kmask_fid (k st);
  '(ratio, model, st) ← fid_ratio st k_fid;
  pknow_correction ← match model with
                     | A1 v => Ok (column v)
                     | _ => Err TypeError
                     end;
  ratio_fid ← mat_binop fdiv (column ratio) pknow_correction;
  let ik0 := (searchsorted_right k_fid (lit 0.02) + 1)%nat in
  ixh ← Brieden2022_peaks (lit 1) ik0 (length k_fid) ratio_fid;
  ixl ← Brieden2022_peaks (fneg (lit 1)) ik0 (length k_fid) ratio_fid;
  ratio_now_fid ← Brieden2022_interp ixh ixl k_fid (A2 ratio_fid);
  Ok (with_prepared st
        (BriedenPrepared kmask_fid k_fid pknow_correction (A2 ratio_fid)
           [ixh; ixl] ratio_now_fid)).

Definition Brieden2022_compute (st : PSFilter) : Result PSFilter :=
  match prepared st with
  | BriedenPrepared kmask_fid k_fid pknow_correction ratio_fid [ixh; ixl] ratio_now_fid =>
      pk0 ← pk2d st;
      rescale ← rs_drag_ratio st;
      pk ← sample_pk (is2d st) (pk_interpolator st) (pk_interpolator st)
             (map (fun x => x / rescale) k_fid);
      '(nowiggle, st) ← nowiggle_interpolator st;
      let pknow := A2 (column (pk_call_z0 nowiggle (map (fun x => x * rescale) k_fid))) in
      pknow ← nd_imul pknow (A2 pknow_correction);
      q ← nd_div (A2 pk) pknow;
      ratio ← nd_div q ratio_fid;
      i ← Brieden2022_interp ixh ixl k_fid ratio;
      p ← nd_mul i pknow;
      pknow ← nd_mul p ratio_now_fid;
      interp ← pk_clone (pk_interpolator st) (map (fun x => x / rescale) k_fid) pknow;
      v ← sample_pk (is2d st) interp (pk_interpolator st) k_fid;
      pknow ← mat_mask_assign kmask_fid pk0 (A2 v);
      Ok (with_pknow st (A2 pknow))
  | _ => Err AttributeError
  end.

(** *** PeakAverage *)

(** [np.arange(start, stop)] *)
Definition arange (start stop : Z) : list Z :=
  map (fun i => (start + Z.of_nat i)%Z) (seq 0 (Z.to_nat (stop - start))).

Definition PeakAverage_peaks (si : F) (ik0 : nat) (index : list nat)
    (ratio : list F) (pknow_correction : ndarray F) (k : list F)
  : Result (list F) :=
  c ← nd_slice_from (Z.of_nat ik0) pknow_correction;
  q ← nd_div (A1 (map (fmul si) (drop ik0 ratio))) c;
  p ← match q with A1 v => find_peaks v
              | _ => Err (ValueError "`x` must be a 1-D array") end;
  index0 ← of_option IndexError (index !! 0%nat);
  let ik := map (fun i => (i + Z.of_nat ik0 + Z.of_nat index0)%Z) p in
  index_last ← of_option IndexError (list.last index);
  ik_last ← of_option IndexError (list.last ik);
  take_idx (arange 0 (Z.of_nat index0) ++ ik ++
            arange (Z.max (Z.of_nat index_last) (ik_last + 1)) (Z.of_nat (length k))) k.

Definition PeakAverage_prepare (st : PSFilter) : Result PSFilter :=
  let index := flatnonzero (map (fun x => (x >=? lit 1e-4) && (x <=? lit 1)) (k st)) in
  k_fid ← take_idx (map Z.of_nat index) (k st);
  '(ratio, pknow_correction, st) ← fid_ratio st k_fid;
  let ik0 := (searchsorted_right k_fid (lit 1e-2) + 1)%nat in
  kh ← PeakAverage_peaks (lit 1) ik0 index ratio pknow_correction (k st);
  kl ← PeakAverage_peaks (fneg (lit 1)) ik0 index ratio pknow_correction (k st);
  Ok (with_prepared st (PeakAveragePrepared [kh; kl])).

(** [_interp(xh, xl, x, y, kind=2)] of PeakAverage *)
Definition PeakAverage_interp (xh xl x : list F) (y : ndarray F)
  : Result (ndarray F) :=
  interp ← interp1d x y 2;
  yy ← interp1d_call interp xh;
  f ← interp1d xh yy 2;
  h ← interp1d_call f x;
  toret ← nd_add (A0 (lit 0)) h;
  yy ← interp1d_call interp xl;
  f ← interp1d xl yy 2;
  l ← interp1d_call f x;
  toret ← nd_add toret l;
  nd_div toret (A0 (lit 2)).

Definition PeakAverage_compute (st : PSFilter) : Result PSFilter :=
  match prepared st with
  | PeakAveragePrepared [kh; kl] =>
      pk ← pk2d st;
      rescale ← rs_drag_ratio st;
      '(nowiggle, st) ← nowiggle_interpolator st;
      let pknow := A2 (column (pk_call_z0 nowiggle (k st))) in
      y ← nd_div (A2 pk) pknow;
      i ← PeakAverage_interp (map (fun x => x / rescale) kh)
            (map (fun x => x / rescale) kl) (k st) y;
      pknow ← nd_mul i pknow;
      Ok (with_pknow st pknow)
  | _ => Err AttributeError
  end.

End Engines.

(** ** Power-spectrum filters: life cycle and factory *)

Section LifeCycle.
Context {F : Type} `{Float F, External F, !Str}.

Local Open Scope float_scope.

Definition engine_kwargs_absent (kw : Kwargs) : bool :=
  bool_decide (kw_degree kw = None /\ kw_krange kw = None /\
               kw_rescale_krange kw = None) &&
  match kw_sigma kw, kw_weight kw, kw_krange_damp kw, kw_sigma_damp kw with
  | None, None, None, None => true
  | _, _, _, _ => false
  end.

(** The constructors of the derived classes: they keep their own
    keyword arguments and hand the others over to the base class, whose
    [set_k] refuses any keyword but [nk]. *)
Definition derived_init (c : PowerSpectrumBAOFilterClass) (kw : Kwargs)
  : Result Settings :=
  match c with
  | Hinton2017PowerSpectrumBAOFilter =>
      match kw_krange kw, kw_krange_damp kw, kw_sigma_damp kw, kw_rescale_krange kw with
      | None, None, None, None =>
          Ok (HintonSettings (default 13%Z (kw_degree kw))
                (default (lit 0.5) (kw_sigma kw)) (default (lit 0.9) (kw_weight kw)))
      | _, _, _, _ => Err TypeError
      end
  | EHNoWigglePolyPowerSpectrumBAOFilter =>
      match kw_degree kw, kw_sigma kw, kw_weight kw with
      | None, None, None =>
          Ok (EHpolySettings (default (lit 1e-3, lit 1) (kw_krange kw))
                (default true (kw_rescale_krange kw)))
      | _, _, _ => Err TypeError
      end
  | _ => if engine_kwargs_absent kw then Ok NoSettings else Err TypeError
  end.

Definition _prepare (st : PSFilter) : Result PSFilter :=
  match cls st with
  | Brieden2022PowerSpectrumBAOFilter => Brieden2022_prepare st
  | PeakAveragePowerSpectrumBAOFilter => PeakAverage_prepare st
  | _ => Ok st
  end.

(** The base class has no [_compute]. *)
Definition _compute (st : PSFilter) : Result PSFilter :=
  match cls st, settings st with
  | Hinton2017PowerSpectrumBAOFilter, HintonSettings degree sigma weight =>
      Hinton2017_compute degree sigma weight st
  | SavGolPowerSpectrumBAOFilter, _ => SavGol_compute st
  | EHNoWigglePolyPowerSpectrumBAOFilter, EHpolySettings krange rescale_krange =>
      EHNoWigglePoly_compute krange rescale_krange st
  | Wallish2018PowerSpectrumBAOFilter, _ => Wallish2018_compute st
  | Brieden2022PowerSpectrumBAOFilter, _ => Brieden2022_compute st
  | PeakAveragePowerSpectrumBAOFilter, _ => PeakAverage_compute st
  | _, _ => Err AttributeError
  end.

(** [__init__].  The attributes [_cosmo], [is2d] and [pk] do not exist
    before [set_pk], which sets them. *)
Definition __init__ (c : PowerSpectrumBAOFilterClass)
    (pk_interpolator : PowerSpectrumInterpolator F) (kw : Kwargs)
  : Result PSFilter :=
  settings ← derived_init c kw;
  k ← set_k pk_interpolator (default 1024%Z (kw_nk kw));
  st ← set_pk {| cls := c; settings := settings; _cosmo_fid := kw_cosmo_fid kw;
                 pk_interpolator := pk_interpolator; k := k; _cosmo := None;
                 is2d := false; pk := A1 []; prepared := NotPrepared;
                 pknow := None; kept := None |}
              pk_interpolator (kw_cosmo kw);
  st ← _prepare st;
  _compute st.

Definition with_arrays (st : PSFilter) (pk pknow : ndarray F) : PSFilter :=
  {| cls := cls st; settings := settings st; _cosmo_fid := _cosmo_fid st;
     pk_interpolator := pk_interpolator st; k := k st; _cosmo := _cosmo st;
     is2d := is2d st; pk := pk; prepared := prepared st;
     pknow := Some pknow; kept := kept st |}.

(** [__call__] *)
Definition __call__ (st : PSFilter) (pk_interpolator : PowerSpectrumInterpolator F)
    (cosmo : option (Cosmology F)) : Result PSFilter :=
  st ← set_pk st pk_interpolator cosmo;
  st ← _compute st;
  if negb (is2d st) then
    pk0 ← nd_last (pk st) 0;
    pknow ← of_option AttributeError (pknow st);
    pknow0 ← nd_last pknow 0;
    Ok (with_arrays st pk0 pknow0)
  else Ok st.

(** The instance [__init__] hands over to [_prepare]. *)
Definition sampled (c : PowerSpectrumBAOFilterClass) (settings : Settings)
    (pk : PowerSpectrumInterpolator F) (kw : Kwargs) (k : list F) (m : mat F)
  : PSFilter :=
  {| cls := c; settings := settings; _cosmo_fid := kw_cosmo_fid kw;
     pk_interpolator := pk; k := k; _cosmo := kw_cosmo kw;
     is2d := pk_isinstance2D pk; pk := A2 m; prepared := NotPrepared;
     pknow := None; kept := None |}.

(** The instances a program can hold: made by a constructor, then
    called any number of times. *)
Inductive reachable : PSFilter -> Prop :=
  | reachable_init c pk kw st :
      __init__ c pk kw = Ok st -> reachable st
  | reachable_call st pk cosmo st' :
      reachable st -> __call__ st pk cosmo = Ok st' -> reachable st'.

(** The row an interpolator gives at one wavenumber, read the way the
    instance reads its own interpolator. *)
Definition smooth_row (st : PSFilter) (interp : PowerSpectrumInterpolator F)
    (x : F) : option (list F) :=
  match sample_pk (is2d st) interp (pk_interpolator st) [x] with
  | Ok v => rows v !! 0%nat
  | Err _ => None
  end.

(** The registry filled by the metaclass, class after class. *)
Definition _registry : gmap string PowerSpectrumBAOFilterClass :=
  foldl (fun m c => <[name c := c]> m) ∅
    [BasePowerSpectrumBAOFilter; Hinton2017PowerSpectrumBAOFilter;
     SavGolPowerSpectrumBAOFilter; EHNoWigglePolyPowerSpectrumBAOFilter;
     Wallish2018PowerSpectrumBAOFilter; Brieden2022PowerSpectrumBAOFilter;
     PeakAveragePowerSpectrumBAOFilter].

(** The factory; [engine] defaults to ['wallish2018']. *)
Definition PowerSpectrumBAOFilter (pk_interpolator : PowerSpectrumInterpolator F)
    (engine : option string) (kw : Kwargs) : Result PSFilter :=
  let engine := lower (default "wallish2018" engine) in
  match _registry !! engine with
  | None => Err (ValueError ("Power spectrum BAO filter " +:+ engine +:+ " is unknown"))
  | Some engine => __init__ engine pk_interpolator kw
  end.

End LifeCycle.

End PS.

Module CF.

(** ** Correlation-function filters *)

(** The classes registered by the metaclass
    [RegisteredCorrelationFunctionBAOFilter]. *)
Inductive CorrelationFunctionBAOFilterClass : Type :=
  | BaseCorrelationFunctionBAOFilter
  | Kirkby2013CorrelationFunctionBAOFilter.

Definition name (c : CorrelationFunctionBAOFilterClass) : string :=
  match c with
  | BaseCorrelationFunctionBAOFilter => "base"
  | Kirkby2013CorrelationFunctionBAOFilter => "kirkby2013"
  end.

Section CorrelationFunction.
Context {F : Type} `{Float F, External F, !Str}.

Local Open Scope float_scope.

Record Kwargs := {
  kw_cosmo : option (Cosmology F);
  kw_cosmo_fid : option (Cosmology F);
  kw_ns : option Z;
  kw_srange_left : option (F * F);
  kw_srange_right : option (F * F);
  kw_rescale_sbox : option bool
}.

Inductive Settings : Type :=
  | NoSettings
  | KirkbySettings (srange_left srange_right : F * F) (rescale_sbox : bool).

(** An instance.  [xinow] is [None] as long as [_compute] has not run. *)
Record XiFilter := {
  cls : CorrelationFunctionBAOFilterClass;
  settings : Settings;
  _cosmo_fid : option (Cosmology F);
  xi_interpolator : CorrelationFunctionInterpolator F;
  s : list F;
  _cosmo : option (Cosmology F);
  is2d : bool;
  xi : ndarray F;
  xinow : option (ndarray F)
}.

Definition with_cosmo (st : XiFilter) (c : option (Cosmology F)) : XiFilter :=
  {| cls := cls st; settings := settings st; _cosmo_fid := _cosmo_fid st;
     xi_interpolator := xi_interpolator st; s := s st; _cosmo := c;
     is2d := is2d st; xi := xi st; xinow := xinow st |}.

Definition with_cosmo_fid (st : XiFilter) (c : option (Cosmology F)) : XiFilter :=
  {| cls := cls st; settings := settings st; _cosmo_fid := c;
     xi_interpolator := xi_interpolator st; s := s st; _cosmo := _cosmo st;
     is2d := is2d st; xi := xi st; xinow := xinow st |}.

Definition with_arrays (st : XiFilter) (xi xinow : ndarray F) : XiFilter :=
  {| cls := cls st; settings := settings st; _cosmo_fid := _cosmo_fid st;
     xi_interpolator := xi_interpolator st; s := s st; _cosmo := _cosmo st;
     is2d := is2d st; xi := xi; xinow := Some xinow |}.

(** [set_s] *)
Definition set_s (xi_interpolator : CorrelationFunctionInterpolator F) (ns : Z)
  : Result (list F) :=
  geomspace (extrap_smin xi_interpolator) (extrap_smax xi_interpolator) ns.

(** [set_xi] *)
Definition set_xi (st : XiFilter) (xi_interpolator : CorrelationFunctionInterpolator F)
    (cosmo : option (Cosmology F)) : XiFilter :=
  {| cls := cls st; settings := settings st; _cosmo_fid := _cosmo_fid st;
     xi_interpolator := xi_interpolator; s := s st; _cosmo := cosmo;
     is2d := xi_isinstance2D xi_interpolator;
     xi := match xi_interpolator with
           | XI2D i => A2 (xi_call2 i (s st) (xi_z i))
           | XI1D i => A2 (column (xi_call1 i (s st)))
           end;
     xinow := xinow st |}.

Definition cosmo (st : XiFilter) : Cosmology F * XiFilter :=
  match _cosmo st with
  | None => (Cosmology_default, with_cosmo st (Some Cosmology_default))
  | Some c => (c, st)
  end.

Definition cosmo_fid (st : XiFilter) : Cosmology F * XiFilter :=
  match _cosmo_fid st with
  | None => (Cosmology_default, with_cosmo_fid st (Some Cosmology_default))
  | Some c => (c, st)
  end.

(** [rs_drag_ratio] *)
Definition rs_drag_ratio (st : XiFilter) : Result F :=
  match _cosmo st with
  | None => Ok (lit 1)
  | Some _ =>
      rs_drag_fid ← match _cosmo_fid st with
                    | None => Ok (lit 100.91463132327911)
                    | Some _ => get_thermodynamics_rs_drag (fst (cosmo_fid st))
                    end;
      rs_drag ← get_thermodynamics_rs_drag (fst (cosmo st));
      Ok (rs_drag / rs_drag_fid)
  end.

(** *** Kirkby2013 *)

(** [model(s)]: the rows [s**(1 - i)] for [i] in [range(5)]. *)
Definition model (s : list F) : ndarray F :=
  array_of_rows (map (fun i => map (fun x => fpowi x (1 - i)) s) (range 5)).

(** The windows of the fit, rescaled if [rescale_sbox]. *)
Definition sranges (srange_left srange_right : F * F) (rescale_sbox : bool)
    (st : XiFilter) : Result ((F * F) * (F * F)) :=
  if rescale_sbox then
    rescale ← rs_drag_ratio st;
    Ok ((fst srange_left * rescale, snd srange_left * rescale),
        (fst srange_right * rescale, snd srange_right * rescale))
  else Ok (srange_left, srange_right).

(** The samples the polynomial is fitted to. *)
Definition fit_mask (l r : F * F) (s : list F) : list bool :=
  map (fun x => ((x >=? fst l) && (x <=? snd l)) || ((x >=? fst r) && (x <=? snd r))) s.

(** The samples the polynomial replaces. *)
Definition gap_mask (l r : F * F) (s : list F) : list bool :=
  map (fun x => (x >? snd l) && (x <? fst r)) s.

(** The polynomial with the coefficients [p] in the basis [s**(1 - i)],
    at [x]. *)
Definition poly (p : list F) (x : F) : F :=
  sum (zip_with fmul p (map (fun i => fpowi x (1 - i)) (range 5))).

(** [params]: the coefficients fitted on the two windows. *)
Definition Kirkby2013_params (l r : F * F) (s : list F) (xi : ndarray F)
  : Result (ndarray F) :=
  let mask := fit_mask l r s in
  sm ← vec_mask mask s;
  lss ← lss_new (model sm) (A0 (lit 1)) None;
  xim ← nd_mask mask xi;
  '(_, params) ← lss_call lss (nd_T xim) None;
  Ok params.

Definition Kirkby2013_compute (srange_left srange_right : F * F)
    (rescale_sbox : bool) (st : XiFilter) : Result XiFilter :=
  '(l, r) ← sranges srange_left srange_right rescale_sbox st;
  params ← Kirkby2013_params l r (s st) (xi st);
  let mask := gap_mask l r (s st) in
  sm ← vec_mask mask (s st);
  v ← nd_dot params (model sm);
  xinow ← nd_mask_assign mask (xi st) (nd_T v);
  Ok (with_arrays st (xi st) xinow).

(** *** Life cycle and factory *)

Definition derived_init (c : CorrelationFunctionBAOFilterClass) (kw : Kwargs)
  : Result Settings :=
  match c with
  | Kirkby2013CorrelationFunctionBAOFilter =>
      Ok (KirkbySettings (default (lit 50, lit 82) (kw_srange_left kw))
            (default (lit 150, lit 190) (kw_srange_right kw))
            (default true (kw_rescale_sbox kw)))
  | BaseCorrelationFunctionBAOFilter =>
      match kw_srange_left kw, kw_srange_right kw, kw_rescale_sbox kw with
      | None, None, None => Ok NoSettings
      | _, _, _ => Err TypeError
      end
  end.

(** The base class has no [_compute]. *)
Definition _compute (st : XiFilter) : Result XiFilter :=
  match cls st, settings st with
  | Kirkby2013CorrelationFunctionBAOFilter, KirkbySettings l r rescale_sbox =>
      Kirkby2013_compute l r rescale_sbox st
  | _, _ => Err AttributeError
  end.

(** [__init__]; [_prepare] does nothing in these classes. *)
Definition __init__ (c : CorrelationFunctionBAOFilterClass)
    (xi_interpolator : CorrelationFunctionInterpolator F) (kw : Kwargs)
  : Result XiFilter :=
  settings ← derived_init c kw;
  s ← set_s xi_interpolator (default 1024%Z (kw_ns kw));
  let st := set_xi {| cls := c; settings := settings; _cosmo_fid := kw_cosmo_fid kw;
                      xi_interpolator := xi_interpolator; s := s; _cosmo := None;
                      is2d := false; xi := A1 []; xinow := None |}
                   xi_interpolator (kw_cosmo kw) in
  _compute st.

(** [__call__] *)
Definition __call__ (st : XiFilter) (xi_interpolator : CorrelationFunctionInterpolator F)
    (cosmo : option (Cosmology F)) : Result XiFilter :=
  let st := set_xi st xi_interpolator cosmo in
  st ← _compute st;
  if negb (is2d st) then
    xi0 ← nd_last (xi st) 0;
    xinow ← of_option AttributeError (xinow st);
    xinow0 ← nd_last xinow 0;
    Ok (with_arrays st xi0 xinow0)
  else Ok st.

Definition _registry : gmap string CorrelationFunctionBAOFilterClass :=
  foldl (fun m c => <[name c := c]> m) ∅
    [BaseCorrelationFunctionBAOFilter; Kirkby2013CorrelationFunctionBAOFilter].

(** The factory; [engine] defaults to ['kirkby2013']. *)
Definition CorrelationFunctionBAOFilter
    (xi_interpolator : CorrelationFunctionInterpolator F)
    (engine : option string) (kw : Kwargs) : Result XiFilter :=
  let engine := lower (default "kirkby2013" engine) in
  match _registry !! engine with
  | None => Err (ValueError ("Correlation function BAO filter " +:+ engine +:+ " is unknown"))
  | Some engine => __init__ engine xi_interpolator kw
  end.

End CorrelationFunction.

End CF.

(** ** Invariants of the instances *)

Section Invariants.
Context {F : Type} `{Float F, External F}.

(** [_compute] only sets [pknow], the arrays kept by Wallish2018 and,
    by reading the property [cosmo], an unset [_cosmo]. *)
Definition computed (st st' : PS.PSFilter) : Prop :=
  PS.cls st' = PS.cls st /\ PS.settings st' = PS.settings st /\
  PS._cosmo_fid st' = PS._cosmo_fid st /\
  PS.pk_interpolator st' = PS.pk_interpolator st /\ PS.k st' = PS.k st /\
  PS.is2d st' = PS.is2d st /\ PS.pk st' = PS.pk st /\
  PS.prepared st' = PS.prepared st /\
  (PS._cosmo st' = PS._cosmo st \/
   PS._cosmo st = None /\ PS._cosmo st' = Some Cosmology_default).

(** [_prepare] only sets the prepared attributes and, by reading the
    property [cosmo_fid], an unset [_cosmo_fid]. *)
Definition was_prepared (st st' : PS.PSFilter) : Prop :=
  PS.cls st' = PS.cls st /\ PS.settings st' = PS.settings st /\
  PS._cosmo st' = PS._cosmo st /\
  PS.pk_interpolator st' = PS.pk_interpolator st /\ PS.k st' = PS.k st /\
  PS.is2d st' = PS.is2d st /\ PS.pk st' = PS.pk st /\
  PS.pknow st' = PS.pknow st.

(** The outcome of [_compute], engine by engine: the attributes it
    leaves alone, and a smooth array of the shape of the raw one. *)
Definition compute_ok (st st' : PS.PSFilter) (m : mat F) : Prop :=
  computed st st' /\
  exists a, PS.pknow st' = Some a /\ shape a = [nrow m; ncol m].

(** The mask of the fiducial window. *)
Definition window (k : list F) : list bool :=
  map (fun x => (x >=? lit 1e-3)%fl && (x <=? lit 1)%fl) k.

(** What holds of the instances of the class: the window is the one of
    the grid, and the smooth array is the raw one outside of it. *)
Definition Brieden2022_prepared (st : PS.PSFilter) : Prop :=
  exists pc rf ixh ixl rnf,
    PS.prepared st = PS.BriedenPrepared (window (PS.k st))
      (select (window (PS.k st)) (PS.k st)) pc rf [ixh; ixl] rnf.

Definition Brieden2022_frame (st : PS.PSFilter) : Prop :=
  exists a interp kk vals,
    PS.pknow st = Some a /\
    pk_clone (PS.pk_interpolator st) kk vals = Ok interp /\
    forall i x, PS.k st !! i = Some x ->
      ((x <? lit 1e-3)%fl = true \/ (x >? lit 1)%fl = true ->
       nd_row a i = nd_row (PS.pk st) i) /\
      ((x >=? lit 1e-3)%fl = true -> (x <=? lit 1)%fl = true ->
       nd_row a i = PS.smooth_row st interp x).

(** What holds of the instances of Wallish2018: the smooth array is the
    raw one in the two tails of the grid. *)
Definition Wallish2018_frame (st : PS.PSFilter) : Prop :=
  exists a, PS.pknow st = Some a /\
    forall i x row, PS.k st !! i = Some x ->
      (x <? lit 5e-4)%fl = true \/ (x >? lit 2)%fl = true ->
      nd_row (PS.pk st) i = Some row ->
      Forall (fun y => (y / y)%fl = lit 1) row ->
      nd_row a i = Some row.

(** The engines that never read the property [cosmo]. *)
Definition reads_no_cosmo (c : PS.PowerSpectrumBAOFilterClass) : bool :=
  match c with
  | PS.Hinton2017PowerSpectrumBAOFilter
  | PS.SavGolPowerSpectrumBAOFilter
  | PS.Wallish2018PowerSpectrumBAOFilter => true
  | _ => false
  end.

End Invariants.

(** ** An instance to run the model on

    Exact rational arithmetic for the floats, and small stand-ins for the
    external routines: enough to evaluate every engine on concrete
    grids. *)

Module Demo.

Definition Qc_leb (x y : Qc) : bool := Qle_bool x y.
Definition Qc_ltb (x y : Qc) : bool := negb (Qle_bool y x).
Definition Qc_eqb (x y : Qc) : bool := Qeq_bool x y.

Definition Qc_powi (x : Qc) (n : Z) : Qc :=
  if decide (0 <= n) then Qcpower x (Z.to_nat n)
  else (1 / Qcpower x (Z.to_nat (- n)))%Qc.

(** The transcendental functions are stand-ins: [log] and [exp] are
    the identity, and so is [10 ** x]. *)
#[global] Instance Qc_Float : Float Qc := {|
  lit := Q2Qc;
  of_int := fun z => Q2Qc (inject_Z z);
  fadd := Qcplus;
  fsub := Qcminus;
  fmul := Qcmult;
  fdiv := Qcdiv;
  fneg := Qcopp;
  flt := Qc_ltb;
  fle := Qc_leb;
  feqb := Qc_eqb;
  fexp := fun x => x;
  flog := fun x => x;
  flog10 := fun x => x;
  fpow := fun _ y => y;
  fpowi := Qc_powi;
  fceil := fun x => Some (Qceiling x)
|}.

(** Strictly increasing abscissae, as scipy's interpolators require. *)
Fixpoint increasing (x : list Qc) : bool :=
  match x with
  | a :: (b :: _) as x' => Qc_ltb a b && increasing x'
  | _ => true
  end.

Definition zeros (n : nat) : list Qc := replicate n (Q2Qc 0).

(** Value of the table [(x, rows)] at [v]: the row of the knot equal to
    [v], a row of zeros elsewhere. *)
Fixpoint table_row (c : nat) (x : list Qc) (rs : list (list Qc)) (v : Qc) : list Qc :=
  match x, rs with
  | a :: x', r :: rs' => if Qc_eqb a v then r else table_row c x' rs' v
  | _, _ => zeros c
  end.

Fixpoint table_val (x : list Qc) (ys : list Qc) (v : Qc) : Qc :=
  match x, ys with
  | a :: x', y :: ys' => if Qc_eqb a v then y else table_val x' ys' v
  | _, _ => Q2Qc 0
  end.

(** A spline that is exact on its knots and zero elsewhere; all its
    derivatives are zero. *)
Definition demo_CubicSpline (x : list Qc) (y : ndarray Qc)
  : Result (list Qc * ndarray Qc) :=
  if increasing x then
    match y with
    | A1 v => if decide (length v = length x) then Ok (x, y) else Err (ValueError "shape")
    | A2 m => if decide (nrow m = length x) then Ok (x, y) else Err (ValueError "shape")
    | A0 _ => Err (ValueError "shape")
    end
  else Err (ValueError "`x` must be strictly increasing sequence").

Definition demo_spline_call (sp : list Qc * ndarray Qc) (xs : list Qc) (nu : nat)
  : Result (ndarray Qc) :=
  match snd sp, nu with
  | A1 v, O => Ok (A1 (map (table_val (fst sp) v) xs))
  | A1 v, _ => Ok (A1 (zeros (length xs)))
  | A2 m, O => Ok (A2 (Mat (ncol m) (map (table_row (ncol m) (fst sp) (rows m)) xs)))
  | A2 m, _ => Ok (A2 (Mat (ncol m) (map (fun _ => zeros (ncol m)) xs)))
  | A0 _, _ => Err (ValueError "shape")
  end.

(** An interpolant that is constant, with the first sample as value. *)
Definition demo_interp1d (x : list Qc) (y : ndarray Qc) (kind : Z)
  : Result (ndarray Qc) :=
  match y with
  | A1 v => if decide (length v = length x /\ x <> []) then Ok y else Err (ValueError "shape")
  | A2 m => if decide (nrow m = length x /\ x <> []) then Ok y else Err (ValueError "shape")
  | A0 _ => Err (ValueError "shape")
  end.

Definition demo_interp1d_call (y : ndarray Qc) (xs : list Qc) : Result (ndarray Qc) :=
  match y with
  | A1 v => Ok (A1 (map (fun _ => default (Q2Qc 0) (v !! 0%nat)) xs))
  | A2 m => Ok (A2 (Mat (ncol m)
                      (map (fun _ => stretch (ncol m)
                                       (take (ncol m) (default [] (rows m !! 0%nat)) ++
                                        zeros (ncol m - length (default [] (rows m !! 0%nat)))))
                           xs)))
  | A0 _ => Err (ValueError "shape")
  end.

(** A solver that fits the zero polynomial. *)
Definition demo_lss_call (lss : ndarray Qc * option (ndarray Qc)) (y : ndarray Qc)
    (constraint : option (ndarray Qc))
  : Result ((ndarray Qc * option (ndarray Qc)) * ndarray Qc) :=
  let n := match fst lss with A2 g => nrow g | A1 v => length v | A0 _ => 0%nat end in
  let params := match y with
                | A2 m => A2 (Mat n (replicate (nrow m) (zeros n)))
                | _ => A1 (zeros n)
                end in
  Ok ((fst lss, Some params), params).

Definition demo_lss_model (lss : ndarray Qc * option (ndarray Qc))
  : Result (ndarray Qc) :=
  match snd lss with
  | Some params => nd_dot params (fst lss)
  | None => Err AttributeError
  end.

(** The engine every name gives: [rs_drag] is 100, the power spectrum
    is [1 + k] at every redshift. *)
Definition demo_engine : BaseEngine Qc := {|
  engine_get_thermodynamics := Some (Ok (Q2Qc 100));
  engine_get_fourier :=
    Some (Ok {| extrap_kmin2 := Q2Qc 1e-4; extrap_kmax2 := Q2Qc 10;
                pk_z := [Q2Qc 0]; pk_eval2 := fun k _ => (1 + k)%Qc |})
|}.

#[global] Instance demo_External : External Qc := {|
  Params := unit;
  default_params := tt;
  engine_new := fun _ _ => Ok demo_engine;
  pk_clone := fun i _ _ => Ok i;
  LeastSquareSolver := ndarray Qc * option (ndarray Qc);
  lss_new := fun g _ _ => Ok (g, None);
  lss_call := demo_lss_call;
  lss_model := demo_lss_model;
  dst := fun m => Ok m;
  idst := fun m => Ok m;
  Spline := list Qc * ndarray Qc;
  CubicSpline := demo_CubicSpline;
  spline_call := demo_spline_call;
  savgol_filter := fun x _ _ => Ok x;
  Interp1d := ndarray Qc;
  interp1d := demo_interp1d;
  interp1d_call := demo_interp1d_call;
  find_peaks := fun v => Ok (match v with [] => [] | _ => [0%Z] end)
|}.

(** The stand-in of [str.lower] lowers the ASCII letters. *)
#[global] Instance demo_Str : Str := {| lower := str_lower_ascii |}.

(** A cosmology with an engine attached. *)
Definition cosmo_with_engine : Cosmology Qc :=
  {| _params := tt; _engine := Some demo_engine |}.

(** A 1D and a 2D power spectrum on [1e-4, 3]. *)
Definition pk1 : PowerSpectrumInterpolator Qc :=
  PK1D {| extrap_kmin1 := Q2Qc 1e-4; extrap_kmax1 := Q2Qc 3;
          pk_eval1 := fun k => (2 + k)%Qc |}.
Definition pk2 : PowerSpectrumInterpolator Qc :=
  PK2D {| extrap_kmin2 := Q2Qc 1e-4; extrap_kmax2 := Q2Qc 3;
          pk_z := [Q2Qc 0; Q2Qc 1];
          pk_eval2 := fun k z => (2 + k + z)%Qc |}.

(** A 1D correlation function on [30, 250]. *)
Definition xi1 : CorrelationFunctionInterpolator Qc :=
  XI1D {| extrap_smin1 := Q2Qc 30; extrap_smax1 := Q2Qc 250;
          xi_eval1 := fun s => (1 / s)%Qc |}.

Definition no_kwargs : PS.Kwargs := {|
  PS.kw_cosmo := None; PS.kw_cosmo_fid := None; PS.kw_nk := None;
  PS.kw_degree := None; PS.kw_sigma := None; PS.kw_weight := None;
  PS.kw_krange := None; PS.kw_krange_damp := None; PS.kw_sigma_damp := None;
  PS.kw_rescale_krange := None |}.

Definition kwargs_nk (nk : Z) : PS.Kwargs := {|
  PS.kw_cosmo := None; PS.kw_cosmo_fid := None; PS.kw_nk := Some nk;
  PS.kw_degree := None; PS.kw_sigma := None; PS.kw_weight := None;
  PS.kw_krange := None; PS.kw_krange_damp := None; PS.kw_sigma_damp := None;
  PS.kw_rescale_krange := None |}.

Definition kwargs_fid (nk : Z) : PS.Kwargs := {|
  PS.kw_cosmo := None; PS.kw_cosmo_fid := Some cosmo_with_engine;
  PS.kw_nk := Some nk;
  PS.kw_degree := None; PS.kw_sigma := None; PS.kw_weight := None;
  PS.kw_krange := None; PS.kw_krange_damp := None; PS.kw_sigma_damp := None;
  PS.kw_rescale_krange := None |}.

Definition xi_kwargs (ns : Z) : CF.Kwargs := {|
  CF.kw_cosmo := None; CF.kw_cosmo_fid := None; CF.kw_ns := Some ns;
  CF.kw_srange_left := None; CF.kw_srange_right := None;
  CF.kw_rescale_sbox := None |}.

(** An instance after a call with a 1D interpolator, written out. *)
Definition st_flat : PS.PSFilter := {|
  PS.cls := PS.SavGolPowerSpectrumBAOFilter; PS.settings := PS.NoSettings;
  PS._cosmo_fid := None; PS.pk_interpolator := pk1;
  PS.k := [Q2Qc 1; Q2Qc 2]; PS._cosmo := None; PS.is2d := false;
  PS.pk := A1 [Q2Qc 6; Q2Qc 8]; PS.prepared := PS.NotPrepared;
  PS.pknow := Some (A1 [Q2Qc 3; Q2Qc 2]); PS.kept := None |}.

(** An interpolator whose range is the single point 1. *)
Definition pk_deg : PowerSpectrumInterpolator Qc :=
  PK1D {| extrap_kmin1 := Q2Qc 1; extrap_kmax1 := Q2Qc 1;
          pk_eval1 := fun k => (2 + k)%Qc |}.

(** An instance as [set_pk] leaves it, on a grid of ratio 2. *)
Definition pk_col : mat Qc :=
  Mat 1 [[Q2Qc 3]; [Q2Qc 4]; [Q2Qc 6]; [Q2Qc 10]; [Q2Qc 18]; [Q2Qc 34]].

Definition st_sampled : PS.PSFilter := {|
  PS.cls := PS.SavGolPowerSpectrumBAOFilter; PS.settings := PS.NoSettings;
  PS._cosmo_fid := None; PS.pk_interpolator := pk1;
  PS.k := [Q2Qc 1; Q2Qc 2; Q2Qc 4; Q2Qc 8; Q2Qc 16; Q2Qc 32];
  PS._cosmo := None; PS.is2d := false;
  PS.pk := A2 pk_col; PS.prepared := PS.NotPrepared;
  PS.pknow := None; PS.kept := None |}.

(** A correlation function on five separations, one before the left
    window, one in it, one in the gap, one in the right window and one
    after it, as [set_xi] leaves it. *)
Definition xi_col : mat Qc :=
  Mat 1 [[Q2Qc 3]; [Q2Qc 6]; [Q2Qc 10]; [Q2Qc 17]; [Q2Qc 25]].

Definition st_xi : CF.XiFilter := {|
  CF.cls := CF.Kirkby2013CorrelationFunctionBAOFilter;
  CF.settings := CF.KirkbySettings (Q2Qc 50, Q2Qc 82) (Q2Qc 150, Q2Qc 190) true;
  CF._cosmo_fid := None; CF.xi_interpolator := xi1;
  CF.s := [Q2Qc 30; Q2Qc 60; Q2Qc 100; Q2Qc 170; Q2Qc 250];
  CF._cosmo := None; CF.is2d := false;
  CF.xi := A2 xi_col; CF.xinow := None |}.

(** Keyword arguments with a current cosmology. *)
Definition kwargs_cosmo (nk : Z) : PS.Kwargs := {|
  PS.kw_cosmo := Some Demo.cosmo_with_engine; PS.kw_cosmo_fid := None;
  PS.kw_nk := Some nk;
  PS.kw_degree := None; PS.kw_sigma := None; PS.kw_weight := None;
  PS.kw_krange := None; PS.kw_krange_damp := None; PS.kw_sigma_damp := None;
  PS.kw_rescale_krange := None |}.

(** Keyword arguments with the [krange] of EHNoWigglePoly. *)
Definition kwargs_krange (nk : Z) : PS.Kwargs := {|
  PS.kw_cosmo := None; PS.kw_cosmo_fid := None; PS.kw_nk := Some nk;
  PS.kw_degree := None; PS.kw_sigma := None; PS.kw_weight := None;
  PS.kw_krange := Some (Q2Qc 1, Q2Qc 4); PS.kw_krange_damp := None;
  PS.kw_sigma_damp := None; PS.kw_rescale_krange := None |}.

(** The coefficients the stand-in solver returns for one column. *)
Definition fit_params : mat Qc := Mat 5 [zeros 5].

End Demo.

(** * Properties *)

(** ** The error monad *)

Lemma bind_Ok {A B} (r : Result A) (f : A -> Result B) (b : B) :
  r ≫= f = Ok b -> exists a, r = Ok a /\ f a = Ok b.
Proof. destruct r as [a|e]; simpl; [eauto | discriminate]. Qed.

Lemma fmap_Ok {A B} (f : A -> B) (r : Result A) (b : B) :
  f <$> r = Ok b -> exists a, r = Ok a /\ b = f a.
Proof. destruct r as [a|e]; simpl; [intros [= <-]; eauto | discriminate]. Qed.

Lemma of_option_Ok {A} (e : exn) (o : option A) (a : A) :
  of_option e o = Ok a -> o = Some a.
Proof. destruct o; simpl; congruence. Qed.

(** Run the steps whose result is known. *)
Ltac step := cbn [mbind Result_bind fmap Result_fmap mret Result_ret].

(** Take a successful run apart, one step at a time. *)
Ltac inv_ok :=
  repeat match goal with
  | H : Ok _ = Ok _ |- _ => injection H as H; try subst
  | H : Err _ = Ok _ |- _ => discriminate H
  | H : mret _ = Ok _ |- _ => injection H as H; try subst
  | H : _ ≫= _ = Ok _ |- _ =>
      let a := fresh "a" in let Ha := fresh "H" a in
      apply bind_Ok in H as (a & Ha & H); cbv beta in H
  | H : _ <$> _ = Ok _ |- _ =>
      let a := fresh "a" in let Ha := fresh "H" a in
      apply fmap_Ok in H as (a & Ha & H); try subst
  | H : of_option _ _ = Ok _ |- _ => apply of_option_Ok in H
  | H : (let '(_, _) := ?p in _) = Ok _ |- _ => destruct p
  end.

(** ** Arrays *)

Section ArrayFacts.
Context {F : Type} `{Float F}.

Lemma bdim_refl (n : nat) : bdim n n = Ok n.
Proof. unfold bdim. by rewrite decide_True. Qed.

Lemma bdim_1_r (n : nat) : bdim n 1 = Ok n.
Proof. unfold bdim. repeat case_decide; congruence. Qed.

Lemma bdim_1_l (n : nat) : bdim 1 n = Ok n.
Proof. unfold bdim. repeat case_decide; congruence. Qed.

Lemma stretch_id {A} (n : nat) (l : list A) : length l = n -> stretch n l = l.
Proof. intros. unfold stretch. by rewrite decide_True. Qed.

Lemma length_stretch {A} (n : nat) (l : list A) :
  length l = n \/ length l = 1%nat -> length (stretch n l) = n.
Proof.
  unfold stretch. intros [Hl|Hl]; case_decide; try done.
  destruct l as [|x [|y l]]; try discriminate. simpl. by rewrite length_replicate.
Qed.

Lemma stretch_singleton {A} (n : nat) (x : A) (i : nat) :
  (i < n)%nat -> stretch n [x] !! i = Some x.
Proof.
  intros Hi. unfold stretch. case_decide as Hn; simpl in *.
  - assert (i = 0%nat) as -> by lia. done.
  - by apply lookup_replicate_2.
Qed.

(** Equal shapes: the same constructor and the same lengths. *)
Lemma shape_eq_inv (a b : ndarray F) :
  shape a = shape b ->
  match a, b with
  | A0 _, A0 _ => True
  | A1 u, A1 v => length u = length v
  | A2 m, A2 n => nrow m = nrow n /\ ncol m = ncol n
  | _, _ => False
  end.
Proof. destruct a, b; simpl; intros [=]; auto. Qed.

(** A binary ufunc on two arrays of one shape gives that shape. *)
Lemma nd_binop_same_shape_ok (f : F -> F -> F) (a b : ndarray F) :
  shape a = shape b -> exists c, nd_binop f a b = Ok c /\ shape c = shape a.
Proof.
  intros Hs. apply shape_eq_inv in Hs.
  destruct a as [x|u|m], b as [y|v|n]; try done; cbn [nd_binop].
  - eauto.
  - unfold vec_binop. rewrite Hs, bdim_refl. step.
    eexists; split; [done|]. simpl. rewrite !stretch_id by done.
    rewrite length_zip_with. f_equal. lia.
  - destruct Hs as [Hr Hc]. unfold mat_binop. rewrite Hr, Hc, !bdim_refl. step.
    eexists; split; [done|]. unfold shape, nrow in *. simpl.
    rewrite !stretch_id by done. rewrite length_zip_with, Hc. f_equal. lia.
Qed.

(** A binary ufunc on two arrays of one shape acts entry by entry. *)
Lemma nd_binop_same_shape (f : F -> F -> F) (a b : ndarray F) :
  shape a = shape b -> wf a -> wf b ->
  exists c, nd_binop f a b = Ok c /\ shape c = shape a /\
    forall ix, nd_get c ix = (x ← nd_get a ix; y ← nd_get b ix; Some (f x y)).
Proof.
  intros Hs Ha Hb. apply shape_eq_inv in Hs.
  destruct a as [x|u|m], b as [y|v|n]; try done; simpl.
  - eexists; split; [done|]. split; [done|]. by intros [|? ?].
  - unfold vec_binop. rewrite Hs, bdim_refl. simpl.
    eexists; split; [done|]. rewrite !stretch_id by done. split.
    + simpl. by rewrite length_zip_with, Hs, Nat.min_id.
    + intros [|i [|? ?]]; simpl; try done.
      rewrite lookup_zip_with. destruct (u !! i); simpl; [|done].
      by destruct (v !! i).
  - destruct Hs as [Hr Hc]. unfold mat_binop. rewrite Hr, Hc, !bdim_refl. simpl.
    eexists; split; [done|]. rewrite !stretch_id by done. split.
    + unfold shape, nrow in *. simpl. rewrite length_zip_with, Hr. f_equal. lia.
    + intros [|i [|j [|? ?]]]; simpl; try done.
      unfold entry; simpl. rewrite lookup_zip_with.
      destruct (rows m !! i) as [ra|] eqn:Hra; simpl; [|done].
      destruct (rows n !! i) as [rb|] eqn:Hrb; simpl.
      * assert (length ra = ncol n) as Hla.
        { rewrite <- Hc. eapply (Forall_lookup_1 _ _ _ _ Ha Hra). }
        assert (length rb = ncol n) as Hlb.
        { eapply (Forall_lookup_1 _ _ _ _ Hb Hrb). }
        rewrite !stretch_id by done. rewrite lookup_zip_with.
        destruct (ra !! j); simpl; [|done]. by destruct (rb !! j).
      * by destruct (ra !! j).
Qed.

(** *** Shapes *)

Lemma length_mat_col (m : mat F) (j : nat) : length (mat_col m j) = nrow m.
Proof. unfold mat_col, nrow. by rewrite length_map. Qed.

Lemma nrow_mat_T (m : mat F) : nrow (mat_T m) = ncol m.
Proof. unfold mat_T, nrow; simpl. by rewrite length_map, length_seq. Qed.

Lemma mat_T_wf (m : mat F) : mat_wf (mat_T m).
Proof.
  unfold mat_wf, mat_T; simpl. apply Forall_lookup. intros i r Hr.
  rewrite list_lookup_fmap in Hr. apply fmap_Some in Hr as (j & _ & ->).
  apply length_mat_col.
Qed.

Lemma bdim_bmax (n m k : nat) : bdim n m = Ok k ->
  k = bmax n m /\ (n = k \/ n = 1%nat) /\ (m = k \/ m = 1%nat).
Proof.
  unfold bdim, bmax. repeat case_decide; intros [=]; subst; auto.
Qed.

Lemma bmax_diag (n : nat) : bmax n n = n.
Proof. unfold bmax. by case_decide. Qed.

Lemma bmax_1_r (n : nat) : bmax n 1 = n.
Proof. unfold bmax. by case_decide. Qed.

Lemma bmax_1_l (n : nat) : bmax 1 n = n.
Proof. done. Qed.

Lemma shape_nd_map (f : F -> F) (a : ndarray F) : shape (nd_map f a) = shape a.
Proof.
  destruct a as [x|v|m]; simpl; [done| by rewrite length_map|].
  unfold nrow; simpl. by rewrite length_map.
Qed.

Lemma shape_vec_binop (f : F -> F -> F) (u v w : list F) :
  vec_binop f u v = Ok w -> length w = bmax (length u) (length v).
Proof.
  unfold vec_binop. intros Hw. inv_ok.
  match goal with Hb : bdim _ _ = Ok _ |- _ =>
    apply bdim_bmax in Hb as (<- & Hu & Hv) end.
  rewrite length_zip_with, !length_stretch by done. lia.
Qed.

Lemma shape_mat_binop (f : F -> F -> F) (a b c : mat F) :
  mat_binop f a b = Ok c ->
  nrow c = bmax (nrow a) (nrow b) /\ ncol c = bmax (ncol a) (ncol b).
Proof.
  unfold mat_binop. intros Hc. inv_ok.
  repeat match goal with Hb : bdim _ _ = Ok _ |- _ =>
    apply bdim_bmax in Hb as (<- & ? & ?) end.
  unfold nrow in *. simpl. split; [|done].
  rewrite length_zip_with, !length_stretch by done. lia.
Qed.

Lemma shape_nd_binop (f : F -> F -> F) (a b c : ndarray F) :
  nd_binop f a b = Ok c -> shape c = bshape (shape a) (shape b).
Proof.
  destruct a as [x|u|m], b as [y|v|n]; intros Hc; cbn [nd_binop] in Hc; inv_ok;
    rewrite ?shape_nd_map; cbn [shape bshape]; try done;
    try (unfold nrow; cbn; by rewrite ?length_map);
    try match goal with Hb : mat_binop _ _ _ = Ok _ |- _ =>
      apply shape_mat_binop in Hb as [Hr Hcn] end.
  - f_equal. by eapply shape_vec_binop.
  - simpl in *. unfold nrow at 2 in Hr. simpl in Hr. by rewrite Hr, Hcn.
  - simpl in *. unfold nrow at 3 in Hr. simpl in Hr. by rewrite Hr, Hcn, bmax_1_r.
  - by rewrite Hr, Hcn.
Qed.

Lemma shape_nd_T (m : mat F) : shape (nd_T (A2 m)) = [ncol m; nrow m].
Proof. simpl. by rewrite nrow_mat_T. Qed.

Lemma nrow_column (v : list F) : nrow (column v) = length v.
Proof. unfold nrow, column; simpl. by rewrite length_map. Qed.

Lemma shape_2d_inv (a : ndarray F) (r c : nat) :
  shape a = [r; c] -> exists m, a = A2 m /\ nrow m = r /\ ncol m = c.
Proof. destruct a as [x|v|m]; simpl; intros [=]; eauto. Qed.

Lemma shape_nd_T_2d (a : ndarray F) (r c : nat) :
  shape a = [r; c] -> shape (nd_T a) = [c; r].
Proof.
  intros Ha. apply shape_2d_inv in Ha as (m & -> & <- & <-). apply shape_nd_T.
Qed.

Lemma length_broadcast_vec (n : nat) (v : ndarray F) (vals : list F) :
  broadcast_vec n v = Ok vals -> length vals = n.
Proof.
  unfold broadcast_vec. destruct v as [x|u|m]; [| |discriminate].
  - intros [= <-]. by rewrite length_replicate.
  - case_decide.
    + by intros [= <-].
    + destruct u as [|x [|y u]]; try discriminate.
      intros [= <-]. by rewrite length_replicate.
Qed.

Lemma slice_start_le {A} (start : Z) (l : list A) :
  (slice_start start l <= length l)%nat.
Proof. unfold slice_start. case_decide; lia. Qed.

Lemma concat_rows_ncol (m : mat F) (ms : list (mat F)) (v : mat F) :
  concat_rows (m :: ms) = Ok v -> ncol v = ncol m.
Proof.
  simpl. destruct ms as [|m' ms]; [by intros [= <-]|].
  intros Hv. inv_ok. case_decide; [|discriminate]. by inv_ok.
Qed.

Lemma shape_nd_last (a b : ndarray F) (j : Z) (r c : nat) :
  nd_last a j = Ok b -> shape a = [r; c] -> shape b = [r].
Proof.
  intros Hl Ha. apply shape_2d_inv in Ha as (m & -> & <- & <-).
  cbn [nd_last] in Hl. inv_ok. simpl. by rewrite length_mat_col.
Qed.

(** *** Boolean masks *)

Lemma count_cons (b : bool) (mask : list bool) :
  count (b :: mask) = ((if b then 1 else 0) + count mask)%nat.
Proof.
  unfold count. rewrite filter_cons. by destruct b.
Qed.

Lemma rank_0 (mask : list bool) : rank mask 0 = 0%nat.
Proof. done. Qed.

Lemma rank_S (b : bool) (mask : list bool) (i : nat) :
  rank (b :: mask) (S i) = ((if b then 1 else 0) + rank mask i)%nat.
Proof. unfold rank. simpl. apply count_cons. Qed.

Lemma length_select {A} (mask : list bool) (l : list A) :
  length mask = length l -> length (select mask l) = count mask.
Proof.
  revert l. induction mask as [|b mask IH]; intros [|x l]; simpl; try done.
  intros [= Hl]. rewrite count_cons. destruct b; simpl; auto.
Qed.

Lemma length_scatter {A} (mask : list bool) (l vals : list A) :
  length (scatter mask l vals) = length l.
Proof.
  revert l vals. induction mask as [|b mask IH]; intros [|x l] vals; simpl; try done.
  destruct b; [destruct vals|]; simpl; auto.
Qed.

Lemma rank_lt_count (mask : list bool) (i : nat) :
  mask !! i = Some true -> (rank mask i < count mask)%nat.
Proof.
  revert i. induction mask as [|b mask IH]; intros [|i]; simpl; try done.
  - intros [= ->]. rewrite rank_0, count_cons. lia.
  - intros Hi. apply IH in Hi. rewrite rank_S, count_cons. lia.
Qed.

(** The entry selected at a position where the mask holds. *)
Lemma select_lookup {A} (mask : list bool) (l : list A) (i : nat) :
  length mask = length l -> mask !! i = Some true ->
  select mask l !! rank mask i = l !! i.
Proof.
  revert l i. induction mask as [|b mask IH]; intros [|x l] [|i]; simpl; try done.
  - intros _ [= ->]. done.
  - intros [= Hl] Hi. rewrite rank_S. destruct b; simpl; auto.
Qed.

(** An assignment through a mask leaves the other positions alone and
    puts the values, in order, at the positions where the mask holds. *)
Lemma scatter_lookup_false {A} (mask : list bool) (l vals : list A) (i : nat) :
  mask !! i = Some false -> scatter mask l vals !! i = l !! i.
Proof.
  revert l vals i. induction mask as [|b mask IH]; intros [|x l] vals [|i];
    simpl; try done.
  - by intros [= ->].
  - intros Hi. destruct b; [destruct vals|]; simpl; auto.
Qed.

Lemma scatter_lookup_true {A} (mask : list bool) (l vals : list A) (i : nat) :
  length mask = length l -> length vals = count mask ->
  mask !! i = Some true -> scatter mask l vals !! i = vals !! rank mask i.
Proof.
  revert l vals i. induction mask as [|b mask IH]; intros [|x l] vals [|i];
    simpl; try done.
  - intros _ Hv [= ->]. rewrite count_cons in Hv. by destruct vals.
  - intros [= Hl] Hv Hi. rewrite rank_S. rewrite count_cons in Hv.
    destruct b; simpl.
    + destruct vals as [|v vals]; [done|]. simpl in *. apply IH; auto with lia.
    + apply IH; auto.
Qed.

Lemma length_broadcast_rows (r c : nat) (v : ndarray F) (vals : list (list F)) :
  broadcast_rows r c v = Ok vals -> length vals = r.
Proof.
  unfold broadcast_rows. destruct v as [x|u|m].
  - intros [= <-]. by rewrite length_replicate.
  - case_decide.
    + intros [= <-]. by rewrite length_replicate.
    + destruct u as [|x [|y u]]; try discriminate.
      intros [= <-]. by rewrite length_replicate.
  - case_decide as Hd; [|discriminate]. intros [= <-].
    rewrite length_map. apply length_stretch. unfold nrow in Hd. tauto.
Qed.

(** A value of the very shape of the target is assigned as it is. *)
Lemma broadcast_rows_exact (m : mat F) :
  mat_wf m -> broadcast_rows (nrow m) (ncol m) (A2 m) = Ok (rows m).
Proof.
  intros Hwf. unfold broadcast_rows. rewrite decide_True by auto.
  rewrite stretch_id by done. f_equal.
  induction Hwf as [|r rs Hr _ IH]; simpl; [done|].
  by rewrite stretch_id, IH.
Qed.

Lemma vec_mask_Ok (mask : list bool) (v : list F) :
  length mask = length v -> vec_mask mask v = Ok (select mask v).
Proof. intros Hl. unfold vec_mask. by rewrite decide_True. Qed.

Lemma mat_mask_Ok (mask : list bool) (m : mat F) :
  length mask = nrow m -> mat_mask mask m = Ok (Mat (ncol m) (select mask (rows m))).
Proof. intros Hl. unfold mat_mask. by rewrite decide_True. Qed.

Lemma mat_T_row (m : mat F) (j : nat) :
  (j < ncol m)%nat -> rows (mat_T m) !! j = Some (mat_col m j).
Proof.
  intros Hj. unfold mat_T; simpl. by rewrite list_lookup_fmap, lookup_seq_lt.
Qed.

(** A value of the shape of the selected rows is assigned row by row. *)
Lemma mat_mask_assign_exact (mask : list bool) (m V : mat F) :
  length mask = nrow m -> nrow V = count mask -> ncol V = ncol m -> mat_wf V ->
  mat_mask_assign mask m (A2 V) = Ok (Mat (ncol m) (scatter mask (rows m) (rows V))).
Proof.
  intros Hl Hr Hc Hwf. unfold mat_mask_assign. rewrite decide_True by done.
  rewrite <- Hr, <- Hc, broadcast_rows_exact by done. by rewrite Hc.
Qed.

Lemma mat_mask_assign_spec (mask : list bool) (m m' : mat F) (v : ndarray F) :
  mat_mask_assign mask m v = Ok m' ->
  ncol m' = ncol m /\ nrow m' = nrow m /\ length mask = nrow m /\
  (forall i, mask !! i = Some false -> rows m' !! i = rows m !! i) /\
  exists vals, broadcast_rows (count mask) (ncol m) v = Ok vals /\
    forall i, mask !! i = Some true -> rows m' !! i = vals !! rank mask i.
Proof.
  unfold mat_mask_assign. case_decide as Hl; [|discriminate]. intros Hm. inv_ok.
  unfold nrow in *. simpl. rewrite length_scatter. repeat split; auto.
  - intros i Hi. by apply scatter_lookup_false.
  - eexists; split; [done|]. intros i Hi.
    apply scatter_lookup_true; auto. by eapply length_broadcast_rows.
Qed.

Lemma concat_rows_3 (a b c v : mat F) :
  concat_rows [a; b; c] = Ok v ->
  ncol v = ncol a /\ rows v = rows a ++ rows b ++ rows c.
Proof.
  simpl. destruct (decide (ncol b = ncol c)); [|discriminate]. simpl.
  destruct (decide (ncol a = ncol b)); [|discriminate]. by intros [= <-].
Qed.

(** Row [i] of the result of a binary ufunc on two 2D arrays with as
    many rows. *)
Lemma mat_binop_row (f : F -> F -> F) (a b c : mat F) (i : nat) (ra rb : list F) :
  mat_binop f a b = Ok c -> nrow a = nrow b ->
  rows a !! i = Some ra -> rows b !! i = Some rb ->
  rows c !! i = Some (zip_with f (stretch (ncol c) ra) (stretch (ncol c) rb)).
Proof.
  unfold mat_binop. intros Hc Hn Ha Hb. rewrite Hn, bdim_refl in Hc.
  cbn [mbind Result_bind] in Hc. inv_ok. cbn [rows ncol].
  rewrite !stretch_id by (unfold nrow in *; congruence).
  by rewrite lookup_zip_with, Ha, Hb.
Qed.

Lemma nrow_mat_map (f : F -> F) (m : mat F) : nrow (mat_map f m) = nrow m.
Proof. unfold nrow, mat_map; simpl. by rewrite length_map. Qed.

Lemma mat_map_row (f : F -> F) (m : mat F) (i : nat) :
  rows (mat_map f m) !! i = map f <$> rows m !! i.
Proof. unfold mat_map; simpl. by rewrite list_lookup_fmap. Qed.

Lemma column_row (v : list F) (i : nat) :
  rows (column v) !! i = (fun x => [x]) <$> v !! i.
Proof. unfold column; simpl. by rewrite list_lookup_fmap. Qed.

Lemma shape_mat_mask_assign (mask : list bool) (m m' : mat F) (v : ndarray F) :
  mat_mask_assign mask m v = Ok m' -> shape (A2 m') = shape (A2 m).
Proof.
  intros Hm. apply mat_mask_assign_spec in Hm as (Hc & Hr & _). simpl. congruence.
Qed.

Lemma shape_nd_mask_assign (mask : list bool) (a a' v : ndarray F) :
  nd_mask_assign mask a v = Ok a' -> shape a' = shape a.
Proof.
  destruct a as [x|u|m]; cbn [nd_mask_assign]; [discriminate| |].
  - case_decide; [|discriminate]. intros Ha. inv_ok. simpl.
    by rewrite length_scatter.
  - intros Ha. inv_ok. by eapply shape_mat_mask_assign.
Qed.

Lemma shape_nd_slice_assign (start : Z) (a a' v : ndarray F) :
  nd_slice_assign start a v = Ok a' -> shape a' = shape a.
Proof.
  destruct a as [x|u|m]; cbn [nd_slice_assign]; [discriminate| |];
    intros Ha; inv_ok; simpl.
  - match goal with Hb : broadcast_vec _ _ = Ok _ |- _ =>
      apply length_broadcast_vec in Hb end.
    pose proof (slice_start_le start u).
    rewrite length_app, length_take. f_equal. lia.
  - match goal with Hb : broadcast_rows _ _ _ = Ok _ |- _ =>
      apply length_broadcast_rows in Hb end.
    pose proof (slice_start_le start (rows m)).
    unfold nrow in *; simpl. rewrite length_app, length_take. f_equal. lia.
Qed.

End ArrayFacts.

(** ** The factories *)

Lemma PS_registry_lookup (n : string) (c : PS.PowerSpectrumBAOFilterClass) :
  PS._registry !! n = Some c <-> PS.name c = n.
Proof.
  unfold PS._registry; simpl. split.
  - intros Hl.
    repeat (apply lookup_insert_Some in Hl as [[<- <-]|[? Hl]]; [done|]).
    by rewrite lookup_empty in Hl.
  - intros <-. destruct c; reflexivity.
Qed.

Lemma CF_registry_lookup (n : string) (c : CF.CorrelationFunctionBAOFilterClass) :
  CF._registry !! n = Some c <-> CF.name c = n.
Proof.
  unfold CF._registry; simpl. split.
  - intros Hl.
    repeat (apply lookup_insert_Some in Hl as [[<- <-]|[? Hl]]; [done|]).
    by rewrite lookup_empty in Hl.
  - intros <-. destruct c; reflexivity.
Qed.

Lemma registry_None {A} (m : gmap string A) (nm : A -> string) (n : string) :
  (forall c, m !! n = Some c <-> nm c = n) -> (forall c, nm c <> n) -> m !! n = None.
Proof.
  intros Hm Hn. destruct (m !! n) as [c|] eqn:Hl; [|done].
  exfalso. apply (Hn c). by apply Hm.
Qed.

Section Factories.
Context {F : Type} `{Float F, External F} `{StrLaws}.

(** C4.  The factories look up [engine.lower()].  Whatever the string
    [engine], if its lowercase form is the name of no registered class,
    either factory raises a [ValueError] whose message carries the name
    as it was looked up (in lowercase), whatever the interpolator and
    the keyword arguments: no constructor runs; and if its lowercase
    form is the name of a registered class, the factory returns what
    the constructor of that class returns.  On a name of ASCII
    characters the lowercase form is the name with [A] to [Z] turned
    into [a] to [z]: the lookup does not depend on the case of the
    letters. *)
Theorem factory_lookup (engine : string) :
  (forall pk kw, (forall c, PS.name c <> lower engine) ->
     PS.PowerSpectrumBAOFilter pk (Some engine) kw =
     Err (ValueError ("Power spectrum BAO filter " +:+ lower engine +:+ " is unknown")))
  /\ (forall xi kw, (forall c, CF.name c <> lower engine) ->
     CF.CorrelationFunctionBAOFilter xi (Some engine) kw =
     Err (ValueError ("Correlation function BAO filter " +:+ lower engine +:+ " is unknown")))
  /\ (forall c pk kw, PS.name c = lower engine ->
     PS.PowerSpectrumBAOFilter pk (Some engine) kw = PS.__init__ c pk kw)
  /\ (forall c xi kw, CF.name c = lower engine ->
     CF.CorrelationFunctionBAOFilter xi (Some engine) kw = CF.__init__ c xi kw)
  /\ (isascii engine = true ->
      (forall pk kw, (forall c, PS.name c <> str_lower_ascii engine) ->
         PS.PowerSpectrumBAOFilter pk (Some engine) kw =
         Err (ValueError ("Power spectrum BAO filter " +:+ str_lower_ascii engine
                          +:+ " is unknown")))
      /\ (forall xi kw, (forall c, CF.name c <> str_lower_ascii engine) ->
         CF.CorrelationFunctionBAOFilter xi (Some engine) kw =
         Err (ValueError ("Correlation function BAO filter " +:+ str_lower_ascii engine
                          +:+ " is unknown")))
      /\ (forall c pk kw, PS.name c = str_lower_ascii engine ->
         PS.PowerSpectrumBAOFilter pk (Some engine) kw = PS.__init__ c pk kw)
      /\ (forall c xi kw, CF.name c = str_lower_ascii engine ->
         CF.CorrelationFunctionBAOFilter xi (Some engine) kw = CF.__init__ c xi kw)).
Proof.
  assert ((forall pk kw, (forall c, PS.name c <> lower engine) ->
     PS.PowerSpectrumBAOFilter pk (Some engine) kw =
     Err (ValueError ("Power spectrum BAO filter " +:+ lower engine +:+ " is unknown")))
  /\ (forall xi kw, (forall c, CF.name c <> lower engine) ->
     CF.CorrelationFunctionBAOFilter xi (Some engine) kw =
     Err (ValueError ("Correlation function BAO filter " +:+ lower engine +:+ " is unknown")))
  /\ (forall c pk kw, PS.name c = lower engine ->
     PS.PowerSpectrumBAOFilter pk (Some engine) kw = PS.__init__ c pk kw)
  /\ (forall c xi kw, CF.name c = lower engine ->
     CF.CorrelationFunctionBAOFilter xi (Some engine) kw = CF.__init__ c xi kw))
    as Hlow.
  { unfold PS.PowerSpectrumBAOFilter, CF.CorrelationFunctionBAOFilter; simpl.
    repeat split.
    - intros pk kw Hn.
      by rewrite (registry_None _ _ _ (PS_registry_lookup (lower engine)) Hn).
    - intros xi kw Hn.
      by rewrite (registry_None _ _ _ (CF_registry_lookup (lower engine)) Hn).
    - intros c pk kw Hn. apply PS_registry_lookup in Hn. by rewrite Hn.
    - intros c xi kw Hn. apply CF_registry_lookup in Hn. by rewrite Hn. }
  destruct Hlow as (Hps & Hcf & Hps' & Hcf').
  do 4 (split; [assumption|]).
  intros Hascii. rewrite <- (lower_isascii _ Hascii). auto.
Qed.

(** The default engines. *)
Lemma factory_default pk xi kw kw' :
  PS.PowerSpectrumBAOFilter pk None kw =
    PS.__init__ PS.Wallish2018PowerSpectrumBAOFilter pk kw /\
  CF.CorrelationFunctionBAOFilter xi None kw' =
    CF.__init__ CF.Kirkby2013CorrelationFunctionBAOFilter xi kw'.
Proof.
  unfold PS.PowerSpectrumBAOFilter, CF.CorrelationFunctionBAOFilter; simpl.
  rewrite !lower_isascii by reflexivity. split; reflexivity.
Qed.

(** ** The property [wiggles] *)

(** C9.  On an instance whose smooth array has the shape of the raw
    one, [wiggles] is the raw array divided by the smooth one entry by
    entry, and reading it leaves the instance as it is. *)
Theorem wiggles_elementwise (st : PS.PSFilter) (a : ndarray F) :
  PS.pknow st = Some a -> shape a = shape (PS.pk st) -> wf a -> wf (PS.pk st) ->
  exists w, PS.wiggles st = (Ok w, st) /\ shape w = shape (PS.pk st) /\
    forall ix, nd_get w ix =
      (x ← nd_get (PS.pk st) ix; y ← nd_get a ix; Some (x / y)%fl).
Proof.
  intros Ha Hs Hwa Hwp. unfold PS.wiggles. rewrite Ha; simpl.
  destruct (nd_binop_same_shape fdiv (PS.pk st) a) as (w & Hw & Hsw & Hg); auto.
  exists w. by rewrite Hw.
Qed.

End Factories.

(** ** The sound-horizon ratio *)

Section RsDragRatio.
Context {F : Type} `{Float F, External F}.

(** Reading the engine of a cosmology does not change it when no engine
    is named. *)
Lemma _get_cosmology_engine_None (c : Cosmology F) (e : BaseEngine F) (c' : Cosmology F) :
  _get_cosmology_engine c None true = Ok (e, c') -> c' = c /\ _engine c = Some e.
Proof.
  unfold _get_cosmology_engine. destruct c as [p [e0|]]; simpl; [|discriminate].
  by intros [= <- <-].
Qed.

Lemma get_thermodynamics_default :
  get_thermodynamics_rs_drag (F:=F) Cosmology_default =
  Err (CosmologyError "Please provide an engine").
Proof. reflexivity. Qed.

(** What [rs_drag_ratio] returns, by the attributes [_cosmo] and
    [_cosmo_fid] at the time of the call. *)
Lemma PS_rs_drag_ratio_unset (st : PS.PSFilter) :
  PS._cosmo st = None -> PS.rs_drag_ratio st = Ok (lit 1).
Proof. unfold PS.rs_drag_ratio. by intros ->. Qed.

Lemma PS_rs_drag_ratio_set (st : PS.PSFilter) (c : Cosmology F) :
  PS._cosmo st = Some c ->
  PS.rs_drag_ratio st =
    (rs_drag_fid ← match PS._cosmo_fid st with
                   | None => Ok (lit 100.91463132327911)
                   | Some f => get_thermodynamics_rs_drag f
                   end;
     rs_drag ← get_thermodynamics_rs_drag c;
     Ok (rs_drag / rs_drag_fid)%fl).
Proof.
  unfold PS.rs_drag_ratio, PS.cosmo, PS.cosmo_fid. intros ->.
  by destruct (PS._cosmo_fid st).
Qed.

Lemma CF_rs_drag_ratio_unset (st : CF.XiFilter) :
  CF._cosmo st = None -> CF.rs_drag_ratio st = Ok (lit 1).
Proof. unfold CF.rs_drag_ratio. by intros ->. Qed.

Lemma CF_rs_drag_ratio_set (st : CF.XiFilter) (c : Cosmology F) :
  CF._cosmo st = Some c ->
  CF.rs_drag_ratio st =
    (rs_drag_fid ← match CF._cosmo_fid st with
                   | None => Ok (lit 100.91463132327911)
                   | Some f => get_thermodynamics_rs_drag f
                   end;
     rs_drag ← get_thermodynamics_rs_drag c;
     Ok (rs_drag / rs_drag_fid)%fl).
Proof.
  unfold CF.rs_drag_ratio, CF.cosmo, CF.cosmo_fid. intros ->.
  by destruct (CF._cosmo_fid st).
Qed.

(** The no-wiggle interpolator is made from [self.cosmo]: an unset
    [_cosmo] is a default cosmology afterwards. *)
Lemma with_cosmo_id (st : PS.PSFilter) : PS.with_cosmo st (PS._cosmo st) = st.
Proof. by destruct st. Qed.

Lemma nowiggle_interpolator_inv (st st' : PS.PSFilter) i :
  PS.nowiggle_interpolator st = Ok (i, st') ->
  st' = PS.with_cosmo st (Some (default Cosmology_default (PS._cosmo st))).
Proof.
  unfold PS.nowiggle_interpolator, PS.cosmo.
  destruct (PS._cosmo st) as [c|] eqn:Hc; intros Hn; inv_ok; simpl.
  - by rewrite <- Hc, with_cosmo_id.
  - done.
Qed.

(** The steps of a construction that succeeds. *)
Lemma init_inv c pk kw st :
  PS.__init__ c pk kw = Ok st ->
  exists settings k m st',
    PS.derived_init c kw = Ok settings /\
    PS.set_k pk (default 1024%Z (PS.kw_nk kw)) = Ok k /\
    PS.sample_pk (pk_isinstance2D pk) pk pk k = Ok m /\
    PS._prepare (PS.sampled c settings pk kw k m) = Ok st' /\
    PS._compute st' = Ok st.
Proof.
  unfold PS.__init__, PS.set_pk. intros Hinit. inv_ok.
  cbn [PS.k] in *. eauto 10.
Qed.

Lemma EHNoWigglePoly_compute_inv krange rescale_krange st st' :
  PS.EHNoWigglePoly_compute krange rescale_krange st = Ok st' ->
  exists a, st' = PS.with_pknow
    (PS.with_cosmo st (Some (default Cosmology_default (PS._cosmo st)))) a.
Proof.
  unfold PS.EHNoWigglePoly_compute. intros Hc. inv_ok.
  match goal with Hn : PS.nowiggle_interpolator _ = Ok _ |- _ =>
    apply nowiggle_interpolator_inv in Hn; subst end.
  eauto.
Qed.

(** C1.  An [EHNoWigglePoly] filter made without a current cosmology
    holds a default cosmology in [_cosmo] once [_compute] has run
    ([self.cosmo] was read for the no-wiggle spectrum).  That cosmology
    has no engine, so that [rs_drag_ratio] called on the instance raises
    instead of returning 1. *)
Theorem rs_drag_ratio_after_EHNoWigglePoly (pk : PowerSpectrumInterpolator F)
    (kw : PS.Kwargs) (st : PS.PSFilter) :
  PS.kw_cosmo kw = None ->
  PS.__init__ PS.EHNoWigglePolyPowerSpectrumBAOFilter pk kw = Ok st ->
  PS._cosmo st = Some Cosmology_default /\
  (exists e, PS.rs_drag_ratio st = Err e) /\
  (PS.kw_cosmo_fid kw = None ->
   PS.rs_drag_ratio st = Err (CosmologyError "Please provide an engine")).
Proof.
  intros Hkw Hinit.
  apply init_inv in Hinit as (settings & k & m & st' & Hd & _ & _ & Hp & Hc).
  unfold PS._prepare in Hp; cbn [PS.cls PS.sampled] in Hp. inv_ok.
  unfold PS._compute in Hc; cbn [PS.cls PS.settings PS.sampled] in Hc.
  destruct settings; try discriminate.
  apply EHNoWigglePoly_compute_inv in Hc as (a & ->).
  cbn [PS._cosmo PS.with_pknow PS.with_cosmo PS.sampled]. rewrite Hkw.
  split; [done|].
  erewrite PS_rs_drag_ratio_set by reflexivity.
  cbn [PS._cosmo_fid PS.with_pknow PS.with_cosmo PS.sampled default].
  rewrite get_thermodynamics_default. split.
  - destruct (PS.kw_cosmo_fid kw) as [f|]; simpl;
      [destruct (get_thermodynamics_rs_drag f)|]; simpl; eauto.
  - by intros ->.
Qed.

End RsDragRatio.

(** ** Kirkby2013 *)

Section Kirkby2013.
Context {F : Type} `{FloatLaws F} `{!External F}.

Lemma model_shape (sm : list F) :
  exists M, CF.model sm = A2 M /\ ncol M = length sm /\ nrow M = 5%nat /\
    forall j x, sm !! j = Some x ->
      mat_col M j = map (fun i => fpowi x (1 - i)) (range 5).
Proof.
  eexists. split; [reflexivity|]. simpl. rewrite length_map.
  repeat split. intros j x Hj. unfold mat_col; simpl.
  by rewrite !list_lookup_fmap, Hj.
Qed.

Lemma gap_mask_lookup (l r : F * F) (s : list F) (i : nat) (x : F) :
  s !! i = Some x ->
  CF.gap_mask l r s !! i = Some ((x >? snd l)%fl && (x <? fst r)%fl).
Proof. intros Hx. unfold CF.gap_mask. by rewrite list_lookup_fmap, Hx. Qed.

(** The windows are the ones given when the sound-horizon ratio is 1. *)
Lemma sranges_1 (l r : F * F) (rescale_sbox : bool) (st : CF.XiFilter) :
  CF.rs_drag_ratio st = Ok (lit 1) ->
  CF.sranges l r rescale_sbox st = Ok (l, r).
Proof.
  intros Hr. unfold CF.sranges. destruct rescale_sbox; [|done].
  rewrite Hr. simpl. rewrite !fmul_1_r. by destruct l, r.
Qed.

(** The samples a boolean index built from a predicate selects are the
    samples that satisfy the predicate. *)
Lemma select_map_filter {A} (f : A -> bool) (l : list A) :
  select (map f l) l = List.filter f l.
Proof. induction l as [|x l IH]; simpl; [done|]. destruct (f x); by rewrite IH. Qed.

Lemma select_map_combine {A B} (f : A -> bool) (l : list A) (l' : list B) :
  select (map f l) l' =
  map snd (List.filter (fun p => f (fst p)) (combine l l')).
Proof.
  revert l'. induction l as [|x l IH]; intros [|y l']; simpl; try done.
  destruct (f x); simpl; by rewrite IH.
Qed.

(** C2.  With the default windows and a sound-horizon ratio of 1, the
    result of [Kirkby2013._compute] is the raw [xi] at every separation
    [s <= 82] or [s >= 150] (and so at [s < 50] and [s > 190]), and at
    every separation [82 < s < 150] the value of the polynomial in the
    basis [s**(1 - i)] with the coefficients of the fit.  The fit is
    over the union of the two windows: the solver is built on the basis
    at the separations [50 <= s <= 82] or [150 <= s <= 190] of the grid,
    with a precision of 1 and without constraint, and it is called on
    the rows of the raw [xi] at these separations and at no other. *)
Theorem Kirkby2013_fill (st : CF.XiFilter) (m P : mat F) (rescale_sbox : bool)
    (lss lss' : LeastSquareSolver) :
  let l := (lit 50, lit 82) in
  let r := (lit 150, lit 190) in
  let window x :=
    (((x >=? lit 50) && (x <=? lit 82)) || ((x >=? lit 150) && (x <=? lit 190)))%fl in
  let s_fit := List.filter window (CF.s st) in
  let xi_fit :=
    map snd (List.filter (fun sx => window (fst sx)) (combine (CF.s st) (rows m))) in
  CF.xi st = A2 m -> nrow m = length (CF.s st) ->
  CF.rs_drag_ratio st = Ok (lit 1) ->
  lss_new (CF.model s_fit) (A0 (lit 1)) None = Ok lss ->
  lss_call lss (A2 (mat_T (Mat (ncol m) xi_fit))) None = Ok (lss', A2 P) ->
  ncol P = 5%nat -> nrow P = ncol m ->
  exists st' m',
    CF.Kirkby2013_compute l r rescale_sbox st = Ok st' /\
    CF.s st' = CF.s st /\ CF.xi st' = A2 m /\ CF.xinow st' = Some (A2 m') /\
    nrow m' = nrow m /\ ncol m' = ncol m /\
    forall i x, CF.s st !! i = Some x ->
      ((x <=? lit 82)%fl = true \/ (x >=? lit 150)%fl = true \/
       (x <? lit 50)%fl = true \/ (x >? lit 190)%fl = true ->
       rows m' !! i = rows m !! i) /\
      ((x >? lit 82)%fl = true -> (x <? lit 150)%fl = true ->
       rows m' !! i = Some (map (fun p => CF.poly p x) (rows P))).
Proof.
  intros l r window s_fit xi_fit Hxi Hn Hr Hnew Hcall HcP HrP.
  set (fit := CF.fit_mask l r (CF.s st)).
  assert (fit = map window (CF.s st)) as Hwin by reflexivity.
  assert (length fit = length (CF.s st)) as Hfit.
  { rewrite Hwin. by rewrite length_map. }
  assert (select fit (CF.s st) = s_fit) as Hsfit.
  { rewrite Hwin. apply select_map_filter. }
  assert (select fit (rows m) = xi_fit) as Hxifit.
  { rewrite Hwin. apply select_map_combine. }
  assert (length (CF.gap_mask l r (CF.s st)) = length (CF.s st)) as Hgap.
  { unfold CF.gap_mask. by rewrite length_map. }
  destruct (model_shape (select (CF.gap_mask l r (CF.s st)) (CF.s st)))
    as (M & HM & HcM & HrM & Hcol).
  unfold CF.Kirkby2013_compute. rewrite sranges_1 by done. step.
  unfold CF.Kirkby2013_params. fold l r fit.
  rewrite (vec_mask_Ok fit) by done. step. rewrite Hsfit, Hnew. step.
  rewrite Hxi. unfold nd_mask. rewrite mat_mask_Ok by congruence. step.
  cbn [nd_T]. rewrite Hxifit, Hcall. step.
  rewrite (vec_mask_Ok (CF.gap_mask l r (CF.s st))) by done. step.
  rewrite HM. unfold nd_dot, mat_dot. rewrite decide_True by congruence. step.
  cbn [nd_T]. set (PM := Mat (ncol M) (map (fun r0 => dot_row r0 M) (rows P))).
  set (gap := CF.gap_mask l r (CF.s st)) in *.
  assert (length (select gap (CF.s st)) = count gap) as Hsel
    by (by apply length_select).
  cbn [nd_mask_assign].
  rewrite mat_mask_assign_exact; [|congruence| | |apply mat_T_wf].
  2: { rewrite nrow_mat_T. unfold PM; simpl. congruence. }
  2: { unfold mat_T, PM, nrow; simpl. rewrite length_map. exact HrP. }
  step. do 2 eexists. split; [reflexivity|]. cbn [CF.with_arrays CF.s CF.xi CF.xinow].
  split; [done|]. split; [done|]. split; [done|].
  unfold nrow at 1. cbn [rows ncol]. rewrite length_scatter.
  split; [done|]. split; [done|].
  intros i x Hx. pose proof (gap_mask_lookup l r _ _ _ Hx) as Hg. fold gap in Hg.
  cbn [fst snd l r] in Hg. split.
  - intros Hout. apply scatter_lookup_false. rewrite Hg. f_equal.
    destruct flt_consts as [H50 H150].
    destruct Hout as [Ho|[Ho|[Ho|Ho]]].
    + by rewrite (fle_not_gt _ _ Ho).
    + rewrite (fle_not_gt _ _ Ho). apply andb_false_r.
    + by rewrite (flt_asym _ _ (flt_trans _ _ _ Ho H50)).
    + rewrite (flt_asym _ _ (flt_trans _ _ _ H150 Ho)). apply andb_false_r.
  - intros H1 H2. rewrite H1, H2 in Hg. simpl in Hg.
    rewrite scatter_lookup_true; [|unfold nrow in *; congruence| |done].
    2: { fold (nrow (mat_T PM)). rewrite nrow_mat_T. unfold PM; simpl. congruence. }
    pose proof (rank_lt_count _ _ Hg) as Hrk.
    pose proof (select_lookup gap (CF.s st) i ltac:(congruence) Hg) as Hsl.
    rewrite Hx in Hsl.
    rewrite mat_T_row by (unfold PM; simpl; lia). f_equal.
    unfold mat_col, PM; simpl. rewrite map_map. apply map_ext. intros p.
    unfold dot_row. rewrite list_lookup_fmap, lookup_seq_lt by lia. simpl.
    unfold CF.poly. by rewrite (Hcol _ _ Hsl).
Qed.

End Kirkby2013.

(** ** What [_prepare] and [_compute] leave alone *)

Section Frames.
Context {F : Type} `{Float F, External F}.

Lemma computed_refl st : computed st st.
Proof. unfold computed. tauto. Qed.

Lemma computed_with_pknow st st' a :
  computed st st' -> computed st (PS.with_pknow st' a).
Proof. unfold computed. destruct st'; simpl. tauto. Qed.

Lemma computed_with_kept st st' w :
  computed st st' -> computed st (PS.with_kept st' w).
Proof. unfold computed. destruct st'; simpl. tauto. Qed.

Lemma nowiggle_interpolator_computed st st' i :
  PS.nowiggle_interpolator st = Ok (i, st') -> computed st st'.
Proof.
  intros Hn. apply nowiggle_interpolator_inv in Hn as ->.
  unfold computed. destruct st as [? ? ? ? ? [c|] ? ? ? ? ?]; simpl; tauto.
Qed.

Lemma computed_trans st1 st2 st3 :
  computed st1 st2 -> computed st2 st3 -> computed st1 st3.
Proof.
  unfold computed. intros (?&?&?&?&?&?&?&?&Hc) (?&?&?&?&?&?&?&?&Hc').
  repeat split; try congruence.
  destruct Hc as [Hc|[Hc1 Hc2]], Hc' as [Hc'|[Hc1' Hc2']]; try (left; congruence);
    try (right; split; congruence).
Qed.

Lemma was_prepared_refl st : was_prepared st st.
Proof. unfold was_prepared. tauto. Qed.

Lemma was_prepared_trans st1 st2 st3 :
  was_prepared st1 st2 -> was_prepared st2 st3 -> was_prepared st1 st3.
Proof. unfold was_prepared. intuition congruence. Qed.

Lemma fid_interpolator_prepared engine set_engine st st' i :
  PS.fid_interpolator engine set_engine st = Ok (i, st') -> was_prepared st st'.
Proof.
  unfold PS.fid_interpolator, PS.cosmo_fid.
  destruct (PS._cosmo_fid st); intros Hf; inv_ok.
  - apply was_prepared_refl.
  - unfold was_prepared. destruct st; simpl; tauto.
Qed.

Lemma except_TypeError_same {A} (r : Result A) : PS.except_TypeError r r = r.
Proof. by destruct r as [a|[]]. Qed.

Lemma fid_ratio_prepared st k_fid ratio model st' :
  PS.fid_ratio st k_fid = Ok (ratio, model, st') -> was_prepared st st'.
Proof.
  unfold PS.fid_ratio. rewrite except_TypeError_same. intros Hf. inv_ok.
  repeat match goal with Hf : PS.fid_interpolator _ _ _ = Ok _ |- _ =>
    apply fid_interpolator_prepared in Hf end.
  eauto using was_prepared_trans.
Qed.

Lemma with_prepared_was_prepared st st' p :
  was_prepared st st' -> was_prepared st (PS.with_prepared st' p).
Proof. unfold was_prepared. destruct st'; simpl. tauto. Qed.

(** What [Brieden2022._prepare] stores: the mask of the window
    [1e-3 <= k <= 1] and the wavenumbers inside. *)
Lemma Brieden2022_prepare_inv st st' :
  PS.Brieden2022_prepare st = Ok st' ->
  was_prepared st st' /\
  let kmask_fid := map (fun x => (x >=? lit 1e-3)%fl && (x <=? lit 1)%fl) (PS.k st) in
  exists pknow_correction ratio_fid ixh ixl ratio_now_fid,
    PS.prepared st' = PS.BriedenPrepared kmask_fid (select kmask_fid (PS.k st))
      pknow_correction ratio_fid [ixh; ixl] ratio_now_fid.
Proof.
  unfold PS.Brieden2022_prepare. intros Hp. inv_ok.
  match goal with Hf : PS.fid_ratio _ _ = Ok _ |- _ =>
    apply fid_ratio_prepared in Hf end.
  match goal with Hv : vec_mask _ _ = Ok _ |- _ =>
    rewrite vec_mask_Ok in Hv by (by rewrite length_map); injection Hv as <- end.
  split; [by apply with_prepared_was_prepared|].
  cbn [PS.prepared PS.with_prepared]. eauto 10.
Qed.

Lemma PeakAverage_prepare_inv st st' :
  PS.PeakAverage_prepare st = Ok st' ->
  was_prepared st st' /\
  exists kh kl, PS.prepared st' = PS.PeakAveragePrepared [kh; kl].
Proof.
  unfold PS.PeakAverage_prepare. intros Hp. inv_ok.
  match goal with Hf : PS.fid_ratio _ _ = Ok _ |- _ =>
    apply fid_ratio_prepared in Hf end.
  split; [by apply with_prepared_was_prepared|].
  cbn [PS.prepared PS.with_prepared]. eauto.
Qed.

Lemma _prepare_was_prepared st st' :
  PS._prepare st = Ok st' -> was_prepared st st'.
Proof.
  unfold PS._prepare. destruct (PS.cls st); intros Hp; inv_ok;
    try apply was_prepared_refl.
  - by apply Brieden2022_prepare_inv in Hp as [? _].
  - by apply PeakAverage_prepare_inv in Hp as [? _].
Qed.

(** [_compute] of any class leaves the other attributes alone. *)
Lemma _compute_computed st st' : PS._compute st = Ok st' -> computed st st'.
Proof.
  unfold PS._compute.
  destruct (PS.cls st), (PS.settings st); try discriminate;
    unfold PS.Hinton2017_compute, PS.SavGol_compute, PS.EHNoWigglePoly_compute,
      PS.Wallish2018_compute, PS.Brieden2022_compute, PS.PeakAverage_compute;
    try (destruct (PS.prepared st) as [|? ? ? ? [|? [|? [|? ?]]] ?|[|? [|? [|? ?]]]];
         try discriminate);
    intros Hc; inv_ok;
    try match goal with Hn : PS.nowiggle_interpolator _ = Ok _ |- _ =>
      apply nowiggle_interpolator_computed in Hn end;
    repeat (apply computed_with_pknow || apply computed_with_kept);
    (assumption || apply computed_refl).
Qed.

End Frames.

(** ** The shape of the smooth array *)

Section Shapes.
Context {F : Type} `{ExternalLaws F}.

(** The raw array is 2D inside [_compute]. *)
Ltac use_pk2d Hpk :=
  match goal with Hp : PS.pk2d _ = Ok _ |- _ =>
    unfold PS.pk2d in Hp; rewrite Hpk in Hp; injection Hp as <- end.

(** Replace the shape of the result of a ufunc by that of its operands. *)
Ltac shape_step :=
  match goal with
  | Hd : nd_binop _ _ _ = Ok ?a |- context [shape ?a] =>
      rewrite (shape_nd_binop _ _ _ _ Hd)
  | |- context [shape (nd_map _ _)] => rewrite shape_nd_map
  end.

Ltac unfold_ops := unfold PS.nd_div, PS.nd_mul, PS.nd_add, PS.nd_sub in *.

Lemma Hinton2017_compute_ok degree sigma weight st st' m :
  PS.pk st = A2 m ->
  PS.Hinton2017_compute degree sigma weight st = Ok st' -> compute_ok st st' m.
Proof.
  intros Hpk Hc. unfold PS.Hinton2017_compute in Hc. inv_ok. use_pk2d Hpk.
  split; [apply computed_with_pknow, computed_refl|].
  eexists; split; [reflexivity|].
  by eapply shape_mat_mask_assign.
Qed.

Lemma EHNoWigglePoly_compute_ok krange rescale_krange st st' m :
  PS.pk st = A2 m ->
  PS.EHNoWigglePoly_compute krange rescale_krange st = Ok st' -> compute_ok st st' m.
Proof.
  intros Hpk Hc. unfold PS.EHNoWigglePoly_compute in Hc. inv_ok. use_pk2d Hpk.
  match goal with Hn : PS.nowiggle_interpolator _ = Ok _ |- _ =>
    apply nowiggle_interpolator_computed in Hn end.
  split; [by apply computed_with_pknow|].
  eexists; split; [reflexivity|].
  unfold_ops. shape_step.
  match goal with Hm : mat_mask_assign _ _ _ = Ok _ |- _ =>
    apply shape_mat_mask_assign in Hm; rewrite Hm end.
  simpl. unfold nrow; simpl. by rewrite length_map, !bmax_diag.
Qed.

Lemma SavGol_compute_ok st st' m :
  PS.pk st = A2 m -> nrow m = length (PS.k st) ->
  PS.SavGol_compute st = Ok st' -> compute_ok st st' m.
Proof.
  intros Hpk Hn Hc. unfold PS.SavGol_compute in Hc. inv_ok. use_pk2d Hpk.
  split; [apply computed_with_pknow, computed_refl|].
  eexists; split; [reflexivity|].
  match goal with Hs : nd_slice_assign _ _ _ = Ok _ |- _ =>
    apply shape_nd_slice_assign in Hs; rewrite Hs end.
  apply shape_nd_T_2d. unfold_ops. shape_step. shape_step.
  match goal with Hs : savgol_filter _ _ _ = Ok _ |- _ =>
    apply savgol_filter_shape in Hs; rewrite Hs end.
  shape_step. shape_step. cbn [shape bshape].
  rewrite nrow_mat_T. cbn [ncol mat_T]. by rewrite Hn, !bmax_diag.
Qed.

Lemma Wallish2018_compute_ok st st' m :
  PS.pk st = A2 m -> nrow m = length (PS.k st) ->
  PS.Wallish2018_compute st = Ok st' -> compute_ok st st' m.
Proof.
  intros Hpk Hn Hc. unfold PS.Wallish2018_compute in Hc. inv_ok. use_pk2d Hpk.
  split; [apply computed_with_pknow, computed_with_kept, computed_refl|].
  eexists; split; [reflexivity|].
  unfold_ops. repeat shape_step.
  match goal with
  | Hs : CubicSpline _ (A2 ?v) = Ok ?sp, Hv : spline_call ?sp _ _ = Ok _ |- _ =>
      rewrite (spline_call_shape _ _ _ _ _ _ Hs Hv)
  end.
  match goal with Hv : concat_rows _ = Ok _ |- _ =>
    apply concat_rows_ncol in Hv; rewrite Hv end.
  match goal with Hv : mat_mask _ m = Ok ?x |- context [ncol ?x] =>
    unfold mat_mask in Hv; case_decide; [|discriminate]; injection Hv as <- end.
  cbn [shape bshape ncol column]. rewrite nrow_column.
  unfold PS._tophat. rewrite length_map. unfold nrow in *.
  by rewrite Hn, !bmax_diag, !bmax_1_r, !bmax_diag.
Qed.

Lemma Brieden2022_compute_ok st st' m :
  PS.pk st = A2 m ->
  PS.Brieden2022_compute st = Ok st' -> compute_ok st st' m.
Proof.
  intros Hpk Hc. unfold PS.Brieden2022_compute in Hc.
  destruct (PS.prepared st) as [|? ? ? ? [|ixh [|ixl [|? ?]]] ?|?]; try discriminate.
  inv_ok. use_pk2d Hpk.
  match goal with Hn : PS.nowiggle_interpolator _ = Ok _ |- _ =>
    apply nowiggle_interpolator_computed in Hn end.
  split; [by apply computed_with_pknow|].
  eexists; split; [reflexivity|].
  by eapply shape_mat_mask_assign.
Qed.

Lemma PeakAverage_interp_shape xh xl x y out r c :
  shape y = [r; c] ->
  PS.PeakAverage_interp xh xl x y = Ok out -> shape out = [length x; c].
Proof.
  intros Hy Hi. unfold PS.PeakAverage_interp in Hi. inv_ok.
  unfold_ops. repeat shape_step.
  repeat match goal with
  | Hs : interp1d _ _ _ = Ok ?f, Hv : interp1d_call ?f _ = Ok ?o
    |- context [shape ?o] =>
      rewrite (interp1d_call_shape _ _ _ _ _ _ Hs Hv)
  end.
  rewrite Hy. cbn [shape bshape tail]. by rewrite !bmax_diag.
Qed.

Lemma PeakAverage_compute_ok st st' m :
  PS.pk st = A2 m -> nrow m = length (PS.k st) ->
  PS.PeakAverage_compute st = Ok st' -> compute_ok st st' m.
Proof.
  intros Hpk Hn Hc. unfold PS.PeakAverage_compute in Hc.
  destruct (PS.prepared st) as [|? ? ? ? ? ?|[|kh [|kl [|? ?]]]]; try discriminate.
  inv_ok. use_pk2d Hpk.
  match goal with Hn : PS.nowiggle_interpolator _ = Ok _ |- _ =>
    pose proof (nowiggle_interpolator_computed _ _ _ Hn) as Hcomp;
    pose proof Hcomp as (_&_&_&_&Hk&_) end.
  split; [by apply computed_with_pknow|].
  eexists; split; [reflexivity|].
  unfold_ops. shape_step.
  match goal with Hi : PS.PeakAverage_interp _ _ _ ?y = Ok _,
                  Hy : nd_binop _ _ _ = Ok ?y |- _ =>
    apply shape_nd_binop in Hy; cbn [shape bshape ncol column] in Hy;
    rewrite (PeakAverage_interp_shape _ _ _ _ _ _ _ Hy Hi)
  end.
  cbn [shape bshape ncol column]. rewrite nrow_column.
  unfold pk_call_z0. rewrite !length_map, Hk, Hn, !bmax_diag, !bmax_1_r.
  done.
Qed.

(** [_compute] of any class. *)
Lemma _compute_ok st st' m :
  PS.pk st = A2 m -> nrow m = length (PS.k st) ->
  PS._compute st = Ok st' -> compute_ok st st' m.
Proof.
  intros Hpk Hn. unfold PS._compute.
  destruct (PS.cls st), (PS.settings st); try discriminate;
    eauto using Hinton2017_compute_ok, SavGol_compute_ok, EHNoWigglePoly_compute_ok,
      Wallish2018_compute_ok, Brieden2022_compute_ok, PeakAverage_compute_ok.
Qed.

Lemma sample_pk_shape (is2d : bool) (i i' : PowerSpectrumInterpolator F)
    (k : list F) (m : mat F) :
  PS.sample_pk is2d i i' k = Ok m ->
  nrow m = length k /\ (is2d = false -> ncol m = 1%nat).
Proof.
  unfold PS.sample_pk. destruct is2d; intros Hs; inv_ok.
  - destruct i; [discriminate|]. inv_ok. unfold nrow, pk_call2; simpl.
    by rewrite length_map.
  - destruct i; [|discriminate]. inv_ok. rewrite nrow_column.
    unfold pk_call1. by rewrite length_map.
Qed.

Lemma set_pk_inv st pk cosmo st' :
  PS.set_pk st pk cosmo = Ok st' ->
  PS.k st' = PS.k st /\ PS.is2d st' = pk_isinstance2D pk /\
  PS.cls st' = PS.cls st /\ PS.prepared st' = PS.prepared st /\
  PS.pk_interpolator st' = pk /\ PS._cosmo st' = cosmo /\
  exists m, PS.pk st' = A2 m /\
    PS.sample_pk (pk_isinstance2D pk) pk pk (PS.k st) = Ok m.
Proof. unfold PS.set_pk. intros Hs. inv_ok. simpl. eauto 10. Qed.

(** The outcome of a construction: the grid of [set_k], and a smooth
    array of the shape of the raw one, which has a row per wavenumber. *)
Lemma init_ok c pk kw st :
  PS.__init__ c pk kw = Ok st ->
  PS.set_k pk (default 1024%Z (PS.kw_nk kw)) = Ok (PS.k st) /\
  PS.is2d st = pk_isinstance2D pk /\
  exists m a, PS.pk st = A2 m /\ nrow m = length (PS.k st) /\
    (PS.is2d st = false -> ncol m = 1%nat) /\
    PS.pknow st = Some a /\ shape a = [nrow m; ncol m].
Proof.
  intros Hinit.
  apply init_inv in Hinit as (settings & k & m & st' & _ & Hk & Hs & Hp & Hc).
  apply _prepare_was_prepared in Hp as (_ & _ & _ & _ & Hk' & H2d & Hpk & _).
  cbn [PS.sampled PS.k PS.is2d PS.pk] in *.
  apply sample_pk_shape in Hs as [Hn Hone].
  apply (_compute_ok _ _ m) in Hc as [Hcomp (a & Ha & Hsa)]; [|done|congruence].
  destruct Hcomp as (_ & _ & _ & _ & Hk2 & H2d' & Hpk' & _).
  rewrite Hk2, Hk', H2d', H2d. split; [done|]. split; [done|].
  exists m, a. rewrite Hpk', Hpk. auto.
Qed.

Lemma init_cls c pk kw st : PS.__init__ c pk kw = Ok st -> PS.cls st = c.
Proof.
  intros Hinit.
  apply init_inv in Hinit as (settings & k & m & st' & _ & _ & _ & Hp & Hc).
  apply _prepare_was_prepared in Hp as (Hc1 & _).
  apply _compute_computed in Hc as (Hc2 & _).
  by rewrite Hc2, Hc1.
Qed.

(** The outcome of a re-invocation. *)
Lemma call_ok st pk cosmo st' :
  PS.__call__ st pk cosmo = Ok st' ->
  PS.k st' = PS.k st /\ PS.is2d st' = pk_isinstance2D pk /\
  exists a, PS.pknow st' = Some a /\ shape a = shape (PS.pk st') /\
    (PS.is2d st' = false -> shape a = [length (PS.k st)]).
Proof.
  unfold PS.__call__. intros Hcall. inv_ok.
  match goal with Hx : PS.set_pk _ _ _ = Ok _ |- _ =>
    apply set_pk_inv in Hx as (Hk & H2d & _ & _ & _ & _ & m & Hpk & Hsam) end.
  apply sample_pk_shape in Hsam as [Hn Hone].
  match goal with Hx : PS._compute _ = Ok _ |- _ =>
    apply (_compute_ok _ _ m) in Hx as [Hcomp (pn & Hpn & Hspn)];
      [|done|congruence] end.
  destruct Hcomp as (_ & _ & _ & _ & Hk2 & H2d' & Hpk' & _).
  rewrite H2d', H2d in Hcall. destruct (pk_isinstance2D pk) eqn:Hd; simpl in Hcall.
  - inv_ok. rewrite Hk2, Hk, H2d', H2d, Hpn, Hpk', Hpk. repeat split; try done.
    exists pn. by rewrite Hspn.
  - inv_ok. cbn [PS.with_arrays PS.k PS.is2d PS.pknow PS.pk].
    rewrite Hk2, Hk, H2d', H2d. repeat split; try done.
    match goal with Hp : PS.pknow _ = Some ?b |- _ =>
      rewrite Hpn in Hp; injection Hp as <- end.
    eexists; split; [reflexivity|].
    match goal with Hl : nd_last pn 0 = Ok _ |- _ =>
      rewrite (shape_nd_last _ _ _ _ _ Hl Hspn) end.
    match goal with Hl : nd_last (PS.pk _) 0 = Ok _ |- _ =>
      rewrite Hpk', Hpk in Hl;
      rewrite (shape_nd_last _ _ _ (nrow m) (ncol m) Hl eq_refl) end.
    by rewrite Hn.
Qed.

(** The same for the correlation function. *)
Lemma set_xi_shape (st : CF.XiFilter) xi cosmo :
  exists m, CF.xi (CF.set_xi st xi cosmo) = A2 m /\ nrow m = length (CF.s st) /\
    (xi_isinstance2D xi = false -> ncol m = 1%nat).
Proof.
  unfold CF.set_xi. destruct xi as [i|i]; simpl; eexists; (split; [reflexivity|]).
  - rewrite nrow_column. unfold xi_call1. by rewrite length_map.
  - unfold nrow, xi_call2; simpl. by rewrite length_map.
Qed.

Lemma CF_compute_ok (st st' : CF.XiFilter) :
  CF._compute st = Ok st' ->
  CF.s st' = CF.s st /\ CF.is2d st' = CF.is2d st /\ CF.xi st' = CF.xi st /\
  exists a, CF.xinow st' = Some a /\ shape a = shape (CF.xi st).
Proof.
  unfold CF._compute. destruct (CF.cls st), (CF.settings st); try discriminate.
  unfold CF.Kirkby2013_compute. intros Hc. inv_ok.
  cbn [CF.with_arrays CF.s CF.is2d CF.xi CF.xinow]. repeat split; try done.
  eexists; split; [reflexivity|]. by eapply shape_nd_mask_assign.
Qed.

Lemma CF_init_ok c xi kw st :
  CF.__init__ c xi kw = Ok st ->
  CF.set_s xi (default 1024%Z (CF.kw_ns kw)) = Ok (CF.s st) /\
  CF.is2d st = xi_isinstance2D xi /\
  exists m a, CF.xi st = A2 m /\ nrow m = length (CF.s st) /\
    (CF.is2d st = false -> ncol m = 1%nat) /\
    CF.xinow st = Some a /\ shape a = [nrow m; ncol m].
Proof.
  unfold CF.__init__. intros Hinit. inv_ok.
  match goal with Hx : CF._compute (CF.set_xi ?st0 _ _) = Ok _ |- _ =>
    apply CF_compute_ok in Hx as (Hs & H2d & Hxi & pn & Hpn & Hspn);
    destruct (set_xi_shape st0 xi (CF.kw_cosmo kw)) as (m & Hm & Hn & Hone) end.
  cbn [CF.set_xi CF.s CF.is2d] in *. rewrite Hs, H2d. split; [done|]. split; [done|].
  exists m, pn. rewrite Hxi, Hm in *. auto.
Qed.

Lemma CF_call_ok st xi cosmo st' :
  CF.__call__ st xi cosmo = Ok st' ->
  CF.s st' = CF.s st /\ CF.is2d st' = xi_isinstance2D xi /\
  exists a, CF.xinow st' = Some a /\ shape a = shape (CF.xi st') /\
    (CF.is2d st' = false -> shape a = [length (CF.s st)]).
Proof.
  unfold CF.__call__. intros Hcall. inv_ok.
  match goal with Hx : CF._compute _ = Ok _ |- _ =>
    apply CF_compute_ok in Hx as (Hs & H2d & Hxi & pn & Hpn & Hspn) end.
  destruct (set_xi_shape st xi cosmo) as (m & Hm & Hn & Hone).
  rewrite Hm in *. cbn [CF.set_xi CF.s CF.is2d] in *.
  rewrite H2d in Hcall. destruct (xi_isinstance2D xi) eqn:Hd; simpl in Hcall.
  - inv_ok. rewrite Hs, H2d, Hpn, Hxi. repeat split; try done.
    exists pn. by rewrite Hspn.
  - inv_ok. cbn [CF.with_arrays CF.s CF.is2d CF.xinow CF.xi].
    rewrite Hs, H2d. repeat split; try done.
    match goal with Hp : CF.xinow _ = Some ?b |- _ =>
      rewrite Hpn in Hp; injection Hp as <- end.
    eexists; split; [reflexivity|].
    match goal with Hl : nd_last pn 0 = Ok _ |- _ =>
      rewrite (shape_nd_last _ _ _ _ _ Hl Hspn) end.
    match goal with Hl : nd_last (CF.xi _) 0 = Ok _ |- _ =>
      rewrite Hxi in Hl;
      rewrite (shape_nd_last _ _ _ (nrow m) (ncol m) Hl eq_refl) end.
    by rewrite Hn.
Qed.

(** C8.  For every class and every interpolator, the smooth array has
    the shape of the raw array after a construction and after a
    re-invocation; the grid is the one [set_k] (or [set_s]) made at
    construction and a re-invocation leaves it as it is. *)
Theorem shape_and_grid_kept :
  (forall c pk kw st, PS.__init__ c pk kw = Ok st ->
     PS.set_k pk (default 1024%Z (PS.kw_nk kw)) = Ok (PS.k st) /\
     exists a, PS.pknow st = Some a /\ shape a = shape (PS.pk st)) /\
  (forall st pk cosmo st', PS.__call__ st pk cosmo = Ok st' ->
     PS.k st' = PS.k st /\
     exists a, PS.pknow st' = Some a /\ shape a = shape (PS.pk st')) /\
  (forall c xi kw st, CF.__init__ c xi kw = Ok st ->
     CF.set_s xi (default 1024%Z (CF.kw_ns kw)) = Ok (CF.s st) /\
     exists a, CF.xinow st = Some a /\ shape a = shape (CF.xi st)) /\
  (forall st xi cosmo st', CF.__call__ st xi cosmo = Ok st' ->
     CF.s st' = CF.s st /\
     exists a, CF.xinow st' = Some a /\ shape a = shape (CF.xi st')).
Proof.
  split; [|split; [|split]].
  - intros c pk kw st Hinit.
    apply init_ok in Hinit as (Hk & _ & m & a & Hpk & _ & _ & Ha & Hs).
    split; [done|]. exists a. by rewrite Hpk.
  - intros st pk cosmo st' Hcall.
    apply call_ok in Hcall as (Hk & _ & a & Ha & Hs & _). eauto.
  - intros c xi kw st Hinit.
    apply CF_init_ok in Hinit as (Hk & _ & m & a & Hpk & _ & _ & Ha & Hs).
    split; [done|]. exists a. by rewrite Hpk.
  - intros st xi cosmo st' Hcall.
    apply CF_call_ok in Hcall as (Hk & _ & a & Ha & Hs & _). eauto.
Qed.

(** C10.  With a 1D interpolator, the raw and the smooth arrays are
    columns of shape (n, 1) after a construction and flat arrays of
    shape (n,) after a re-invocation, n being the size of the grid; so
    is [wiggles] in the two cases. *)
Theorem shape_1d_init_and_call :
  (forall c i kw st, PS.__init__ c (PK1D i) kw = Ok st ->
     exists a w, PS.pknow st = Some a /\ PS.wiggles st = (Ok w, st) /\
       shape (PS.pk st) = [length (PS.k st); 1%nat] /\
       shape a = [length (PS.k st); 1%nat] /\
       shape w = [length (PS.k st); 1%nat]) /\
  (forall st i cosmo st', PS.__call__ st (PK1D i) cosmo = Ok st' ->
     exists a w, PS.pknow st' = Some a /\ PS.wiggles st' = (Ok w, st') /\
       shape (PS.pk st') = [length (PS.k st')] /\
       shape a = [length (PS.k st')] /\ shape w = [length (PS.k st')]) /\
  (forall c i kw st, CF.__init__ c (XI1D i) kw = Ok st ->
     exists a, CF.xinow st = Some a /\
       shape (CF.xi st) = [length (CF.s st); 1%nat] /\
       shape a = [length (CF.s st); 1%nat]) /\
  (forall st i cosmo st', CF.__call__ st (XI1D i) cosmo = Ok st' ->
     exists a, CF.xinow st' = Some a /\
       shape (CF.xi st') = [length (CF.s st')] /\
       shape a = [length (CF.s st')]).
Proof.
  split; [|split; [|split]].
  - intros c i kw st Hinit.
    apply init_ok in Hinit as (_ & H2d & m & a & Hpk & Hn & Hone & Ha & Hs).
    rewrite (Hone H2d), Hn in Hs.
    destruct (nd_binop_same_shape_ok fdiv (PS.pk st) a) as (w & Hw & Hsw).
    { rewrite Hs, Hpk. simpl. by rewrite Hn, (Hone H2d). }
    exists a, w. unfold PS.wiggles. rewrite Ha. simpl. rewrite Hw.
    rewrite Hsw, Hpk. simpl. by rewrite Hn, (Hone H2d).
  - intros st i cosmo st' Hcall.
    apply call_ok in Hcall as (Hk & H2d & a & Ha & Hs & Hflat).
    specialize (Hflat H2d). rewrite <- Hk in Hflat.
    destruct (nd_binop_same_shape_ok fdiv (PS.pk st') a) as (w & Hw & Hsw);
      [done|].
    exists a, w. unfold PS.wiggles. rewrite Ha. simpl. rewrite Hw.
    rewrite Hsw, <- Hs. auto.
  - intros c i kw st Hinit.
    apply CF_init_ok in Hinit as (_ & H2d & m & a & Hpk & Hn & Hone & Ha & Hs).
    rewrite (Hone H2d), Hn in Hs. exists a. rewrite Hpk. simpl.
    by rewrite Hn, (Hone H2d).
  - intros st i cosmo st' Hcall.
    apply CF_call_ok in Hcall as (Hk & H2d & a & Ha & Hs & Hflat).
    specialize (Hflat H2d). rewrite <- Hk in Hflat.
    exists a. rewrite <- Hs. auto.
Qed.

End Shapes.

(** ** SavGol *)

Section SavGol.
Context {F : Type} `{ExternalLaws F}.





End SavGol.

(** ** The grid *)

Section Grid.
Context {F : Type} `{Float F, External F}.

Lemma length_range (n : Z) : length (range n) = Z.to_nat n.
Proof. unfold range. by rewrite length_map, length_seq. Qed.

Lemma linspace_Ok (start stop : F) (num : Z) :
  0 <= num -> exists l, linspace start stop num = Ok l /\ length l = Z.to_nat num.
Proof.
  intros Hn. unfold linspace. rewrite decide_False by lia.
  eexists; split; [reflexivity|].
  case_decide; rewrite ?length_insert, length_map, length_range; done.
Qed.

Lemma linspace_Err (start stop : F) (num : Z) (e : exn) :
  linspace start stop num = Err e -> num < 0.
Proof. unfold linspace. by case_decide. Qed.

Lemma geomspace_Ok (start stop : F) (num : Z) :
  0 <= num -> feqb start (lit 0) = false -> feqb stop (lit 0) = false ->
  exists k, geomspace start stop num = Ok k /\ length k = Z.to_nat num.
Proof.
  intros Hn Hstart Hstop. unfold geomspace. rewrite Hstart, Hstop. simpl.
  match goal with |- context [linspace ?a ?b num] =>
    destruct (linspace_Ok a b num Hn) as (l & -> & Hl) end.
  step. eexists; split; [reflexivity|].
  rewrite length_map.
  repeat case_decide; rewrite ?length_insert, length_map; done.
Qed.

Lemma geomspace_Err (start stop : F) (num : Z) (e : exn) :
  geomspace start stop num = Err e ->
  num < 0 \/ feqb start (lit 0) = true \/ feqb stop (lit 0) = true.
Proof.
  unfold geomspace. destruct (feqb start (lit 0)); [auto|].
  destruct (feqb stop (lit 0)); [auto|]. simpl.
  match goal with |- context [linspace ?a ?b num] =>
    destruct (linspace a b num) as [l|e'] eqn:Hl end; [discriminate|].
  apply linspace_Err in Hl. auto.
Qed.

(** C3, as the code has it.  [set_k] makes no check of the range: for
    two nonzero bounds, in any order and equal ones as well, it returns
    a grid of [nk] wavenumbers; it raises only where [np.geomspace]
    does, for a bound that is zero or a negative [nk]. *)
Theorem set_k_no_range_check (pk : PowerSpectrumInterpolator F) (nk : Z) :
  (0 <= nk -> feqb (extrap_kmin pk) (lit 0) = false ->
   feqb (extrap_kmax pk) (lit 0) = false ->
   exists k, PS.set_k pk nk = Ok k /\ length k = Z.to_nat nk) /\
  (forall e, PS.set_k pk nk = Err e ->
   nk < 0 \/ feqb (extrap_kmin pk) (lit 0) = true \/
   feqb (extrap_kmax pk) (lit 0) = true).
Proof.
  unfold PS.set_k. split.
  - apply geomspace_Ok.
  - intros e. apply geomspace_Err.
Qed.

End Grid.

(** ** Brieden2022 *)

Section Brieden2022.
Context {F : Type} `{FloatLaws F} `{!External F}.

Lemma window_outside (k : list F) (i : nat) (x : F) :
  k !! i = Some x -> (x <? lit 1e-3)%fl = true \/ (x >? lit 1)%fl = true ->
  window k !! i = Some false.
Proof.
  intros Hx Hout. unfold window. rewrite list_lookup_fmap, Hx. simpl. f_equal.
  destruct Hout as [Ho|Ho]; rewrite (flt_not_ge _ _ Ho); [done|].
  apply andb_false_r.
Qed.

Lemma window_inside (k : list F) (i : nat) (x : F) :
  k !! i = Some x -> (x >=? lit 1e-3)%fl = true -> (x <=? lit 1)%fl = true ->
  window k !! i = Some true.
Proof.
  intros Hx H1 H2. unfold window. rewrite list_lookup_fmap, Hx. simpl.
  by rewrite H1, H2.
Qed.

(** The rows of the samples of an interpolator. *)
Lemma sample_pk_rows (is2d : bool) (interp self : PowerSpectrumInterpolator F)
    (k : list F) (v : mat F) :
  PS.sample_pk is2d interp self k = Ok v ->
  mat_wf v /\ nrow v = length k /\
  forall j x, k !! j = Some x ->
    exists r, rows v !! j = Some r /\
      (rows <$> PS.sample_pk is2d interp self [x]) = Ok [r].
Proof.
  unfold PS.sample_pk. destruct is2d.
  - destruct (PS.z_of self) as [z|]; [|discriminate]. simpl.
    destruct interp as [i|i]; [discriminate|]. intros [= <-].
    unfold pk_call2, mat_wf, nrow; simpl. rewrite length_map. repeat split.
    + apply Forall_lookup. intros j r Hr. rewrite list_lookup_fmap in Hr.
      apply fmap_Some in Hr as (x & _ & ->). by rewrite length_map.
    + intros j x Hx. rewrite list_lookup_fmap, Hx. simpl. eauto.
  - destruct interp as [i|i]; [|discriminate]. intros [= <-].
    unfold column, pk_call1, mat_wf, nrow; simpl. rewrite !length_map.
    repeat split.
    + apply Forall_lookup. intros j r Hr. rewrite !list_lookup_fmap in Hr.
      destruct (k !! j); simpl in Hr; [|discriminate]. by injection Hr as <-.
    + intros j x Hx. rewrite !list_lookup_fmap, Hx. simpl. eauto.
Qed.

Lemma sample_pk_ncol (is2d : bool) (i1 i2 self : PowerSpectrumInterpolator F)
    (k1 k2 : list F) (v1 v2 : mat F) :
  PS.sample_pk is2d i1 self k1 = Ok v1 -> PS.sample_pk is2d i2 self k2 = Ok v2 ->
  ncol v1 = ncol v2.
Proof.
  unfold PS.sample_pk. destruct is2d.
  - destruct (PS.z_of self) as [z|]; [|discriminate]. simpl.
    destruct i1, i2; try discriminate. by intros [= <-] [= <-].
  - destruct i1, i2; try discriminate. by intros [= <-] [= <-].
Qed.

(** One run of [_compute] on an instance that has been prepared. *)
Lemma Brieden2022_compute_window st st' m pc rf ixh ixl rnf :
  PS.prepared st = PS.BriedenPrepared (window (PS.k st))
    (select (window (PS.k st)) (PS.k st)) pc rf [ixh; ixl] rnf ->
  PS.pk st = A2 m ->
  PS.sample_pk (PS.is2d st) (PS.pk_interpolator st) (PS.pk_interpolator st) (PS.k st)
    = Ok m ->
  PS.Brieden2022_compute st = Ok st' ->
  computed st st' /\
  exists m' interp kk vals,
    PS.pknow st' = Some (A2 m') /\
    pk_clone (PS.pk_interpolator st) kk vals = Ok interp /\
    forall i x, PS.k st !! i = Some x ->
      ((x <? lit 1e-3)%fl = true \/ (x >? lit 1)%fl = true ->
       rows m' !! i = rows m !! i) /\
      ((x >=? lit 1e-3)%fl = true -> (x <=? lit 1)%fl = true ->
       rows m' !! i = PS.smooth_row st interp x).
Proof.
  intros Hprep Hpk Hsam Hc. unfold PS.Brieden2022_compute in Hc.
  rewrite Hprep in Hc. inv_ok.
  match goal with Hp : PS.pk2d _ = Ok _ |- _ =>
    unfold PS.pk2d in Hp; rewrite Hpk in Hp; injection Hp as <- end.
  match goal with Hn : PS.nowiggle_interpolator _ = Ok (_, ?s) |- _ =>
    apply nowiggle_interpolator_computed in Hn;
    pose proof Hn as (_ & _ & _ & Hint & _ & H2d & _); rename s into st1 end.
  rewrite Hint, H2d in *.
  split; [by apply computed_with_pknow|].
  match goal with Hv : PS.sample_pk _ ?i _ (select _ _) = Ok ?v,
                  Hm : mat_mask_assign _ m (A2 ?v) = Ok ?m',
                  Hcl : pk_clone _ _ _ = Ok ?i |- _ =>
    exists m', i; do 2 eexists; split; [reflexivity|]; split; [exact Hcl|];
    pose proof (sample_pk_rows _ _ _ _ _ Hv) as (Hwf & Hnv & Hrows);
    pose proof (sample_pk_ncol _ _ _ _ _ _ _ _ Hv Hsam) as Hcv;
    pose proof (sample_pk_rows _ _ _ _ _ Hsam) as (_ & Hnm & _);
    rename Hm into Hassign
  end.
  assert (length (window (PS.k st)) = length (PS.k st)) as Hlen
    by (unfold window; by rewrite length_map).
  rewrite mat_mask_assign_exact in Hassign;
    [|congruence|by rewrite Hnv, length_select|done|done].
  injection Hassign as <-. cbn [rows].
  intros i x Hx. split.
  - intros Hout. apply scatter_lookup_false. by eapply window_outside.
  - intros H1 H2. pose proof (window_inside _ _ _ Hx H1 H2) as Hin.
    rewrite scatter_lookup_true;
      [|unfold nrow in *; congruence
       |unfold nrow in Hnv; by rewrite Hnv, length_select|done].
    pose proof (select_lookup _ (PS.k st) i Hlen Hin) as Hsl. rewrite Hx in Hsl.
    destruct (Hrows _ _ Hsl) as (r & -> & Hr).
    unfold PS.smooth_row.
    destruct (PS.sample_pk (PS.is2d st) _ (PS.pk_interpolator st) [x]) as [v'|];
      [|discriminate]. simpl in Hr. injection Hr as ->. done.
Qed.

Lemma smooth_row_computed st st' interp x :
  computed st st' -> PS.smooth_row st' interp x = PS.smooth_row st interp x.
Proof.
  intros (_ & _ & _ & Hi & _ & H2d & _). unfold PS.smooth_row.
  by rewrite Hi, H2d.
Qed.

Lemma Brieden2022_after_compute st st' m :
  PS.cls st = PS.Brieden2022PowerSpectrumBAOFilter ->
  Brieden2022_prepared st -> PS.pk st = A2 m ->
  PS.sample_pk (PS.is2d st) (PS.pk_interpolator st) (PS.pk_interpolator st) (PS.k st)
    = Ok m ->
  PS._compute st = Ok st' ->
  computed st st' /\ Brieden2022_prepared st' /\ Brieden2022_frame st' /\
  exists m', PS.pknow st' = Some (A2 m').
Proof.
  intros Hcls (pc & rf & ixh & ixl & rnf & Hprep) Hpk Hsam Hc.
  unfold PS._compute in Hc. rewrite Hcls in Hc.
  assert (PS.Brieden2022_compute st = Ok st') as Hc' by (by destruct (PS.settings st)).
  destruct (Brieden2022_compute_window _ _ _ _ _ _ _ _ Hprep Hpk Hsam Hc')
    as (Hcomp & m' & interp & kk & vals & Hpn & Hcl & Hrows).
  pose proof Hcomp as (_ & _ & _ & Hi & Hk & H2d & Hpk' & Hprep' & _).
  split; [done|]. split; [|split; [|eauto]].
  - unfold Brieden2022_prepared. rewrite Hprep', Hk. eauto 10.
  - exists (A2 m'), interp, kk, vals. rewrite Hi, Hk, Hpk', Hpk.
    split; [done|]. split; [done|]. intros i x Hx.
    rewrite (smooth_row_computed _ _ _ _ Hcomp). cbn [nd_row]. by apply Hrows.
Qed.

Lemma nd_row_flat (m : mat F) (i : nat) :
  nd_row (A1 (mat_col m 0)) i =
  (r ← rows m !! i; Some [default (lit 0) (r !! 0%nat)]).
Proof.
  unfold nd_row, mat_col. rewrite list_lookup_fmap. by destruct (rows m !! i).
Qed.

Lemma smooth_row_1d st interp x :
  PS.is2d st = false ->
  PS.smooth_row st interp x =
  match interp with PK1D j => Some [pk_eval1 j x] | PK2D _ => None end.
Proof. unfold PS.smooth_row, PS.sample_pk. intros ->. by destruct interp. Qed.

Lemma Brieden2022_invariant (st : PS.PSFilter) :
  PS.reachable st -> PS.cls st = PS.Brieden2022PowerSpectrumBAOFilter ->
  Brieden2022_prepared st /\ Brieden2022_frame st.
Proof.
  induction 1 as [c pk kw st Hinit|st pk cosmo st' Hreach IH Hcall]; intros Hcls.
  - apply init_inv in Hinit as (settings & k & m & st1 & _ & _ & Hsam & Hp & Hc).
    pose proof (_prepare_was_prepared _ _ Hp) as (Hc1 & _ & _ & Hi & Hk & H2d & Hpk & _).
    assert (PS.cls st1 = PS.Brieden2022PowerSpectrumBAOFilter) as Hcls1.
    { apply _compute_computed in Hc as (Hc2 & _). congruence. }
    cbn [PS.sampled PS.cls PS.pk_interpolator PS.k PS.is2d PS.pk] in *.
    assert (Brieden2022_prepared st1) as Hprep.
    { unfold PS._prepare in Hp. rewrite <- Hc1, Hcls1 in Hp. cbn [PS.sampled PS.cls] in Hp.
      apply Brieden2022_prepare_inv in Hp as (_ & Hp). cbn [PS.sampled PS.k] in Hp.
      unfold Brieden2022_prepared, window. rewrite Hk. exact Hp. }
    apply (Brieden2022_after_compute _ _ m) in Hc as (_ & ? & ? & _); try done.
    by rewrite H2d, Hi, Hk.
  - unfold PS.__call__ in Hcall. inv_ok.
    match goal with Hx : PS.set_pk _ _ _ = Ok ?s1, Hy : PS._compute ?s1 = Ok ?s2 |- _ =>
      rename s1 into st1; rename s2 into st2;
      apply set_pk_inv in Hx as (Hk & H2d & Hc1 & Hp1 & Hi1 & _ & m & Hpk & Hsam);
      pose proof (_compute_computed _ _ Hy) as Hcomp; rename Hy into Hc
    end.
    pose proof Hcomp as (Hc2 & _ & _ & Hi2 & Hk2 & H2d2 & Hpk2 & Hp2 & _).
    assert (PS.cls st' = PS.cls st2) as Hc3.
    { destruct (negb (PS.is2d st2)); inv_ok; done. }
    destruct IH as [Hprep _]; [congruence|].
    assert (Brieden2022_prepared st1) as Hprep1.
    { unfold Brieden2022_prepared. by rewrite Hp1, Hk. }
    apply (Brieden2022_after_compute _ _ m) in Hc
      as (_ & Hprep2 & Hframe & m' & Hpn); try congruence.
    destruct (PS.is2d st2) eqn:Hd; simpl in Hcall; inv_ok; [done|].
    match goal with Hx : PS.pknow st2 = Some ?b |- _ =>
      rewrite Hpn in Hx; injection Hx as <- end.
    rewrite Hpk2, Hpk in *.
    repeat match goal with Hx : nd_last (A2 ?mm) 0 = Ok _ |- _ =>
      cbn [nd_last] in Hx; unfold norm_index in Hx;
      destruct (decide (0 <= 0 < Z.of_nat (ncol mm))); [|
        destruct (decide (- Z.of_nat (ncol mm) <= 0 < 0)); [lia|discriminate]];
      cbn in Hx; injection Hx as <- end.
    split.
    + unfold Brieden2022_prepared in *. by cbn [PS.with_arrays PS.prepared PS.k].
    + destruct Hframe as (a & interp & kk & vals & Ha & Hcl & Hrows).
      rewrite Hpn in Ha. injection Ha as <-.
      exists (A1 (mat_col m' 0)), interp, kk, vals.
      cbn [PS.with_arrays PS.pknow PS.pk_interpolator PS.k PS.pk].
      split; [done|]. split; [done|]. intros i x Hx.
      destruct (Hrows i x Hx) as [Hout Hin]. rewrite Hpk2 in Hout.
      unfold nd_row in Hout, Hin. change (Z.to_nat 0) with 0%nat.
      rewrite !nd_row_flat. split.
      * intros Ho. by rewrite (Hout Ho).
      * intros Hi Hj. rewrite (Hin Hi Hj).
        assert (PS.smooth_row (PS.with_arrays st2 (A1 (mat_col m 0)) (A1 (mat_col m' 0)))
                  interp x = PS.smooth_row st2 interp x) as -> by done.
        rewrite smooth_row_1d by done. by destruct interp.
Qed.

(** C6.  On every instance of the class, after its construction and
    after any number of re-invocations, the smooth array is the raw
    array at the wavenumbers of the grid outside of [1e-3, 1], and at
    the wavenumbers inside the row given there by the interpolator
    cloned from the smooth values. *)
Theorem Brieden2022_window_only (st : PS.PSFilter) :
  PS.reachable st -> PS.cls st = PS.Brieden2022PowerSpectrumBAOFilter ->
  exists a interp kk vals,
    PS.pknow st = Some a /\
    pk_clone (PS.pk_interpolator st) kk vals = Ok interp /\
    forall i x, PS.k st !! i = Some x ->
      ((x <? lit 1e-3)%fl = true \/ (x >? lit 1)%fl = true ->
       nd_row a i = nd_row (PS.pk st) i) /\
      ((x >=? lit 1e-3)%fl = true -> (x <=? lit 1)%fl = true ->
       nd_row a i = PS.smooth_row st interp x).
Proof. intros Hr Hc. by apply Brieden2022_invariant. Qed.

End Brieden2022.

(** ** Wallish2018 *)

Section Wallish2018.
Context {F : Type} `{FloatLaws F} `{!External F} `{!ExternalLaws F}.

(** A row of raw values divided by itself, less one, times anything,
    plus one, is a row of ones; and the raw row divided by it is
    itself. *)
Lemma wiggles_one (row ts : list F) :
  Forall (fun y => (y / y)%fl = lit 1) row -> length ts = length row ->
  zip_with fdiv row
    (map (fun x => (x + lit 1)%fl)
       (zip_with fmul (map (fun x => (x - lit 1)%fl) (zip_with fdiv row row)) ts))
  = row.
Proof.
  intros Hrow. revert ts. induction Hrow as [|y row Hy _ IH]; intros [|t ts];
    simpl; try done.
  intros [= Hl]. rewrite Hy, fsub_diag_1, fmul_0_l, fadd_0_l, fdiv_1_r.
  by rewrite IH.
Qed.

Lemma Wallish2018_compute_tails (st st' : PS.PSFilter) (m : mat F) :
  PS.pk st = A2 m -> nrow m = length (PS.k st) -> mat_wf m ->
  PS.Wallish2018_compute st = Ok st' ->
  exists m', PS.pknow st' = Some (A2 m') /\ PS.pk st' = A2 m /\
    PS.k st' = PS.k st /\
    forall i x row, PS.k st !! i = Some x ->
      (x <? lit 5e-4)%fl = true \/ (x >? lit 2)%fl = true ->
      rows m !! i = Some row -> Forall (fun y => (y / y)%fl = lit 1) row ->
      rows m' !! i = Some row.
Proof.
  intros Hpk Hn Hwf Hc. unfold PS.Wallish2018_compute in Hc. inv_ok.
  match goal with Hp : PS.pk2d _ = Ok _ |- _ =>
    unfold PS.pk2d in Hp; rewrite Hpk in Hp; injection Hp as <- end.
  set (ml := map (fun x => (x <? lit 5e-4)%fl) (PS.k st)) in *.
  set (mr := map (fun x => (x >? lit 2)%fl) (PS.k st)) in *.
  assert (length ml = length (PS.k st)) as Hml by (unfold ml; by rewrite length_map).
  assert (length mr = length (PS.k st)) as Hmr by (unfold mr; by rewrite length_map).
  repeat match goal with
  | Hx : vec_mask ml _ = Ok _ |- _ =>
      rewrite vec_mask_Ok in Hx by done; injection Hx as <-
  | Hx : vec_mask mr _ = Ok _ |- _ =>
      rewrite vec_mask_Ok in Hx by done; injection Hx as <-
  | Hx : mat_mask ml _ = Ok _ |- _ =>
      rewrite mat_mask_Ok in Hx by congruence; injection Hx as <-
  | Hx : mat_mask mr _ = Ok _ |- _ =>
      rewrite mat_mask_Ok in Hx by congruence; injection Hx as <-
  end.
  match goal with
  | Hx : vec_mask ?mf ?kf = Ok ?kin, Hy : mat_mask ?mf ?pf = Ok ?pin |- _ =>
      unfold vec_mask in Hx; destruct (decide (length mf = length kf)) as [Hlf|];
        [|discriminate]; injection Hx as <-;
      unfold mat_mask in Hy; destruct (decide (length mf = nrow pf)) as [Hlp|];
        [|discriminate]; injection Hy as <-;
      set (fine := mf) in *
  end.
  match goal with Hx : concat_rows _ = Ok ?v |- _ =>
    apply concat_rows_3 in Hx as [Hcv Hrv]; cbn [ncol rows] in Hcv, Hrv;
    rename v into values end.
  match goal with
  | Hs : CubicSpline ?kn (A2 values) = Ok ?sp, Hv : spline_call ?sp _ 0 = Ok ?o |- _ =>
      pose proof (spline_call_shape _ _ _ _ _ _ Hs Hv) as Hso;
      apply shape_2d_inv in Hso as (o' & -> & Hro & Hco);
      pose proof (spline_call_knot _ _ _ _ _ Hs Hv) as Hknot
  end.
  unfold PS.nd_div, PS.nd_sub, PS.nd_mul, PS.nd_add in *.
  repeat (progress (cbn [nd_binop nd_map] in *; inv_ok)).
  match goal with
  | Hq : mat_binop fdiv m o' = Ok ?q,
    Ht : mat_binop fmul (mat_map _ ?q) (column ?top) = Ok ?t,
    Hw : mat_binop fdiv m (mat_map _ ?t) = Ok ?r |- _ =>
      rename Hq into Hq'; rename Ht into Ht'; rename Hw into Hw';
      rename q into mq; rename t into mt; rename r into mw;
      set (tophat := top) in *; exists mw
  end.
  split; [done|]. split; [done|]. split; [done|].
  intros i x row Hx Hout Hrow Hall.
  assert (length row = ncol m) as Hlrow by (eapply (Forall_lookup_1 _ _ _ _ Hwf Hrow)).
  assert (length (select ml (rows m)) = length (select ml (PS.k st))) as Hl1
    by (rewrite !length_select; unfold nrow in *; congruence).
  assert (length (select fine (rows m0)) = length (select fine l)) as Hl2
    by (rewrite !length_select; unfold nrow in *; congruence).
  (* the spline returns the raw row on this knot *)
  assert (rows o' !! i = Some row) as Ho.
  { destruct Hout as [Hlt|Hgt].
    - assert (ml !! i = Some true) as Hmi
        by (unfold ml; by rewrite list_lookup_fmap, Hx; simpl; rewrite Hlt).
      pose proof (rank_lt_count _ _ Hmi) as Hrk.
      rewrite (Hknot i (rank ml i) x Hx).
      + rewrite Hrv, lookup_app_l by (rewrite length_select; unfold nrow in *; lia || congruence).
        rewrite select_lookup by (unfold nrow in *; congruence || done). done.
      + rewrite lookup_app_l by (rewrite length_select; lia || done).
        by rewrite select_lookup.
    - assert (mr !! i = Some true) as Hmi
        by (unfold mr; by rewrite list_lookup_fmap, Hx; simpl; rewrite Hgt).
      rewrite (Hknot i (length (select ml (PS.k st)) +
                        (length (select fine l) + rank mr i)) x Hx)%nat.
      + rewrite Hrv, lookup_app_r by lia. rewrite Hl1, Nat.add_comm, Nat.add_sub.
        rewrite lookup_app_r by lia. rewrite Hl2, Nat.add_comm, Nat.add_sub.
        rewrite select_lookup by (unfold nrow in *; congruence || done). done.
      + rewrite lookup_app_r by lia. rewrite Nat.add_comm, Nat.add_sub.
        rewrite lookup_app_r by lia. rewrite Nat.add_comm, Nat.add_sub.
        by rewrite select_lookup. }
  pose proof (shape_mat_binop _ _ _ _ Hq') as [Hrq Hcq].
  rewrite Hro, Hn, bmax_diag in Hrq. rewrite Hco, Hcv, bmax_diag in Hcq.
  pose proof (mat_binop_row _ _ _ _ i _ _ Hq' ltac:(congruence) Hrow Ho) as Hqi.
  rewrite Hcq, !stretch_id in Hqi by done.
  assert (exists t, tophat !! i = Some t) as [t Hti].
  { apply lookup_lt_is_Some. unfold tophat, PS._tophat. rewrite length_map.
    by eapply lookup_lt_Some. }
  assert (length tophat = length (PS.k st)) as Hltop
    by (unfold tophat, PS._tophat; by rewrite length_map).
  pose proof (shape_mat_binop _ _ _ _ Ht') as [Hrt Hct].
  cbn [ncol mat_map column] in Hct. rewrite bmax_1_r, Hcq in Hct.
  rewrite nrow_mat_map, nrow_column, Hltop, Hrq, bmax_diag in Hrt.
  assert (rows mt !! i = Some (zip_with fmul
            (map (fun x => (x - lit 1)%fl) (zip_with fdiv row row))
            (stretch (ncol m) [t]))) as Hmt.
  { erewrite mat_binop_row; [|exact Ht'| | |].
    - rewrite Hct. f_equal. f_equal. apply stretch_id.
      rewrite length_map, length_zip_with. lia.
    - rewrite nrow_column, nrow_mat_map. congruence.
    - by rewrite mat_map_row, Hqi.
    - by rewrite column_row, Hti. }
  pose proof (shape_mat_binop _ _ _ _ Hw') as [Hrw Hcw].
  cbn [ncol mat_map] in Hcw. rewrite Hct, bmax_diag in Hcw.
  assert (length (stretch (ncol m) [t]) = length row) as Hlt.
  { rewrite length_stretch; [done|]. simpl. auto. }
  erewrite mat_binop_row; [|exact Hw'| |exact Hrow|].
  3: { rewrite mat_map_row, Hmt. reflexivity. }
  2: { rewrite nrow_mat_map. congruence. }
  rewrite Hcw. f_equal.
  rewrite !stretch_id
    by (rewrite ?length_map, ?length_zip_with, ?length_map, ?length_zip_with; lia).
  by apply wiggles_one.
Qed.

Lemma Wallish2018_after_compute st st' m :
  PS.cls st = PS.Wallish2018PowerSpectrumBAOFilter -> PS.pk st = A2 m ->
  PS.sample_pk (PS.is2d st) (PS.pk_interpolator st) (PS.pk_interpolator st) (PS.k st)
    = Ok m ->
  PS._compute st = Ok st' ->
  Wallish2018_frame st' /\ exists m', PS.pknow st' = Some (A2 m') /\
    forall i x row, PS.k st !! i = Some x ->
      (x <? lit 5e-4)%fl = true \/ (x >? lit 2)%fl = true ->
      rows m !! i = Some row -> Forall (fun y => (y / y)%fl = lit 1) row ->
      rows m' !! i = Some row.
Proof.
  intros Hcls Hpk Hsam Hc. unfold PS._compute in Hc. rewrite Hcls in Hc.
  assert (PS.Wallish2018_compute st = Ok st') as Hc' by (by destruct (PS.settings st)).
  pose proof (sample_pk_rows _ _ _ _ _ Hsam) as (Hwf & Hn & _).
  destruct (Wallish2018_compute_tails _ _ _ Hpk Hn Hwf Hc')
    as (m' & Hpn & Hpk' & Hk' & Hrows).
  split; [|eauto]. exists (A2 m'). split; [done|]. rewrite Hk', Hpk'. exact Hrows.
Qed.

Lemma Wallish2018_invariant (st : PS.PSFilter) :
  PS.reachable st -> PS.cls st = PS.Wallish2018PowerSpectrumBAOFilter ->
  Wallish2018_frame st.
Proof.
  induction 1 as [c pk kw st Hinit|st pk cosmo st' Hreach IH Hcall]; intros Hcls.
  - apply init_inv in Hinit as (settings & k & m & st1 & _ & _ & Hsam & Hp & Hc).
    pose proof (_prepare_was_prepared _ _ Hp) as (Hc1 & _ & _ & Hi & Hk & H2d & Hpk & _).
    pose proof (_compute_computed _ _ Hc) as (Hc2 & _).
    cbn [PS.sampled PS.cls PS.pk_interpolator PS.k PS.is2d PS.pk] in *.
    apply (Wallish2018_after_compute _ _ m) in Hc as [? _]; try done; congruence.
  - unfold PS.__call__ in Hcall. inv_ok.
    match goal with Hx : PS.set_pk _ _ _ = Ok ?s1, Hy : PS._compute ?s1 = Ok ?s2 |- _ =>
      rename s1 into st1; rename s2 into st2;
      apply set_pk_inv in Hx as (Hk & H2d & Hc1 & Hp1 & Hi1 & _ & m & Hpk & Hsam);
      pose proof (_compute_computed _ _ Hy) as Hcomp; rename Hy into Hc
    end.
    pose proof Hcomp as (Hc2 & _ & _ & Hi2 & Hk2 & H2d2 & Hpk2 & Hp2 & _).
    assert (PS.cls st' = PS.cls st2) as Hc3.
    { destruct (negb (PS.is2d st2)); inv_ok; done. }
    pose proof (sample_pk_rows _ _ _ _ _ Hsam) as (Hwf & Hn & _).
    pose proof (sample_pk_shape _ _ _ _ _ Hsam) as (_ & Hone).
    apply (Wallish2018_after_compute _ _ m) in Hc
      as (Hframe & m' & Hpn & Hrows); try congruence.
    destruct (PS.is2d st2) eqn:Hd; simpl in Hcall; inv_ok; [done|].
    match goal with Hx : PS.pknow st2 = Some ?b |- _ =>
      rewrite Hpn in Hx; injection Hx as <- end.
    rewrite Hpk2, Hpk in *.
    repeat match goal with Hx : nd_last (A2 ?mm) 0 = Ok _ |- _ =>
      cbn [nd_last] in Hx; unfold norm_index in Hx;
      destruct (decide (0 <= 0 < Z.of_nat (ncol mm))); [|
        destruct (decide (- Z.of_nat (ncol mm) <= 0 < 0)); [lia|discriminate]];
      cbn in Hx; injection Hx as <- end.
    change (Z.to_nat 0) with 0%nat.
    exists (A1 (mat_col m' 0)). cbn [PS.with_arrays PS.pknow PS.k PS.pk].
    split; [done|]. intros i x row Hx Hout Hrow Hall.
    rewrite nd_row_flat in Hrow |- *.
    destruct (rows m !! i) as [r0|] eqn:Hr0; [|discriminate]. simpl in Hrow.
    injection Hrow as <-.
    assert (length r0 = 1%nat) as Hl0.
    { rewrite (Forall_lookup_1 _ _ _ _ Hwf Hr0). apply Hone. congruence. }
    destruct r0 as [|e [|? ?]]; try discriminate. simpl in Hall.
    rewrite Hk2, Hk in Hx.
    by rewrite (Hrows i x [e] ltac:(congruence) Hout Hr0 Hall).
Qed.

(** C5.  On every instance of the class, after its construction and
    after any number of re-invocations, the smooth array is the raw
    array at every wavenumber of the grid below 5e-4 or above 2, where
    the raw values divide themselves to one (they are finite and not
    zero). *)
Theorem Wallish2018_tails_raw (st : PS.PSFilter) :
  PS.reachable st -> PS.cls st = PS.Wallish2018PowerSpectrumBAOFilter ->
  exists a, PS.pknow st = Some a /\
    forall i x row, PS.k st !! i = Some x ->
      (x <? lit 5e-4)%fl = true \/ (x >? lit 2)%fl = true ->
      nd_row (PS.pk st) i = Some row ->
      Forall (fun y => (y / y)%fl = lit 1) row ->
      nd_row a i = Some row.
Proof. intros Hr Hc. by apply Wallish2018_invariant. Qed.

End Wallish2018.

(** ** Parameter dictionaries *)

Section DictFacts.
Context {V : Type}.
Implicit Types (d : dict V) (k : string) (v : V).

Lemma dict_get_None k d : dict_get k d = None <-> k ∉ keys d.
Proof.
  induction d as [|[k' v'] d IH]; simpl.
  - split; [intros _; apply not_elem_of_nil | done].
  - rewrite not_elem_of_cons. case_decide; subst.
    + split; [done | intros [? _]; done].
    + rewrite IH. split; [auto | by intros [_ ?]].
Qed.

Lemma dict_get_is_Some k d : is_Some (dict_get k d) <-> k ∈ keys d.
Proof.
  rewrite <- not_eq_None_Some, dict_get_None.
  split; [apply dec_stable | auto].
Qed.

Lemma dict_in_spec k d : dict_in k d = true <-> k ∈ keys d.
Proof. unfold dict_in. apply bool_decide_eq_true. Qed.

Lemma dict_get_pop k k' d :
  dict_get k' (dict_pop k d) = if decide (k' = k) then None else dict_get k' d.
Proof.
  unfold dict_pop, dict in *. induction d as [|[k1 v1] d IH].
  - simpl. by case_decide.
  - rewrite filter_cons. cbn [fst]. destruct (decide (k1 <> k)) as [Hne|Heq].
    + cbn [dict_get]. rewrite IH. repeat case_decide; congruence.
    + apply dec_stable in Heq. subst k1. rewrite IH. cbn [dict_get].
      repeat case_decide; congruence.
Qed.

Lemma keys_dict_pop k d : keys (dict_pop k d) = filter (fun k' => k' <> k) (keys d).
Proof.
  unfold dict_pop, keys, dict in *. induction d as [|[k1 v1] d IH]; [done|].
  rewrite filter_cons. cbn [map fst]. rewrite filter_cons.
  destruct (decide (k1 <> k)); cbn [map fst]; by rewrite IH.
Qed.

Lemma dict_get_set k k' v d :
  dict_get k' (dict_set k v d) = if decide (k' = k) then Some v else dict_get k' d.
Proof.
  induction d as [|[k1 v1] d IH]; simpl.
  - repeat case_decide; congruence.
  - destruct (decide (k1 = k)); simpl; [|rewrite IH]; repeat case_decide; congruence.
Qed.

Lemma keys_dict_set k v d :
  keys (dict_set k v d) = if decide (k ∈ keys d) then keys d else keys d ++ [k].
Proof.
  unfold keys. induction d as [|[k1 v1] d IH]; cbn [dict_set map fst].
  - rewrite decide_False; [done | apply not_elem_of_nil].
  - destruct (decide (k1 = k)) as [->|Hne]; cbn [map fst].
    + rewrite decide_True; [done | left].
    + rewrite IH. destruct (decide (k ∈ map fst d)).
      * rewrite decide_True; [done | by right].
      * rewrite decide_False; [done|]. rewrite not_elem_of_cons. auto.
Qed.

Lemma NoDup_dict_set k v d : NoDup (keys d) -> NoDup (keys (dict_set k v d)).
Proof.
  intros Hd. rewrite keys_dict_set. case_decide; [done|].
  apply list.NoDup_app. split; [done|]. split; [|apply NoDup_singleton].
  intros x Hx ->%list_elem_of_singleton. done.
Qed.

Lemma NoDup_dict_pop k d : NoDup (keys d) -> NoDup (keys (dict_pop k d)).
Proof. intros Hd. rewrite keys_dict_pop. by apply list.NoDup_filter. Qed.

Lemma NoDup_dict_update d more : NoDup (keys d) -> NoDup (keys (dict_update d more)).
Proof.
  unfold dict_update. revert d. induction more as [|[k v] more IH]; intros d Hd; [done|].
  simpl. by apply IH, NoDup_dict_set.
Qed.

Lemma dict_get_update k d more :
  NoDup (keys more) ->
  dict_get k (dict_update d more) =
  match dict_get k more with Some v => Some v | None => dict_get k d end.
Proof.
  unfold dict_update. revert d. induction more as [|[k1 v1] more IH]; intros d Hm; [done|].
  simpl in *. apply list.NoDup_cons in Hm as [Hk1 Hm]. rewrite IH by done.
  rewrite dict_get_set. destruct (decide (k1 = k)) as [->|Hne].
  - apply dict_get_None in Hk1. rewrite Hk1. by rewrite decide_True.
  - rewrite decide_False by congruence. done.
Qed.

End DictFacts.

(** The tuples of [conflicts] are classes: every name of a tuple is
    sent to that tuple. *)
Lemma conflicts_closed :
  Forall (fun conf => Forall (fun eq => find_conflicts eq = conf) conf) conflicts.
Proof. repeat constructor. Qed.

Lemma find_in_cases (name : string) (groups : list (list string)) :
  find_in name groups = [] \/
  find_in name groups ∈ groups /\ name ∈ find_in name groups.
Proof.
  induction groups as [|conf groups IH]; simpl; [by left|].
  case_bool_decide.
  - right. split; [left | done].
  - destruct IH as [IH|[IH1 IH2]]; [by left|]. right. split; [by right | done].
Qed.

Lemma find_conflicts_eq (name eq : string) :
  eq ∈ find_conflicts name -> find_conflicts eq = find_conflicts name.
Proof.
  intros Heq. destruct (find_in_cases name conflicts) as [Hnil|[Hin _]].
  - unfold find_conflicts in Heq. rewrite Hnil in Heq. by apply not_elem_of_nil in Heq.
  - pose proof conflicts_closed as Hc. rewrite list.Forall_forall in Hc.
    specialize (Hc _ Hin). rewrite list.Forall_forall in Hc. by apply Hc.
Qed.

Lemma find_conflicts_self (name eq : string) :
  eq ∈ find_conflicts name -> name ∈ find_conflicts name.
Proof.
  intros Heq. destruct (find_in_cases name conflicts) as [Hnil|[_ Hin]]; [|done].
  unfold find_conflicts in Heq. rewrite Hnil in Heq. by apply not_elem_of_nil in Heq.
Qed.

Lemma find_conflicts_sym (name eq : string) :
  eq ∈ find_conflicts name -> name ∈ find_conflicts eq.
Proof.
  intros Heq. rewrite (find_conflicts_eq _ _ Heq). by eapply find_conflicts_self.
Qed.

Section ParameterFacts.
Context {V : Type}.
Implicit Types (args more : dict V).

Lemma filter_nil_Forall {A} (P : A -> Prop) `{forall x, Decision (P x)} (l : list A) :
  filter P l = [] <-> Forall (fun x => ~ P x) l.
Proof.
  induction l as [|x l IH]; [by rewrite filter_nil|].
  rewrite filter_cons, list.Forall_cons. case_decide.
  - split; [done | by intros [? _]].
  - rewrite IH. split; [auto | by intros [_ ?]].
Qed.

Lemma conflicting_elem args name eq :
  eq ∈ conflicting args name <->
  eq <> name /\ eq ∈ keys args /\ eq ∈ find_conflicts name.
Proof. unfold conflicting. rewrite list_elem_of_filter. tauto. Qed.

Lemma conflicting_nil args name :
  conflicting args name = [] <->
  forall eq, eq ∈ find_conflicts name -> eq ∈ keys args -> eq = name.
Proof.
  unfold conflicting. rewrite filter_nil_Forall, list.Forall_forall. split.
  - intros Hf eq H1 H2. destruct (decide (eq = name)); [done|].
    destruct (Hf eq H1); auto.
  - intros Hf eq H1 [H2 H3]. auto.
Qed.

Lemma check_params_Ok args : check_params args = Ok tt <-> conflict_free args.
Proof.
  unfold check_params.
  destruct (list_find _ (keys args)) as [[i name]|] eqn:Hfind.
  - apply list_find_Some in Hfind as (Hi & Hc & _). split; [discriminate|].
    intros Hfree. destruct Hc. apply conflicting_nil. intros eq H1 H2.
    destruct (decide (eq = name)); [done|].
    destruct (Hfree name eq); eauto using list_elem_of_lookup_2.
  - apply list_find_None in Hfind. rewrite list.Forall_forall in Hfind.
    split; [intros _|done]. intros a b Ha Hb Hab Hin.
    specialize (Hfind a Ha). apply dec_stable in Hfind.
    rewrite conflicting_nil in Hfind. specialize (Hfind b Hin Hb). congruence.
Qed.

Lemma check_params_Err args e :
  check_params args = Err e ->
  exists i name,
    keys args !! i = Some name /\ conflicting args name <> [] /\
    (forall j other, keys args !! j = Some other -> (j < i)%nat ->
       conflicting args other = []) /\
    e = CosmologyError ("Conflicting parameters are given: " +:+
                        repr_names (name :: conflicting args name)).
Proof.
  unfold check_params.
  destruct (list_find _ (keys args)) as [[i name]|] eqn:Hfind; [|discriminate].
  intros [= <-]. apply list_find_Some in Hfind as (Hi & Hc & Hfirst).
  exists i, name. repeat split; auto.
  intros j other Hj Hlt. specialize (Hfirst j other Hj Hlt). by apply dec_stable in Hfirst.
Qed.

(** *** [merge_params] *)

Lemma dict_get_pop_list args (l : list string) k :
  dict_get k (foldl (fun args eq => if dict_in eq args then dict_pop eq args else args)
                    args l) =
  if decide (k ∈ l) then None else dict_get k args.
Proof.
  revert args. induction l as [|eq l IH]; intros args; cbn [foldl].
  - rewrite decide_False; [done | apply not_elem_of_nil].
  - rewrite IH. destruct (decide (k ∈ l)) as [Hin|Hnin].
    + rewrite decide_True; [done | by right].
    + destruct (decide (k = eq)) as [->|Hne].
      * rewrite decide_True by left.
        destruct (dict_in eq args) eqn:Hd.
        -- rewrite dict_get_pop. by rewrite decide_True.
        -- apply dict_get_None. intros Hk. apply dict_in_spec in Hk. congruence.
      * rewrite decide_False by (rewrite not_elem_of_cons; auto).
        destruct (dict_in eq args); [|done].
        rewrite dict_get_pop. by rewrite decide_False.
Qed.

Lemma dict_get_pop_conflicts args name k :
  dict_get k (pop_conflicts args name) =
  if decide (k ∈ find_conflicts name) then None else dict_get k args.
Proof. apply dict_get_pop_list. Qed.

Lemma dict_get_pop_all args (names : list string) k :
  dict_get k (foldl pop_conflicts args names) =
  if decide (Exists (fun name => k ∈ find_conflicts name) names)
  then None else dict_get k args.
Proof.
  revert args. induction names as [|name names IH]; intros args; cbn [foldl].
  - rewrite decide_False; [done | inversion 1].
  - rewrite IH, dict_get_pop_conflicts.
    destruct (decide (Exists _ names)) as [He|He].
    + rewrite decide_True; [done | by apply Exists_cons_tl].
    + destruct (decide (k ∈ find_conflicts name)).
      * rewrite decide_True; [done | by apply Exists_cons_hd].
      * rewrite decide_False; [done|]. by inversion 1.
Qed.

Lemma NoDup_pop_list args (l : list string) :
  NoDup (keys args) ->
  NoDup (keys (foldl (fun args eq => if dict_in eq args then dict_pop eq args else args)
                     args l)).
Proof.
  revert args. induction l as [|eq l IH]; intros args Hd; [done|]. cbn [foldl].
  apply IH. destruct (dict_in eq args); [by apply NoDup_dict_pop | done].
Qed.

Lemma NoDup_pop_all args (names : list string) :
  NoDup (keys args) -> NoDup (keys (foldl pop_conflicts args names)).
Proof.
  revert args. induction names as [|name names IH]; intros args Hd; [done|]. cbn [foldl].
  apply IH. by apply NoDup_pop_list.
Qed.

Lemma merge_params_get args more k :
  NoDup (keys more) ->
  dict_get k (merge_params args more) =
  match dict_get k more with
  | Some v => Some v
  | None => if decide (Exists (fun name => k ∈ find_conflicts name) (keys more))
            then None else dict_get k args
  end.
Proof.
  intros Hm. unfold merge_params. rewrite dict_get_update by done.
  by rewrite dict_get_pop_all.
Qed.

Lemma merge_params_NoDup args more :
  NoDup (keys args) -> NoDup (keys (merge_params args more)).
Proof. intros Ha. by apply NoDup_dict_update, NoDup_pop_all. Qed.

Lemma merge_params_free args more :
  NoDup (keys more) -> conflict_free args -> conflict_free more ->
  conflict_free (merge_params args more).
Proof.
  intros Hm Ha Hmore a b Hka Hkb Hab Hin.
  apply dict_get_is_Some in Hka, Hkb. rewrite merge_params_get in Hka, Hkb by done.
  assert (forall k, is_Some (match dict_get k more with
            | Some v => Some v
            | None => if decide (Exists (fun name => k ∈ find_conflicts name) (keys more))
                      then None else dict_get k args end) ->
          k ∈ keys more \/
          k ∈ keys args /\ forall name, name ∈ keys more -> k ∉ find_conflicts name)
    as Hcase.
  { intros k Hk. destruct (dict_get k more) eqn:Hg.
    - left. apply dict_get_is_Some. by rewrite Hg.
    - case_decide as Hne; [by apply is_Some_None in Hk|]. right.
      split; [by apply dict_get_is_Some|]. intros name Hn Hc. apply Hne.
      apply list.Exists_exists. eauto. }
  destruct (Hcase a Hka) as [Ha1|[Ha1 Ha2]], (Hcase b Hkb) as [Hb1|[Hb1 Hb2]].
  - by apply (Hmore a b).
  - by apply (Hb2 a).
  - apply find_conflicts_sym in Hin. by apply (Ha2 b).
  - by apply (Ha a b).
Qed.


(** *** [_include_conflicts] *)

Lemma include_list_spec (l : list string) (p : dict V) (name : string) (v : V) :
  dict_get name p = Some v ->
  exists p',
    foldl (fun params conf =>
             p ← params; v ← dict_get name p; Some (dict_set conf v p))
          (Some p) l = Some p' /\
    (NoDup (keys p) -> NoDup (keys p')) /\
    forall k, dict_get k p' = if decide (k ∈ l) then Some v else dict_get k p.
Proof.
  revert p. induction l as [|conf l IH]; intros p Hn; cbn [foldl].
  - exists p. split; [done|]. split; [done|]. intros k.
    rewrite decide_False; [done | apply not_elem_of_nil].
  - cbn [mbind option_bind]. rewrite Hn. cbn [mbind option_bind].
    destruct (IH (dict_set conf v p)) as (p' & Hf & Hd & Hg).
    { rewrite dict_get_set, Hn. by case_decide. }
    exists p'. split; [done|]. split; [intros; by apply Hd, NoDup_dict_set|].
    intros k. rewrite Hg, dict_get_set.
    destruct (decide (k ∈ l)).
    + rewrite decide_True; [done | by right].
    + destruct (decide (k = conf)) as [->|].
      * rewrite decide_True; [done | left].
      * rewrite decide_False; [done|]. rewrite not_elem_of_cons. auto.
Qed.

Lemma include_name_spec (p : dict V) (name : string) (v : V) :
  dict_get name p = Some v ->
  exists p', include_name (Some p) name = Some p' /\
    (NoDup (keys p) -> NoDup (keys p')) /\
    forall k, dict_get k p' =
      if decide (k ∈ find_conflicts name) then Some v else dict_get k p.
Proof. apply include_list_spec. Qed.

Lemma included_step (d : dict V) (done : list string) (p : dict V) (n : string) :
  conflict_free d -> (forall name, name ∈ done -> name ∈ keys d) -> n ∈ keys d ->
  included d done p ->
  exists p', include_name (Some p) n = Some p' /\
    (NoDup (keys p) -> NoDup (keys p')) /\ included d (done ++ [n]) p'.
Proof.
  intros Hfree Hdone Hn Hinc.
  assert (dict_get n p = dict_get n d) as Hnp.
  { destruct (Hinc n) as [H1 H2].
    destruct (decide (Exists (fun name => n ∈ find_conflicts name) done)) as [He|He].
    - apply list.Exists_exists in He as (name & Hname & Hc).
      destruct (decide (name = n)) as [->|Hne]; [by apply H1|].
      by destruct (Hfree name n (Hdone _ Hname) Hn Hne).
    - apply H2. intros name Hname Hc. apply He, list.Exists_exists. eauto. }
  destruct (proj2 (dict_get_is_Some n d) Hn) as [v Hv]. rewrite Hv in Hnp.
  destruct (include_name_spec p n v Hnp) as (p' & Hp' & Hnd & Hget).
  exists p'. split; [done|]. split; [done|]. intros k. rewrite Hget.
  destruct (Hinc k) as [H1 H2]. split.
  - intros name [Hname| ->%list_elem_of_singleton]%elem_of_app Hc.
    + destruct (decide (k ∈ find_conflicts n)) as [Hkn|Hkn]; [|by apply H1].
      assert (name = n) as ->; [|done].
      destruct (decide (name = n)) as [|Hne]; [done|].
      destruct (Hfree name n (Hdone _ Hname) Hn Hne).
      rewrite <- (find_conflicts_eq _ _ Hc), (find_conflicts_eq _ _ Hkn).
      by eapply find_conflicts_self.
    + by rewrite decide_True.
  - intros Hnone. rewrite decide_False.
    + apply H2. intros name Hname. apply Hnone, elem_of_app. by left.
    + apply Hnone, elem_of_app. right. by apply list_elem_of_singleton.
Qed.

Lemma included_all (d : dict V) (todo done : list string) (p : dict V) :
  conflict_free d -> keys d = done ++ todo -> included d done p ->
  exists p', foldl include_name (Some p) todo = Some p' /\
    (NoDup (keys p) -> NoDup (keys p')) /\ included d (keys d) p'.
Proof.
  intros Hfree. revert done p. induction todo as [|n todo IH]; intros done p Hk Hinc.
  - rewrite app_nil_r in Hk. rewrite Hk. by exists p.
  - cbn [foldl].
    destruct (included_step d done p n) as (p1 & Hp1 & Hnd1 & Hinc1); try done.
    { intros name Hname. rewrite Hk. apply elem_of_app. by left. }
    { rewrite Hk. apply elem_of_app. right. left. }
    rewrite Hp1. destruct (IH (done ++ [n]) p1) as (p' & Hp' & Hnd & Hinc'); try done.
    { by rewrite <- app_assoc. }
    exists p'. split; [done|]. split; [auto | done].
Qed.

Lemma include_conflicts_spec (d : dict V) :
  conflict_free d ->
  exists d', _include_conflicts d = Some d' /\
    (NoDup (keys d) -> NoDup (keys d')) /\
    (forall name conf, name ∈ keys d -> conf ∈ find_conflicts name ->
       dict_get conf d' = dict_get name d) /\
    (forall name, name ∈ keys d -> dict_get name d' = dict_get name d) /\
    (forall k, (forall name, name ∈ keys d -> k ∉ find_conflicts name) ->
       dict_get k d' = dict_get k d).
Proof.
  intros Hfree.
  destruct (included_all d (keys d) [] d Hfree eq_refl) as (d' & Hd' & Hnd & Hinc).
  { intros k. split; [by intros name ?%not_elem_of_nil | done]. }
  assert (forall name conf, name ∈ keys d -> conf ∈ find_conflicts name ->
            dict_get conf d' = dict_get name d) as Hal.
  { intros name conf Hname Hconf. by apply (Hinc conf). }
  assert (forall k, (forall name, name ∈ keys d -> k ∉ find_conflicts name) ->
            dict_get k d' = dict_get k d) as Hot.
  { intros k Hk. by apply (Hinc k). }
  exists d'. split; [done|]. split; [done|]. split; [done|]. split; [|done].
  intros name Hname.
  destruct (decide (name ∈ find_conflicts name)); [by apply Hal|].
  apply Hot. intros other Hother Hc.
  destruct (decide (other = name)) as [->|Hne]; [done|].
  by destruct (Hfree other name).
Qed.

End ParameterFacts.

(** The defaults of [Cosmology]. *)
Lemma defaults_NoDup :
  NoDup (keys (dict_update _default_cosmological_parameters
                           _default_calculation_parameters)).
Proof. apply (bool_decide_unpack _). by vm_compute. Qed.

Lemma defaults_free :
  check_params (dict_update _default_cosmological_parameters
                            _default_calculation_parameters) = Ok tt.
Proof. by vm_compute. Qed.

Lemma calculation_no_conflict (name : string) :
  name ∈ keys _default_calculation_parameters -> find_conflicts name = [].
Proof.
  assert (Forall (fun name => find_conflicts name = [])
                 (keys _default_calculation_parameters)) as Hall.
  { apply (bool_decide_unpack _). by vm_compute. }
  rewrite list.Forall_forall in Hall. apply Hall.
Qed.

Section ParameterTheorems.
Context {V : Type}.

(** X1.  [find_conflicts] sorts the parameter names into classes: a
    name that is in the tuple returned for another name gets the same
    tuple, and a tuple that is not empty holds the name it was asked
    for. *)
Theorem find_conflicts_classes (name eq : string) :
  eq ∈ find_conflicts name ->
  find_conflicts eq = find_conflicts name /\ name ∈ find_conflicts name /\
  name ∈ find_conflicts eq.
Proof.
  intros Heq. split; [by apply find_conflicts_eq|].
  split; [by eapply find_conflicts_self | by apply find_conflicts_sym].
Qed.

(** X2.  [check_params] returns if and only if no two different keys
    of the dictionary conflict.  If it raises, the exception is a
    [CosmologyError] whose message lists the first key, in the order of
    the dictionary, that has a conflict, followed by the keys it
    conflicts with, in the order of the tuple of [find_conflicts]. *)
Theorem check_params_spec (args : dict V) :
  (check_params args = Ok tt <->
   forall a b, a ∈ keys args -> b ∈ keys args -> a <> b -> b ∉ find_conflicts a) /\
  (forall e, check_params args = Err e ->
     exists i name others,
       keys args !! i = Some name /\ others <> [] /\
       others = filter (fun eq => eq <> name /\ eq ∈ keys args) (find_conflicts name) /\
       (forall j other eq, keys args !! j = Some other -> (j < i)%nat ->
          eq ∈ find_conflicts other -> eq ∈ keys args -> eq = other) /\
       e = CosmologyError ("Conflicting parameters are given: " +:+
                           repr_names (name :: others))).
Proof.
  split; [apply check_params_Ok|]. intros e He.
  apply check_params_Err in He as (i & name & Hi & Hc & Hfirst & ->).
  exists i, name, (conflicting args name). repeat split; auto.
  intros j other eq Hj Hlt. by apply conflicting_nil, (Hfirst j).
Qed.

(** X3.  In [merge_params(args, moreargs)] every item of [moreargs] is
    there with its value; a key of [args] alone is dropped if it is in
    conflict with a key of [moreargs] and keeps its value if not; no
    key occurs twice. *)
Theorem merge_params_lookup (args more : dict V) (k : string) :
  NoDup (keys args) -> NoDup (keys more) ->
  NoDup (keys (merge_params args more)) /\
  (forall v, dict_get k more = Some v -> dict_get k (merge_params args more) = Some v) /\
  (dict_get k more = None ->
   (exists name, name ∈ keys more /\ k ∈ find_conflicts name) ->
   dict_get k (merge_params args more) = None) /\
  (dict_get k more = None ->
   (forall name, name ∈ keys more -> k ∉ find_conflicts name) ->
   dict_get k (merge_params args more) = dict_get k args).
Proof.
  intros Ha Hm. split; [by apply merge_params_NoDup|].
  rewrite merge_params_get by done. split; [|split].
  - by intros v ->.
  - intros -> (name & Hn & Hc). rewrite decide_True; [done|].
    apply list.Exists_exists. eauto.
  - intros -> Hnone. rewrite decide_False; [done|].
    intros (name & Hn & Hc)%list.Exists_exists. by apply (Hnone name).
Qed.

(** X4.  Merging two dictionaries that pass [check_params] gives a
    dictionary that passes [check_params]. *)
Theorem merge_params_checked (args more : dict V) :
  NoDup (keys more) ->
  check_params args = Ok tt -> check_params more = Ok tt ->
  check_params (merge_params args more) = Ok tt.
Proof.
  rewrite !check_params_Ok. intros Hm Ha Hmore. by apply merge_params_free.
Qed.

(** X5.  On a dictionary that passes [check_params],
    [_include_conflicts] meets no missing key; afterwards every name in
    conflict with a key has the value of that key, the keys have their
    values and the other names are as they were. *)
Theorem include_conflicts_aliases (params : dict V) :
  NoDup (keys params) -> check_params params = Ok tt ->
  exists params',
    _include_conflicts params = Some params' /\ NoDup (keys params') /\
    (forall name conf, name ∈ keys params -> conf ∈ find_conflicts name ->
       dict_get conf params' = dict_get name params) /\
    (forall name, name ∈ keys params -> dict_get name params' = dict_get name params) /\
    (forall k, (forall name, name ∈ keys params -> k ∉ find_conflicts name) ->
       dict_get k params' = dict_get k params).
Proof.
  intros Hnd Hfree%check_params_Ok.
  destruct (include_conflicts_spec params Hfree) as (d' & Hd' & Hnd' & Hal & Hk & Hot).
  exists d'. auto 10.
Qed.

End ParameterTheorems.

(** X6.  [get_default_parameters] raises a [CosmologyError] naming
    [of] unless [of] is [None], ['cosmology'] or ['calculation'].
    Without the conflicts, all the defaults pass [check_params]; with
    them, every name in conflict with a default is there with the value
    of that default, and the defaults keep their values. *)
Theorem get_default_parameters_spec :
  (forall name inc, name <> "cosmology" -> name <> "calculation" ->
     get_default_parameters (Some name) inc =
     Err (CosmologyError ("No default parameters for " +:+ name))) /\
  exists d d',
    get_default_parameters None false = Ok d /\
    get_default_parameters None true = Ok d' /\
    NoDup (keys d) /\ check_params d = Ok tt /\ NoDup (keys d') /\
    (forall name conf, name ∈ keys d -> conf ∈ find_conflicts name ->
       dict_get conf d' = dict_get name d) /\
    (forall name, name ∈ keys d -> dict_get name d' = dict_get name d).
Proof.
  split.
  - intros name inc H1 H2. unfold get_default_parameters.
    by rewrite !decide_False.
  - assert (check_params _default_cosmological_parameters = Ok tt) as Hfree
      by (by vm_compute).
    apply check_params_Ok in Hfree.
    destruct (include_conflicts_spec _ Hfree) as (cosmo' & Hc' & Hnd' & Hal & Hk & _).
    assert (_include_conflicts _default_calculation_parameters =
            Some _default_calculation_parameters) as Hcalc by (by vm_compute).
    assert (NoDup (keys _default_calculation_parameters)) as Hndc.
    { apply (bool_decide_unpack _). by vm_compute. }
    exists (dict_update _default_cosmological_parameters
                        _default_calculation_parameters),
           (dict_update cosmo' _default_calculation_parameters).
    split; [reflexivity|].
    split. { unfold get_default_parameters, defaults_of. by rewrite Hc', Hcalc. }
    split; [apply defaults_NoDup|]. split; [apply defaults_free|].
    split. { apply NoDup_dict_update, Hnd', (bool_decide_unpack _). by vm_compute. }
    assert (forall name, name ∈ keys (dict_update _default_cosmological_parameters
                                                  _default_calculation_parameters) ->
            name ∈ keys _default_calculation_parameters \/
            dict_get name _default_calculation_parameters = None /\
            name ∈ keys _default_cosmological_parameters) as Hcase.
    { intros name Hname%dict_get_is_Some. rewrite dict_get_update in Hname by done.
      destruct (dict_get name _default_calculation_parameters) eqn:Hg.
      - left. apply dict_get_is_Some. by rewrite Hg.
      - right. split; [done | by apply dict_get_is_Some]. }
    split.
    + intros name conf Hname Hconf. rewrite !dict_get_update by done.
      destruct (Hcase name Hname) as [Hcal|[Hnone Hcos]].
      { rewrite (calculation_no_conflict _ Hcal) in Hconf.
        destruct (not_elem_of_nil _ Hconf). }
      rewrite Hnone.
      destruct (dict_get conf _default_calculation_parameters) eqn:Hg.
      { assert (conf ∈ keys _default_calculation_parameters) as Hcal
          by (apply dict_get_is_Some; by rewrite Hg).
        apply find_conflicts_sym in Hconf.
        rewrite (calculation_no_conflict _ Hcal) in Hconf.
        destruct (not_elem_of_nil _ Hconf). }
      by apply Hal.
    + intros name Hname. rewrite !dict_get_update by done.
      destruct (Hcase name Hname) as [Hcal|[Hnone Hcos]].
      * apply dict_get_is_Some in Hcal as [v Hv]. by rewrite Hv.
      * rewrite Hnone. by apply Hk.
Qed.

(** X7.  The dictionary [Cosmology.__init__] makes of its keyword
    arguments: if they pass [check_params], it passes [check_params]
    too and has no key twice; every argument is there with its value,
    and a default that no argument names is there if and only if it
    conflicts with no argument.  If they do not pass, the exception of
    [check_params] is raised. *)
Theorem Cosmology_merged_params_spec (params : dict value) :
  NoDup (keys params) ->
  (forall e, check_params params = Err e -> Cosmology_merged_params params = Err e) /\
  (check_params params = Ok tt ->
   exists d, Cosmology_merged_params params = Ok d /\
     check_params d = Ok tt /\ NoDup (keys d) /\
     (forall k v, dict_get k params = Some v -> dict_get k d = Some v) /\
     (forall k, dict_get k params = None ->
        (exists name, name ∈ keys params /\ k ∈ find_conflicts name) ->
        dict_get k d = None) /\
     (forall k, dict_get k params = None ->
        (forall name, name ∈ keys params -> k ∉ find_conflicts name) ->
        dict_get k d = dict_get k (dict_update _default_cosmological_parameters
                                               _default_calculation_parameters))).
Proof.
  intros Hnd. unfold Cosmology_merged_params. split.
  - by intros e ->.
  - intros Hc. rewrite Hc. eexists. split; [reflexivity|].
    change (merge_params _ params) with
      (merge_params (dict_update _default_cosmological_parameters
                                 _default_calculation_parameters) params).
    split; [|split; [|split; [|split]]].
    + apply check_params_Ok, merge_params_free; try done;
        apply check_params_Ok; [apply defaults_free | done].
    + apply merge_params_NoDup, defaults_NoDup.
    + intros k v Hk. by rewrite merge_params_get, Hk.
    + intros k Hk (name & Hn & Hcf). rewrite merge_params_get, Hk by done.
      rewrite decide_True; [done|]. apply list.Exists_exists. eauto.
    + intros k Hk Hnone. rewrite merge_params_get, Hk by done.
      rewrite decide_False; [done|].
      intros (name & Hn & Hcf)%list.Exists_exists. by apply (Hnone name).
Qed.

(** ** Windows of the other engines *)

Section Windows.
Context {F : Type} `{FloatLaws F} `{!External F}.

Lemma nd_last_0 (m : mat F) (a : ndarray F) :
  nd_last (A2 m) 0 = Ok a -> a = A1 (mat_col m 0).
Proof.
  cbn [nd_last]. unfold norm_index.
  destruct (decide (0 <= 0 < Z.of_nat (ncol m))); [|
    destruct (decide (- Z.of_nat (ncol m) <= 0 < 0)); [lia|discriminate]].
  cbn. by intros [= <-].
Qed.

(** A window that [_compute] leaves alone on the 2D arrays is left
    alone on the arrays of every instance, flattened or not. *)
Lemma window_reachable (c : PS.PowerSpectrumBAOFilterClass) (out : F -> bool) :
  (forall st st' m, PS.cls st = c -> PS.pk st = A2 m -> nrow m = length (PS.k st) ->
     PS._compute st = Ok st' ->
     exists m', PS.pknow st' = Some (A2 m') /\
       forall i x, PS.k st !! i = Some x -> out x = true ->
         rows m' !! i = rows m !! i) ->
  forall st, PS.reachable st -> PS.cls st = c ->
    exists a, PS.pknow st = Some a /\
      forall i x, PS.k st !! i = Some x -> out x = true ->
        nd_row a i = nd_row (PS.pk st) i.
Proof.
  intros Hcompute st Hreach. destruct Hreach as [c' pk kw st Hinit|st pk cosmo st' _ Hcall];
    intros Hcls.
  - pose proof (init_cls _ _ _ _ Hinit) as Hc'.
    apply init_inv in Hinit as (settings & k & m & st1 & _ & _ & Hsam & Hp & Hc).
    pose proof (_prepare_was_prepared _ _ Hp) as (Hc1 & _ & _ & _ & Hk & _ & Hpk & _).
    pose proof (_compute_computed _ _ Hc) as (Hc2 & _ & _ & _ & Hk2 & _ & Hpk2 & _).
    cbn [PS.sampled PS.cls PS.k PS.pk] in *.
    apply sample_pk_shape in Hsam as [Hn _].
    destruct (Hcompute st1 st m) as (m' & Hm' & Hrows); try congruence.
    exists (A2 m'). split; [done|]. rewrite Hpk2, Hpk, Hk2. exact Hrows.
  - unfold PS.__call__ in Hcall. inv_ok.
    match goal with Hx : PS.set_pk _ _ _ = Ok ?s1, Hy : PS._compute ?s1 = Ok ?s2 |- _ =>
      rename s1 into st1; rename s2 into st2;
      apply set_pk_inv in Hx as (Hk & _ & Hc1 & _ & _ & _ & m & Hpk & Hsam);
      pose proof (_compute_computed _ _ Hy) as (Hc2 & _ & _ & _ & Hk2 & _ & Hpk2 & _);
      rename Hy into Hc
    end.
    apply sample_pk_shape in Hsam as [Hn _].
    assert (PS.cls st' = PS.cls st2) as Hc3.
    { destruct (negb (PS.is2d st2)); inv_ok; done. }
    destruct (Hcompute st1 st2 m) as (m' & Hm' & Hrows); try congruence.
    destruct (negb (PS.is2d st2)); inv_ok.
    + match goal with Hx : PS.pknow st2 = Some ?b |- _ =>
        rewrite Hm' in Hx; injection Hx as <- end.
      rewrite Hpk2, Hpk in *.
      repeat match goal with Hx : nd_last (A2 _) 0 = Ok _ |- _ =>
        apply nd_last_0 in Hx; subst end.
      eexists. split; [reflexivity|].
      cbn [PS.with_arrays PS.k PS.pk]. intros i x Hx Hout.
      rewrite !nd_row_flat, (Hrows i x); [done|congruence|done].
    + exists (A2 m'). split; [done|]. rewrite Hpk2, Hpk, Hk2. cbn [nd_row].
      intros i x Hx Hout. apply (Hrows i x); [congruence|done].
Qed.

Lemma Hinton2017_compute_window degree sigma weight st st' m :
  PS.pk st = A2 m ->
  PS.Hinton2017_compute degree sigma weight st = Ok st' ->
  exists m', PS.pknow st' = Some (A2 m') /\
    forall i x, PS.k st !! i = Some x ->
      negb ((x >? lit 1e-4) && (x <? lit 5))%fl = true ->
      rows m' !! i = rows m !! i.
Proof.
  intros Hpk Hc. unfold PS.Hinton2017_compute in Hc. inv_ok.
  match goal with Hp : PS.pk2d _ = Ok _ |- _ =>
    unfold PS.pk2d in Hp; rewrite Hpk in Hp; injection Hp as <- end.
  match goal with Hm : mat_mask_assign _ m _ = Ok ?m' |- _ =>
    apply mat_mask_assign_spec in Hm as (_ & _ & _ & Hout & _); exists m' end.
  split; [done|]. intros i x Hx Ho. apply Hout.
  rewrite list_lookup_fmap, Hx. simpl. f_equal. by apply negb_true_iff.
Qed.

(** X8.  On every instance of Hinton2017, after its construction and
    after any number of re-invocations, the smooth array is the raw
    array at every wavenumber of the grid that is not in the window
    [1e-4 < k < 5] of the fit. *)
Theorem Hinton2017_window_only (st : PS.PSFilter) :
  PS.reachable st -> PS.cls st = PS.Hinton2017PowerSpectrumBAOFilter ->
  exists a, PS.pknow st = Some a /\
    forall i x, PS.k st !! i = Some x ->
      ((x >? lit 1e-4) && (x <? lit 5))%fl = false ->
      nd_row a i = nd_row (PS.pk st) i.
Proof.
  intros Hr Hc.
  destruct (window_reachable PS.Hinton2017PowerSpectrumBAOFilter
              (fun x => negb ((x >? lit 1e-4) && (x <? lit 5))%fl)) with (st := st)
    as (a & Ha & Hrows); try done.
  - intros s s' m Hcls Hpk _ Hcomp. unfold PS._compute in Hcomp. rewrite Hcls in Hcomp.
    destruct (PS.settings s); try discriminate.
    by eapply Hinton2017_compute_window.
  - exists a. split; [done|]. intros i x Hx Hw. apply (Hrows i x Hx).
    by rewrite Hw.
Qed.

Lemma nrow_mat_ones_like (m : mat F) : nrow (mat_ones_like m) = nrow m.
Proof. unfold nrow, mat_ones_like. simpl. by rewrite length_map. Qed.

Lemma zip_with_div_ones (r : list F) :
  zip_with fdiv r (ones_like r) = r.
Proof.
  unfold ones_like. induction r as [|x r IH]; [done|]. simpl.
  by rewrite fdiv_1_r, IH.
Qed.

(** X9.  [EHNoWigglePoly._compute] leaves the raw array as it is and
    makes the smooth array equal to it at every wavenumber of the grid
    outside of the fitting range, which is [krange], divided by the
    sound-horizon ratio if [rescale_krange]. *)
Theorem EHNoWigglePoly_window_only (krange : F * F) (rescale_krange : bool)
    (st st' : PS.PSFilter) (m : mat F) :
  PS.pk st = A2 m -> mat_wf m ->
  PS.EHNoWigglePoly_compute krange rescale_krange st = Ok st' ->
  exists kr m',
    (if rescale_krange
     then exists r, PS.rs_drag_ratio st = Ok r /\
            kr = (fst krange / r, snd krange / r)%fl
     else kr = krange) /\
    PS.pk st' = A2 m /\ PS.pknow st' = Some (A2 m') /\
    forall i x, PS.k st !! i = Some x ->
      ((x >=? fst kr) && (x <=? snd kr))%fl = false ->
      rows m' !! i = rows m !! i.
Proof.
  intros Hpk Hwf Hc. unfold PS.EHNoWigglePoly_compute in Hc. inv_ok.
  match goal with Hp : PS.pk2d _ = Ok _ |- _ =>
    unfold PS.pk2d in Hp; rewrite Hpk in Hp; injection Hp as <- end.
  apply nowiggle_interpolator_computed in Ha3 as (_ & _ & _ & _ & _ & _ & Hpk0 & _).
  unfold PS.nd_div in Ha14. cbn [nd_binop] in Ha14. inv_ok.
  match goal with Hb : mat_binop fdiv m a11 = Ok ?c |- _ => rename c into m'; rename Hb into Hdiv end.
  apply mat_mask_assign_spec in Ha13 as (Hc11 & Hr11 & Hlen & Hout & _).
  rewrite nrow_mat_ones_like in Hr11, Hlen.
  exists a0, m'. split; [|split; [|split; [done|]]].
  - destruct rescale_krange; inv_ok; eauto.
  - cbn [PS.pk PS.with_pknow]. congruence.
  - intros i x Hx Hw.
    assert (map (fun x => (a0.1 <=? x)%fl && (x <=? a0.2)%fl) (PS.k st) !! i = Some false)
      as Hmask by (rewrite list_lookup_fmap, Hx; simpl; by rewrite Hw).
    specialize (Hout i Hmask).
    assert (i < nrow m)%nat as Hi.
    { rewrite <- Hlen, length_map. by eapply lookup_lt_Some. }
    destruct (lookup_lt_is_Some_2 (rows m) i Hi) as [ra Hra].
    assert (rows a11 !! i = Some (ones_like ra)) as Hrb.
    { rewrite Hout. unfold mat_ones_like. cbn [rows].
      by rewrite list_lookup_fmap, Hra. }
    rewrite (mat_binop_row _ _ _ _ i ra (ones_like ra) Hdiv) by done.
    apply shape_mat_binop in Hdiv as [_ Hcm]. rewrite Hc11 in Hcm.
    cbn [mat_ones_like ncol] in Hcm. rewrite Hcm, bmax_diag.
    assert (length ra = ncol m) as Hlra.
    { unfold mat_wf in Hwf. rewrite Forall_lookup in Hwf. by eapply Hwf. }
    rewrite !stretch_id by (unfold ones_like; by rewrite ?length_map).
    by rewrite zip_with_div_ones, Hra.
Qed.

End Windows.

Section Gap.
Context {F : Type} `{Float F, External F}.

(** X10.  Whatever the two windows and the rescaling,
    [Kirkby2013._compute] leaves the grid and the raw array as they are
    and makes the smooth array equal to the raw one at every separation
    that is not strictly between the end of the left window and the
    beginning of the right one. *)
Theorem Kirkby2013_gap_only (srange_left srange_right : F * F) (rescale_sbox : bool)
    (st st' : CF.XiFilter) (m : mat F) :
  CF.xi st = A2 m ->
  CF.Kirkby2013_compute srange_left srange_right rescale_sbox st = Ok st' ->
  exists l r m',
    CF.sranges srange_left srange_right rescale_sbox st = Ok (l, r) /\
    CF.s st' = CF.s st /\ CF.xi st' = A2 m /\ CF.xinow st' = Some (A2 m') /\
    forall i x, CF.s st !! i = Some x ->
      ((x >? snd l) && (x <? fst r))%fl = false ->
      rows m' !! i = rows m !! i.
Proof.
  intros Hxi Hc. unfold CF.Kirkby2013_compute in Hc. inv_ok.
  rewrite Hxi in *. cbn [nd_mask_assign] in Ha3. inv_ok.
  match goal with Hm : mat_mask_assign _ m _ = Ok ?m1 |- _ =>
    apply mat_mask_assign_spec in Hm as (_ & _ & _ & Hout & _);
    exists p, p0, m1 end.
  repeat split; try done.
  intros i x Hx Hw. apply Hout. rewrite (gap_mask_lookup _ _ _ _ _ Hx).
  by rewrite Hw.
Qed.

End Gap.

(** ** Re-invocation *)

Section Call.
Context {F : Type} `{Float F, External F}.

Lemma set_pk_frame st pk cosmo st' :
  PS.set_pk st pk cosmo = Ok st' ->
  PS.settings st' = PS.settings st /\ PS._cosmo_fid st' = PS._cosmo_fid st.
Proof. unfold PS.set_pk. intros Hs. inv_ok. done. Qed.

Lemma call_inv st pk cosmo st' :
  PS.__call__ st pk cosmo = Ok st' ->
  exists st1 st2,
    PS.set_pk st pk cosmo = Ok st1 /\ PS._compute st1 = Ok st2 /\
    PS.cls st' = PS.cls st2 /\ PS.settings st' = PS.settings st2 /\
    PS.k st' = PS.k st2 /\ PS.prepared st' = PS.prepared st2 /\
    PS._cosmo_fid st' = PS._cosmo_fid st2 /\
    PS.pk_interpolator st' = PS.pk_interpolator st2 /\
    PS.is2d st' = PS.is2d st2 /\ PS._cosmo st' = PS._cosmo st2.
Proof.
  unfold PS.__call__. intros Hcall. inv_ok.
  match goal with Hx : PS.set_pk _ _ _ = Ok ?s1, Hy : PS._compute ?s1 = Ok ?s2 |- _ =>
    exists s1, s2; split; [done|]; split; [done|];
    destruct (negb (PS.is2d s2)); inv_ok; done end.
Qed.

Lemma CF_compute_frame st st' :
  CF._compute st = Ok st' ->
  CF.cls st' = CF.cls st /\ CF.settings st' = CF.settings st /\
  CF.s st' = CF.s st /\ CF._cosmo_fid st' = CF._cosmo_fid st /\
  CF.xi_interpolator st' = CF.xi_interpolator st /\
  CF.is2d st' = CF.is2d st /\ CF._cosmo st' = CF._cosmo st.
Proof.
  unfold CF._compute. intros Hc.
  destruct (CF.cls st) eqn:Hcls, (CF.settings st) eqn:Hset; try discriminate.
  unfold CF.Kirkby2013_compute in Hc. inv_ok.
  cbn [CF.with_arrays CF.cls CF.settings CF.s CF._cosmo_fid CF.xi_interpolator
       CF.is2d CF._cosmo]. by rewrite Hcls, Hset.
Qed.

Lemma CF_call_inv st xi cosmo st' :
  CF.__call__ st xi cosmo = Ok st' ->
  CF.cls st' = CF.cls st /\ CF.settings st' = CF.settings st /\
  CF.s st' = CF.s st /\ CF._cosmo_fid st' = CF._cosmo_fid st /\
  CF.xi_interpolator st' = xi /\ CF.is2d st' = xi_isinstance2D xi /\
  CF._cosmo st' = cosmo.
Proof.
  unfold CF.__call__. intros Hcall. inv_ok.
  match goal with Hy : CF._compute _ = Ok ?s2 |- _ =>
    apply CF_compute_frame in Hy as (Hc & Hs & Hss & Hf & Hi & H2d & Hco);
    assert (CF.cls st' = CF.cls s2 /\ CF.settings st' = CF.settings s2 /\
            CF.s st' = CF.s s2 /\ CF._cosmo_fid st' = CF._cosmo_fid s2 /\
            CF.xi_interpolator st' = CF.xi_interpolator s2 /\
            CF.is2d st' = CF.is2d s2 /\ CF._cosmo st' = CF._cosmo s2)
      as (-> & -> & -> & -> & -> & -> & ->)
      by (destruct (negb (CF.is2d s2)); inv_ok; done)
  end.
  by rewrite Hc, Hs, Hss, Hf, Hi, H2d, Hco.
Qed.

(** X11.  A re-invocation keeps the class, the settings, the grid, the
    attributes set by [_prepare] and the fiducial cosmology of the
    instance; it stores the interpolator it is given and, as current
    cosmology, the argument [cosmo] (or [Cosmology()] where the engine
    reads the property [cosmo] and no argument was given). *)
Theorem call_frame :
  (forall st pk cosmo st', PS.__call__ st pk cosmo = Ok st' ->
     PS.cls st' = PS.cls st /\ PS.settings st' = PS.settings st /\
     PS.k st' = PS.k st /\ PS.prepared st' = PS.prepared st /\
     PS._cosmo_fid st' = PS._cosmo_fid st /\
     PS.pk_interpolator st' = pk /\ PS.is2d st' = pk_isinstance2D pk /\
     (PS._cosmo st' = cosmo \/
      cosmo = None /\ PS._cosmo st' = Some Cosmology_default)) /\
  (forall st xi cosmo st', CF.__call__ st xi cosmo = Ok st' ->
     CF.cls st' = CF.cls st /\ CF.settings st' = CF.settings st /\
     CF.s st' = CF.s st /\ CF._cosmo_fid st' = CF._cosmo_fid st /\
     CF.xi_interpolator st' = xi /\ CF.is2d st' = xi_isinstance2D xi /\
     CF._cosmo st' = cosmo).
Proof.
  split.
  - intros st pk cosmo st'
      (st1 & st2 & Hs & Hc & -> & -> & -> & -> & -> & -> & -> & ->)%call_inv.
    pose proof (set_pk_frame _ _ _ _ Hs) as (Hs1 & Hf1).
    apply set_pk_inv in Hs as (Hk & H2d & Hc1 & Hp1 & Hi1 & Hco1 & _).
    apply _compute_computed in Hc
      as (Hc2 & Hs2 & Hf2 & Hi2 & Hk2 & H2d2 & _ & Hp2 & Hco2).
    split; [congruence|]. split; [congruence|]. split; [congruence|].
    split; [congruence|]. split; [congruence|]. split; [congruence|].
    split; [congruence|].
    destruct Hco2 as [Hco2|[Hn Hco2]]; [left|right]; [|split]; congruence.
  - intros st xi cosmo st'. apply CF_call_inv.
Qed.

End Call.

(** ** The engines that need a fiducial cosmology *)

Section Fiducial.
Context {F : Type} `{Float F, External F}.

Lemma Forall_select {A} (P : A -> Prop) (mask : list bool) (l : list A) :
  Forall P l -> Forall P (select mask l).
Proof.
  intros Hl. revert mask. induction Hl as [|x l Hx _ IH]; intros [|[] mask]; simpl;
    try constructor; auto.
Qed.

Lemma take_idx_Ok {A} (ns : list nat) (l : list A) :
  Forall (fun n => (n < length l)%nat) ns ->
  exists v, PS.take_idx (map Z.of_nat ns) l = Ok v.
Proof.
  unfold PS.take_idx. induction 1 as [|n ns Hn _ [v IH]]; cbn [map mapR]; [eauto|].
  assert (norm_index (length l) (Z.of_nat n) = Ok n) as ->.
  { unfold norm_index. rewrite decide_True by lia. by rewrite Nat2Z.id. }
  step. destruct (lookup_lt_is_Some_2 l n Hn) as [x ->]. cbn [of_option]. step.
  rewrite IH. step. eauto.
Qed.

Lemma take_idx_flatnonzero {A} (mask : list bool) (l : list A) :
  length mask = length l ->
  exists v, PS.take_idx (map Z.of_nat (flatnonzero mask)) l = Ok v.
Proof.
  intros Hl. apply take_idx_Ok. unfold flatnonzero. apply Forall_select.
  rewrite <- Hl. apply list.Forall_forall. intros n Hn%elem_of_seq. lia.
Qed.

Lemma set_pk_same_Ok st pk cosmo : exists st', PS.set_pk st pk cosmo = Ok st'.
Proof.
  unfold PS.set_pk, PS.sample_pk. destruct pk; simpl; eauto.
Qed.

(** A cosmology that has no engine attached. *)
Lemma fid_interpolator_no_engine st :
  match PS._cosmo_fid st with None => True | Some f => _engine f = None end ->
  PS.fid_interpolator None true st = Err (CosmologyError "Please provide an engine").
Proof.
  unfold PS.fid_interpolator, PS.cosmo_fid, Fourier_pk_interpolator,
    _get_cosmology_engine.
  destruct (PS._cosmo_fid st) as [f|]; simpl; [intros ->|]; done.
Qed.

Lemma fid_ratio_no_engine st k_fid :
  match PS._cosmo_fid st with None => True | Some f => _engine f = None end ->
  PS.fid_ratio st k_fid = Err (CosmologyError "Please provide an engine").
Proof.
  intros Hf. unfold PS.fid_ratio. rewrite (fid_interpolator_no_engine _ Hf). done.
Qed.

Lemma prepare_no_engine st :
  PS.cls st = PS.Brieden2022PowerSpectrumBAOFilter \/
  PS.cls st = PS.PeakAveragePowerSpectrumBAOFilter ->
  match PS._cosmo_fid st with None => True | Some f => _engine f = None end ->
  PS._prepare st = Err (CosmologyError "Please provide an engine").
Proof.
  intros [Hc|Hc] Hf; unfold PS._prepare; rewrite Hc.
  - unfold PS.Brieden2022_prepare. rewrite vec_mask_Ok by (by rewrite length_map).
    step. by rewrite fid_ratio_no_engine.
  - unfold PS.PeakAverage_prepare.
    destruct (take_idx_flatnonzero
                (map (fun x => (x >=? lit 1e-4)%fl && (x <=? lit 1)%fl) (PS.k st))
                (PS.k st)) as [v ->]; [by rewrite length_map|].
    step. by rewrite fid_ratio_no_engine.
Qed.

(** X12.  Brieden2022 and PeakAverage cannot be constructed without a
    fiducial cosmology that has an engine: [_prepare] reads
    [Fourier(self.cosmo_fid)], and [Cosmology()], which stands in for a
    missing [cosmo_fid], has none.  Once the keyword arguments are
    accepted and the grid is made, the construction raises the
    [CosmologyError] of [_get_cosmology_engine]. *)
Theorem prepare_needs_fiducial_engine (c : PS.PowerSpectrumBAOFilterClass)
    (pk : PowerSpectrumInterpolator F) (kw : PS.Kwargs) :
  c = PS.Brieden2022PowerSpectrumBAOFilter \/
  c = PS.PeakAveragePowerSpectrumBAOFilter ->
  match PS.kw_cosmo_fid kw with None => True | Some f => _engine f = None end ->
  (forall st, PS.__init__ c pk kw <> Ok st) /\
  (forall settings k,
     PS.derived_init c kw = Ok settings ->
     PS.set_k pk (default 1024 (PS.kw_nk kw)) = Ok k ->
     PS.__init__ c pk kw = Err (CosmologyError "Please provide an engine")).
Proof.
  intros Hc Hf.
  assert (forall settings k,
     PS.derived_init c kw = Ok settings ->
     PS.set_k pk (default 1024 (PS.kw_nk kw)) = Ok k ->
     PS.__init__ c pk kw = Err (CosmologyError "Please provide an engine")) as Herr.
  { intros settings k Hd Hk. unfold PS.__init__. rewrite Hd, Hk. step.
    match goal with |- context [PS.set_pk ?s pk ?co] =>
      destruct (set_pk_same_Ok s pk co) as [st1 Hs];
      pose proof Hs as (_ & _ & Hc1 & _)%set_pk_inv;
      pose proof Hs as (_ & Hf1)%set_pk_frame;
      rewrite Hs end.
    step. rewrite prepare_no_engine; [done| |].
    - rewrite Hc1. exact Hc.
    - by rewrite Hf1. }
  split; [|done]. intros st Hinit.
  pose proof Hinit as (settings & k & _ & _ & Hd & Hk & _)%init_inv.
  rewrite (Herr _ _ Hd Hk) in Hinit. discriminate.
Qed.

End Fiducial.

(** ** The sound-horizon ratio of an instance *)

Section Ratio.
Context {F : Type} `{Float F, External F}.

Lemma fid_interpolator_set engine set_engine st f i st' :
  PS._cosmo_fid st = Some f ->
  PS.fid_interpolator engine set_engine st = Ok (i, st') -> st' = st.
Proof.
  unfold PS.fid_interpolator, PS.cosmo_fid. intros -> Hf. by inv_ok.
Qed.

Lemma fid_ratio_set st k_fid f ratio model st' :
  PS._cosmo_fid st = Some f ->
  PS.fid_ratio st k_fid = Ok (ratio, model, st') -> st' = st.
Proof.
  intros Hf. unfold PS.fid_ratio. rewrite except_TypeError_same. intros Hr. inv_ok.
  match goal with Hx : PS.fid_interpolator None _ st = Ok (_, ?s) |- _ =>
    apply (fid_interpolator_set _ _ _ f) in Hx; [subst s|done] end.
  match goal with Hx : PS.fid_interpolator (Some _) _ st = Ok (_, ?s) |- _ =>
    apply (fid_interpolator_set _ _ _ f) in Hx; [subst s|done] end.
  done.
Qed.

Lemma prepare_cosmo_fid st st' :
  PS._prepare st = Ok st' -> PS._cosmo_fid st' = PS._cosmo_fid st.
Proof.
  intros Hp.
  assert (PS.cls st = PS.Brieden2022PowerSpectrumBAOFilter \/
          PS.cls st = PS.PeakAveragePowerSpectrumBAOFilter ->
          PS._cosmo_fid st' = PS._cosmo_fid st) as Hprep.
  { intros Hc. destruct (PS._cosmo_fid st) as [f|] eqn:Hf.
    - unfold PS._prepare in Hp.
      destruct Hc as [Hc|Hc]; rewrite Hc in Hp;
        [unfold PS.Brieden2022_prepare in Hp|unfold PS.PeakAverage_prepare in Hp];
        inv_ok;
        match goal with Hx : PS.fid_ratio st _ = Ok (_, _, ?s) |- _ =>
          apply (fid_ratio_set _ _ f) in Hx; [subst s|done] end;
        by cbn [PS.with_prepared PS._cosmo_fid].
    - rewrite prepare_no_engine in Hp; [discriminate|done|by rewrite Hf]. }
  destruct (PS.cls st) eqn:Hcls; auto;
    unfold PS._prepare in Hp; rewrite Hcls in Hp; by inv_ok.
Qed.

Lemma compute_keeps_cosmo st st' :
  reads_no_cosmo (PS.cls st) = true ->
  PS._compute st = Ok st' -> PS._cosmo st' = PS._cosmo st.
Proof.
  intros Hc Hcomp. unfold PS._compute in Hcomp.
  destruct (PS.cls st); try discriminate.
  - destruct (PS.settings st); try discriminate.
    unfold PS.Hinton2017_compute in Hcomp. by inv_ok.
  - assert (PS.SavGol_compute st = Ok st') as Hs by (by destruct (PS.settings st)).
    unfold PS.SavGol_compute in Hs. by inv_ok.
  - assert (PS.Wallish2018_compute st = Ok st') as Hs by (by destruct (PS.settings st)).
    unfold PS.Wallish2018_compute in Hs. by inv_ok.
Qed.

Lemma init_cosmos c pk kw st :
  PS.__init__ c pk kw = Ok st ->
  PS._cosmo_fid st = PS.kw_cosmo_fid kw /\
  (PS._cosmo st = PS.kw_cosmo kw \/
   PS.kw_cosmo kw = None /\ PS._cosmo st = Some Cosmology_default) /\
  (reads_no_cosmo c = true -> PS._cosmo st = PS.kw_cosmo kw).
Proof.
  intros Hinit. pose proof (init_cls _ _ _ _ Hinit) as Hcls.
  apply init_inv in Hinit as (settings & k & m & st1 & _ & _ & _ & Hp & Hc).
  pose proof (prepare_cosmo_fid _ _ Hp) as Hf.
  pose proof (_prepare_was_prepared _ _ Hp) as (Hc1 & _ & Hco & _).
  pose proof (_compute_computed _ _ Hc) as (Hc2 & _ & Hf2 & _ & _ & _ & _ & _ & Hco2).
  cbn [PS.sampled PS._cosmo_fid PS._cosmo PS.cls] in *.
  split; [congruence|]. split.
  - destruct Hco2 as [Hco2|[Hn Hco2]]; [left|right]; [|split]; congruence.
  - intros Hr. rewrite (compute_keeps_cosmo st1 st); [done| |done]. by rewrite Hc1.
Qed.

Lemma call_cosmos st pk cosmo st' :
  PS.__call__ st pk cosmo = Ok st' ->
  PS._cosmo_fid st' = PS._cosmo_fid st /\
  (PS._cosmo st' = cosmo \/ cosmo = None /\ PS._cosmo st' = Some Cosmology_default) /\
  (reads_no_cosmo (PS.cls st) = true -> PS._cosmo st' = cosmo).
Proof.
  intros (st1 & st2 & Hs & Hc & _ & _ & _ & _ & Hf & _ & _ & Hco)%call_inv.
  pose proof (set_pk_frame _ _ _ _ Hs) as (_ & Hf1).
  pose proof (set_pk_inv _ _ _ _ Hs) as (_ & _ & Hc1 & _ & _ & Hco1 & _).
  pose proof (_compute_computed _ _ Hc) as (_ & _ & Hf2 & _ & _ & _ & _ & _ & Hco2).
  split; [congruence|]. split.
  - destruct Hco2 as [Hco2|[Hn Hco2]]; [left|right]; [|split]; congruence.
  - intros Hr. rewrite Hco, (compute_keeps_cosmo st1 st2); [done| |done].
    by rewrite Hc1.
Qed.

Lemma CF_init_cosmos c xi kw st :
  CF.__init__ c xi kw = Ok st ->
  CF._cosmo st = CF.kw_cosmo kw /\ CF._cosmo_fid st = CF.kw_cosmo_fid kw.
Proof.
  unfold CF.__init__. intros Hi. inv_ok.
  match goal with Hc : CF._compute _ = Ok _ |- _ =>
    apply CF_compute_frame in Hc as (_ & _ & _ & Hf & _ & _ & Hco) end.
  by rewrite Hco, Hf.
Qed.

(** X13.  Hinton2017, SavGol and Wallish2018 never read the property
    [cosmo], and no correlation-function filter does: on an instance of
    theirs constructed or re-invoked without current cosmology,
    [rs_drag_ratio] returns 1. *)
Theorem rs_drag_ratio_one :
  (forall c pk kw st, reads_no_cosmo c = true -> PS.kw_cosmo kw = None ->
     PS.__init__ c pk kw = Ok st -> PS.rs_drag_ratio st = Ok (lit 1)) /\
  (forall st pk st', reads_no_cosmo (PS.cls st) = true ->
     PS.__call__ st pk None = Ok st' -> PS.rs_drag_ratio st' = Ok (lit 1)) /\
  (forall c xi kw st, CF.kw_cosmo kw = None ->
     CF.__init__ c xi kw = Ok st -> CF.rs_drag_ratio st = Ok (lit 1)) /\
  (forall st xi st',
     CF.__call__ st xi None = Ok st' -> CF.rs_drag_ratio st' = Ok (lit 1)).
Proof.
  split; [|split; [|split]].
  - intros c pk kw st Hr Hkw (_ & _ & Hco)%init_cosmos.
    apply PS_rs_drag_ratio_unset. by rewrite Hco.
  - intros st pk st' Hr (_ & _ & Hco)%call_cosmos.
    apply PS_rs_drag_ratio_unset. auto.
  - intros c xi kw st Hkw (Hco & _)%CF_init_cosmos.
    apply CF_rs_drag_ratio_unset. by rewrite Hco.
  - intros st xi st' (_ & _ & _ & _ & _ & _ & Hco)%CF_call_inv.
    by apply CF_rs_drag_ratio_unset.
Qed.

(** X14.  On an instance constructed or re-invoked with a current
    cosmology, whatever the class, [rs_drag_ratio] is the [rs_drag] of
    that cosmology divided by the [rs_drag] of the fiducial cosmology
    of the instance, or by 100.91463132327911 if the instance has none;
    it raises what [get_thermodynamics] raises. *)
Theorem rs_drag_ratio_of_cosmologies :
  (forall c pk kw st cos,
     PS.__init__ c pk kw = Ok st -> PS.kw_cosmo kw = Some cos ->
     PS.rs_drag_ratio st =
       (rs_drag_fid ← match PS.kw_cosmo_fid kw with
                      | None => Ok (lit 100.91463132327911)
                      | Some f => get_thermodynamics_rs_drag f
                      end;
        rs_drag ← get_thermodynamics_rs_drag cos;
        Ok (rs_drag / rs_drag_fid)%fl)) /\
  (forall st pk cos st',
     PS.__call__ st pk (Some cos) = Ok st' ->
     PS.rs_drag_ratio st' =
       (rs_drag_fid ← match PS._cosmo_fid st with
                      | None => Ok (lit 100.91463132327911)
                      | Some f => get_thermodynamics_rs_drag f
                      end;
        rs_drag ← get_thermodynamics_rs_drag cos;
        Ok (rs_drag / rs_drag_fid)%fl)) /\
  (forall c xi kw st cos,
     CF.__init__ c xi kw = Ok st -> CF.kw_cosmo kw = Some cos ->
     CF.rs_drag_ratio st =
       (rs_drag_fid ← match CF.kw_cosmo_fid kw with
                      | None => Ok (lit 100.91463132327911)
                      | Some f => get_thermodynamics_rs_drag f
                      end;
        rs_drag ← get_thermodynamics_rs_drag cos;
        Ok (rs_drag / rs_drag_fid)%fl)) /\
  (forall st xi cos st',
     CF.__call__ st xi (Some cos) = Ok st' ->
     CF.rs_drag_ratio st' =
       (rs_drag_fid ← match CF._cosmo_fid st with
                      | None => Ok (lit 100.91463132327911)
                      | Some f => get_thermodynamics_rs_drag f
                      end;
        rs_drag ← get_thermodynamics_rs_drag cos;
        Ok (rs_drag / rs_drag_fid)%fl)).
Proof.
  split; [|split; [|split]].
  - intros c pk kw st cos (Hf & Hco & _)%init_cosmos Hkw.
    rewrite (PS_rs_drag_ratio_set st cos), Hf; [done|].
    destruct Hco as [Hco|[Hn _]]; congruence.
  - intros st pk cos st' (Hf & Hco & _)%call_cosmos.
    rewrite (PS_rs_drag_ratio_set st' cos), Hf; [done|].
    by destruct Hco as [Hco|[Hn _]].
  - intros c xi kw st cos (Hco & Hf)%CF_init_cosmos Hkw.
    rewrite (CF_rs_drag_ratio_set st cos), Hf; [done|]. congruence.
  - intros st xi cos st' (_ & _ & _ & Hf & _ & _ & Hco)%CF_call_inv.
    by rewrite (CF_rs_drag_ratio_set st' cos), Hf.
Qed.

End Ratio.

(** ** Keyword arguments and the base classes *)

Section Keywords.
Context {F : Type} `{Float F, External F, !Str}.

Lemma init_TypeError c pk kw :
  PS.derived_init c kw = Err TypeError -> PS.__init__ c pk kw = Err TypeError.
Proof. unfold PS.__init__. by intros ->. Qed.

(** X15.  A keyword argument of an engine is a [TypeError] for the
    engines that do not take it, whatever the interpolator: Hinton2017
    takes [degree], [sigma] and [weight] only, EHNoWigglePoly [krange],
    [krange_damp], [sigma_damp] and [rescale_krange] only, and the
    other classes none of the seven.  EHNoWigglePoly makes no use of
    [krange_damp] and [sigma_damp]. *)
Theorem engine_keywords (pk : PowerSpectrumInterpolator F) (kw : PS.Kwargs) :
  (PS.kw_krange kw <> None \/ PS.kw_krange_damp kw <> None \/
   PS.kw_sigma_damp kw <> None \/ PS.kw_rescale_krange kw <> None ->
   PS.__init__ PS.Hinton2017PowerSpectrumBAOFilter pk kw = Err TypeError) /\
  (PS.kw_degree kw <> None \/ PS.kw_sigma kw <> None \/ PS.kw_weight kw <> None ->
   PS.__init__ PS.EHNoWigglePolyPowerSpectrumBAOFilter pk kw = Err TypeError) /\
  (forall c,
     c <> PS.Hinton2017PowerSpectrumBAOFilter ->
     c <> PS.EHNoWigglePolyPowerSpectrumBAOFilter ->
     PS.kw_degree kw <> None \/ PS.kw_sigma kw <> None \/ PS.kw_weight kw <> None \/
     PS.kw_krange kw <> None \/ PS.kw_krange_damp kw <> None \/
     PS.kw_sigma_damp kw <> None \/ PS.kw_rescale_krange kw <> None ->
     PS.__init__ c pk kw = Err TypeError) /\
  (forall krange_damp sigma_damp,
     PS.__init__ PS.EHNoWigglePolyPowerSpectrumBAOFilter pk
       {| PS.kw_cosmo := PS.kw_cosmo kw; PS.kw_cosmo_fid := PS.kw_cosmo_fid kw;
          PS.kw_nk := PS.kw_nk kw; PS.kw_degree := PS.kw_degree kw;
          PS.kw_sigma := PS.kw_sigma kw; PS.kw_weight := PS.kw_weight kw;
          PS.kw_krange := PS.kw_krange kw; PS.kw_krange_damp := krange_damp;
          PS.kw_sigma_damp := sigma_damp;
          PS.kw_rescale_krange := PS.kw_rescale_krange kw |} =
     PS.__init__ PS.EHNoWigglePolyPowerSpectrumBAOFilter pk kw).
Proof.
  split; [|split; [|split]].
  - intros Hk. apply init_TypeError. unfold PS.derived_init.
    destruct (PS.kw_krange kw), (PS.kw_krange_damp kw), (PS.kw_sigma_damp kw),
      (PS.kw_rescale_krange kw); try done. intuition congruence.
  - intros Hk. apply init_TypeError. unfold PS.derived_init.
    destruct (PS.kw_degree kw), (PS.kw_sigma kw), (PS.kw_weight kw); try done.
    intuition congruence.
  - intros c Hh He Hk. apply init_TypeError. unfold PS.derived_init.
    assert (PS.engine_kwargs_absent kw = false) as ->.
    { unfold PS.engine_kwargs_absent.
      destruct (PS.kw_degree kw), (PS.kw_sigma kw), (PS.kw_weight kw),
        (PS.kw_krange kw), (PS.kw_krange_damp kw), (PS.kw_sigma_damp kw),
        (PS.kw_rescale_krange kw); try done. intuition congruence. }
    by destruct c.
  - done.
Qed.

(** X16.  The name ['base'] is registered, so that the factories look
    it up; but the base classes have no [_compute]: no filter is
    returned, and the construction raises an [AttributeError] once the
    grid is made. *)
Theorem factory_base (engine : string) :
  lower engine = "base" ->
  (forall pk kw st, PS.PowerSpectrumBAOFilter pk (Some engine) kw <> Ok st) /\
  (forall pk kw k,
     PS.engine_kwargs_absent kw = true ->
     PS.set_k pk (default 1024 (PS.kw_nk kw)) = Ok k ->
     PS.PowerSpectrumBAOFilter pk (Some engine) kw = Err AttributeError) /\
  (forall xi kw st, CF.CorrelationFunctionBAOFilter xi (Some engine) kw <> Ok st) /\
  (forall xi kw s,
     CF.derived_init CF.BaseCorrelationFunctionBAOFilter kw = Ok CF.NoSettings ->
     CF.set_s xi (default 1024 (CF.kw_ns kw)) = Ok s ->
     CF.CorrelationFunctionBAOFilter xi (Some engine) kw = Err AttributeError).
Proof.
  intros Hl.
  assert (forall pk kw, PS.PowerSpectrumBAOFilter pk (Some engine) kw =
            PS.__init__ PS.BasePowerSpectrumBAOFilter pk kw) as HPS.
  { intros pk kw. unfold PS.PowerSpectrumBAOFilter. simpl. rewrite Hl.
    by rewrite (proj2 (PS_registry_lookup "base" PS.BasePowerSpectrumBAOFilter)). }
  assert (forall xi kw, CF.CorrelationFunctionBAOFilter xi (Some engine) kw =
            CF.__init__ CF.BaseCorrelationFunctionBAOFilter xi kw) as HCF.
  { intros xi kw. unfold CF.CorrelationFunctionBAOFilter. simpl. rewrite Hl.
    by rewrite (proj2 (CF_registry_lookup "base" CF.BaseCorrelationFunctionBAOFilter)). }
  split; [|split; [|split]].
  - intros pk kw st. rewrite HPS. intros Hinit.
    pose proof (init_cls _ _ _ _ Hinit) as Hcls.
    apply init_inv in Hinit as (settings & k & m & st1 & _ & _ & _ & Hp & Hc).
    apply _prepare_was_prepared in Hp as (Hc1 & _).
    unfold PS._compute in Hc. rewrite Hc1 in Hc. cbn [PS.sampled PS.cls] in Hc.
    discriminate.
  - intros pk kw k Hkw Hk. rewrite HPS. unfold PS.__init__.
    cbn [PS.derived_init]. rewrite Hkw, Hk. step.
    match goal with |- context [PS.set_pk ?s pk ?co] =>
      destruct (set_pk_same_Ok s pk co) as [st1 Hs];
      pose proof Hs as (_ & _ & Hc1 & _)%set_pk_inv;
      rewrite Hs end.
    step. unfold PS._prepare. rewrite Hc1. cbn [PS.cls]. step.
    unfold PS._compute. by rewrite Hc1.
  - intros xi kw st. rewrite HCF. unfold CF.__init__. intros Hinit. inv_ok.
    match goal with Hc : CF._compute _ = Ok _ |- _ =>
      unfold CF._compute in Hc; cbn [CF.set_xi CF.cls] in Hc; discriminate end.
  - intros xi kw s Hd Hs. rewrite HCF. unfold CF.__init__. rewrite Hd, Hs. done.
Qed.

End Keywords.

(** ** Grids and shapes *)

Section GridShapes.
Context {F : Type} `{ExternalLaws F}.

Lemma sample_pk_2d (i : PowerSpectrumInterpolator2D F) (k : list F) (m : mat F) :
  PS.sample_pk true (PK2D i) (PK2D i) k = Ok m ->
  ncol m = length (pk_z i).
Proof. unfold PS.sample_pk. simpl. by intros [= <-]. Qed.

(** X17.  With a 2D interpolator the raw and the smooth arrays have a
    row per wavenumber (or separation) of the grid and a column per
    redshift of the interpolator, after a construction and after a
    re-invocation alike. *)
Theorem shape_2d_init_and_call :
  (forall c i kw st, PS.__init__ c (PK2D i) kw = Ok st ->
     exists a, PS.pknow st = Some a /\
       shape (PS.pk st) = [length (PS.k st); length (pk_z i)] /\
       shape a = [length (PS.k st); length (pk_z i)]) /\
  (forall st i cosmo st', PS.__call__ st (PK2D i) cosmo = Ok st' ->
     exists a, PS.pknow st' = Some a /\
       shape (PS.pk st') = [length (PS.k st'); length (pk_z i)] /\
       shape a = [length (PS.k st'); length (pk_z i)]) /\
  (forall c i kw st, CF.__init__ c (XI2D i) kw = Ok st ->
     exists a, CF.xinow st = Some a /\
       shape (CF.xi st) = [length (CF.s st); length (xi_z i)] /\
       shape a = [length (CF.s st); length (xi_z i)]) /\
  (forall st i cosmo st', CF.__call__ st (XI2D i) cosmo = Ok st' ->
     exists a, CF.xinow st' = Some a /\
       shape (CF.xi st') = [length (CF.s st'); length (xi_z i)] /\
       shape a = [length (CF.s st'); length (xi_z i)]).
Proof.
  split; [|split; [|split]].
  - intros c i kw st Hinit.
    pose proof (init_ok _ _ _ _ Hinit) as (_ & _ & m & a & Hpk & Hn & _ & Ha & Hs).
    apply init_inv in Hinit as (settings & k & m1 & st1 & _ & _ & Hsam & Hp & Hc).
    apply _prepare_was_prepared in Hp as (_ & _ & _ & _ & _ & _ & Hpk1 & _).
    apply _compute_computed in Hc as (_ & _ & _ & _ & _ & _ & Hpk2 & _).
    cbn [PS.sampled PS.pk pk_isinstance2D] in *.
    assert (m1 = m) as -> by congruence.
    apply sample_pk_2d in Hsam. exists a. rewrite Hpk, Hs. cbn [shape].
    by rewrite Hn, Hsam.
  - intros st i cosmo st' Hcall.
    pose proof (call_ok _ _ _ _ Hcall) as (Hk & H2d & a & Ha & Hs & _).
    unfold PS.__call__ in Hcall. inv_ok.
    match goal with Hx : PS.set_pk _ _ _ = Ok ?s1, Hy : PS._compute ?s1 = Ok ?s2 |- _ =>
      apply set_pk_inv in Hx as (Hk1 & H2d1 & _ & _ & _ & _ & m & Hpk & Hsam);
      apply _compute_computed in Hy as (_ & _ & _ & _ & Hk2 & H2d2 & Hpk2 & _);
      rewrite H2d2, H2d1 in Hcall; cbn [pk_isinstance2D negb] in Hcall;
      injection Hcall as <- end.
    pose proof (sample_pk_shape _ _ _ _ _ Hsam) as [Hn _].
    apply sample_pk_2d in Hsam. exists a. split; [done|].
    rewrite Hs, Hpk2, Hpk. cbn [shape]. by rewrite Hn, Hsam, Hk2, Hk1.
  - intros c i kw st Hinit.
    pose proof (CF_init_ok _ _ _ _ Hinit) as (_ & _ & m & a & Hxi & Hn & _ & Ha & Hs).
    unfold CF.__init__ in Hinit. inv_ok.
    match goal with Hc : CF._compute _ = Ok _ |- _ =>
      apply CF_compute_ok in Hc as (_ & _ & Hxi2 & _) end.
    cbn [CF.set_xi CF.xi] in Hxi2. rewrite Hxi in Hxi2. injection Hxi2 as ->.
    exists a. rewrite Hxi, Hs. cbn [shape xi_call2 ncol]. split; [done|].
    by rewrite Hn.
  - intros st i cosmo st' Hcall.
    pose proof (CF_call_ok _ _ _ _ Hcall) as (Hk & H2d & a & Ha & Hs & _).
    unfold CF.__call__ in Hcall. inv_ok.
    match goal with Hc : CF._compute _ = Ok ?s2 |- _ =>
      apply CF_compute_ok in Hc as (Hs2 & H2d2 & Hxi2 & _);
      rewrite H2d2 in Hcall; cbn [CF.set_xi CF.is2d xi_isinstance2D negb] in Hcall;
      injection Hcall as <- end.
    cbn [CF.set_xi CF.xi CF.s] in *.
    exists a. split; [done|]. rewrite Hs, Hxi2. cbn [shape xi_call2 ncol].
    unfold nrow, xi_call2. cbn [rows]. by rewrite length_map, Hs2.
Qed.

End GridShapes.

Section EndPoints.
Context {F : Type} `{Float F, External F}.

Lemma geomspace_end_points (start stop : F) (num : Z) (k : list F) :
  geomspace start stop num = Ok k ->
  ((start <? lit 0) && (stop <? lit 0))%fl = false ->
  length k = Z.to_nat num /\
  (1 <= num -> k !! 0%nat = Some start) /\
  (2 <= num -> k !! Z.to_nat (num - 1) = Some stop).
Proof.
  unfold geomspace. intros Hk Hneg.
  destruct (feqb start (lit 0) || feqb stop (lit 0)); [discriminate|].
  rewrite Hneg in Hk. cbn iota in Hk.
  destruct (linspace _ _ num) as [exps|] eqn:Hl; [|discriminate].
  assert (0 <= num) as Hnk.
  { unfold linspace in Hl. destruct (decide (num < 0)); [discriminate|lia]. }
  destruct (linspace_Ok (flog10 start) (flog10 stop) num Hnk) as (l & Hl' & Hlen).
  rewrite Hl in Hl'. injection Hl' as <-.
  cbn [mbind Result_bind] in Hk. injection Hk as <-.
  rewrite map_id. split; [|split].
  - repeat case_decide; rewrite ?length_insert, length_map; done.
  - intros H1. rewrite !(decide_True (P := 0 < num)) by lia. case_decide.
    + rewrite list_lookup_insert_ne by lia.
      apply list_lookup_insert_eq. rewrite length_map. lia.
    + apply list_lookup_insert_eq. rewrite length_map. lia.
  - intros H2. rewrite (decide_True (P := 1 < num)), (decide_True (P := 0 < num)) by lia.
    apply list_lookup_insert_eq. rewrite length_insert, length_map. lia.
Qed.

(** X18.  The grid [set_k] (or [set_s]) returns has as many entries as
    asked for; when the two bounds are not both negative, the first
    entry is the lower bound of the interpolator itself and, from two
    entries on, the last entry is the upper bound itself. *)
Theorem set_k_end_points :
  (forall pk nk k, PS.set_k pk nk = Ok k ->
     ((extrap_kmin pk <? lit 0) && (extrap_kmax pk <? lit 0))%fl = false ->
     length k = Z.to_nat nk /\
     (1 <= nk -> k !! 0%nat = Some (extrap_kmin pk)) /\
     (2 <= nk -> k !! Z.to_nat (nk - 1) = Some (extrap_kmax pk))) /\
  (forall xi ns s, CF.set_s xi ns = Ok s ->
     ((extrap_smin xi <? lit 0) && (extrap_smax xi <? lit 0))%fl = false ->
     length s = Z.to_nat ns /\
     (1 <= ns -> s !! 0%nat = Some (extrap_smin xi)) /\
     (2 <= ns -> s !! Z.to_nat (ns - 1) = Some (extrap_smax xi))).
Proof.
  split; [intros pk nk k|intros xi ns s]; apply geomspace_end_points.
Qed.

(** X19.  SavGol reads the last two wavenumbers of the grid: on a grid
    of one wavenumber ([nk=1]) its construction raises an
    [IndexError]. *)
Theorem SavGol_short_grid (pk : PowerSpectrumInterpolator F) (kw : PS.Kwargs)
    (k : list F) :
  PS.engine_kwargs_absent kw = true ->
  PS.set_k pk (default 1024 (PS.kw_nk kw)) = Ok k -> length k = 1%nat ->
  PS.__init__ PS.SavGolPowerSpectrumBAOFilter pk kw = Err IndexError.
Proof.
  intros Hkw Hk Hlen. unfold PS.__init__. cbn [PS.derived_init]. rewrite Hkw, Hk. step.
  match goal with |- context [PS.set_pk ?s pk ?co] =>
    destruct (set_pk_same_Ok s pk co) as [st1 Hs];
    pose proof Hs as (Hk1 & _ & Hc1 & _ & _ & _ & m & Hpk & _)%set_pk_inv;
    rewrite Hs end.
  step. unfold PS._prepare. rewrite Hc1. cbn [PS.cls]. step.
  unfold PS._compute. rewrite Hc1. cbn [PS.cls].
  unfold PS.SavGol_compute, PS.pk2d. rewrite Hpk. step.
  unfold PS.SavGol_nfilter, vec_get, norm_index. rewrite Hk1. cbn [PS.k].
  destruct k as [|x [|y k]]; try discriminate Hlen. reflexivity.
Qed.

End EndPoints.

(** ** The stand-ins obey the laws *)

(** The rationals obey the laws of the arithmetic. *)
Lemma Qc_ltb_lt (x y : Qc) : Demo.Qc_ltb x y = true <-> (x < y)%Qc.
Proof.
  unfold Demo.Qc_ltb. rewrite negb_true_iff, <- not_true_iff_false, Qle_bool_iff.
  split; [apply Qnot_le_lt | apply Qlt_not_le].
Qed.

Lemma Qc_eqb_eq (x y : Qc) : Demo.Qc_eqb x y = true <-> x = y.
Proof.
  unfold Demo.Qc_eqb. rewrite Qeq_bool_iff. split; [apply Qc_is_canon | by intros ->].
Qed.

Lemma Qc_FloatLaws : FloatLaws Qc.
Proof.
  split; simpl.
  - intros x. ring.
  - intros x. field. discriminate.
  - ring.
  - intros x. ring.
  - intros x. ring.
  - intros x y Hle. unfold Demo.Qc_leb in Hle. unfold Demo.Qc_ltb. by rewrite Hle.
  - intros x y Hlt. unfold Demo.Qc_ltb in Hlt. unfold Demo.Qc_leb.
    by apply negb_true_iff in Hlt.
  - intros x y Hlt. apply Qc_ltb_lt in Hlt. apply not_true_iff_false.
    rewrite Qc_ltb_lt. intros Hgt. by apply (Qclt_not_le _ _ Hlt), Qclt_le_weak.
  - intros x y z. rewrite !Qc_ltb_lt. apply Qclt_trans.
  - split; reflexivity.
Qed.

(** The stand-ins obey what is taken from scipy. *)
Lemma increasing_lt (a : Qc) (x : list Qc) (j : nat) (v : Qc) :
  Demo.increasing (a :: x) = true -> x !! j = Some v -> (a < v)%Qc.
Proof.
  revert a j. induction x as [|b x IH]; intros a j Hinc Hj; [done|].
  simpl in Hinc. apply andb_true_iff in Hinc as [Hab Hinc].
  apply Qc_ltb_lt in Hab. destruct j as [|j]; simpl in Hj.
  - by injection Hj as <-.
  - eapply Qclt_trans; [exact Hab|]. by eapply IH.
Qed.

Lemma increasing_tail (a : Qc) (x : list Qc) :
  Demo.increasing (a :: x) = true -> Demo.increasing x = true.
Proof.
  destruct x as [|b x]; [done|]. simpl. by intros [_ ?]%andb_true_iff.
Qed.

Lemma table_row_knot (c : nat) (x : list Qc) (rs : list (list Qc)) (j : nat) (v : Qc) :
  Demo.increasing x = true -> length rs = length x -> x !! j = Some v ->
  Some (Demo.table_row c x rs v) = rs !! j.
Proof.
  revert rs j. induction x as [|a x IH]; intros [|r rs] j Hinc Hl Hj; try done.
  injection Hl as Hl. destruct j as [|j]; simpl in *.
  - injection Hj as ->. by rewrite (proj2 (Qc_eqb_eq v v) eq_refl).
  - pose proof (increasing_lt _ _ _ _ Hinc Hj) as Hlt.
    destruct (Demo.Qc_eqb a v) eqn:He.
    + apply Qc_eqb_eq in He. subst. by apply Qclt_not_eq in Hlt.
    + apply IH; [by eapply increasing_tail|done|done].
Qed.

Lemma Demo_ExternalLaws : ExternalLaws Qc.
Proof.
  split; simpl.
  - by intros x w p y [= <-].
  - intros x m sp xs nu out. unfold Demo.demo_CubicSpline, Demo.demo_spline_call.
    destruct (Demo.increasing x); [|discriminate].
    case_decide; [|discriminate]. intros [= <-]. simpl.
    destruct nu; intros [= <-]; unfold shape, nrow; simpl; by rewrite length_map.
  - intros x m sp xs out. unfold Demo.demo_CubicSpline, Demo.demo_spline_call.
    destruct (Demo.increasing x) eqn:Hinc; [|discriminate].
    case_decide as Hl; [|discriminate]. intros [= <-]. simpl. intros [= <-].
    intros i j v Hi Hj. simpl. rewrite list_lookup_fmap, Hi. simpl.
    by apply table_row_knot.
  - intros x y kind f xs out. unfold Demo.demo_interp1d, Demo.demo_interp1d_call.
    destruct y as [?|v|m]; [discriminate| |]; case_decide; try discriminate;
      intros [= <-] [= <-]; unfold shape, nrow; simpl; by rewrite length_map.
Qed.

Lemma Demo_StrLaws : StrLaws.
Proof. by split. Qed.

#[local] Existing Instance Qc_FloatLaws.
#[local] Existing Instance Demo_ExternalLaws.
#[local] Existing Instance Demo_StrLaws.

(** ** The theorems on concrete inputs *)

(** Run [r], which returns, and name its result. *)
Ltac run r st Hst :=
  let Ht := fresh in
  assert (Ht : match r with Ok _ => true | Err _ => false end = true)
    by (vm_compute; reflexivity);
  destruct r as [st|] eqn:Hst; [clear Ht | discriminate Ht].

Lemma rs_drag_ratio_after_EHNoWigglePoly_witness :
  exists st,
    PS.__init__ PS.EHNoWigglePolyPowerSpectrumBAOFilter Demo.pk1 (Demo.kwargs_nk 8)
      = Ok st /\
    PS._cosmo st = Some Cosmology_default /\
    PS.rs_drag_ratio st = Err (CosmologyError "Please provide an engine").
Proof.
  run (PS.__init__ PS.EHNoWigglePolyPowerSpectrumBAOFilter Demo.pk1
         (Demo.kwargs_nk 8)) st Hst.
  exists st. split; [reflexivity|].
  destruct (rs_drag_ratio_after_EHNoWigglePoly Demo.pk1 (Demo.kwargs_nk 8) st
              eq_refl Hst) as (Hc & _ & Hr).
  split; [exact Hc | exact (Hr eq_refl)].
Defined.

Lemma Kirkby2013_fill_witness :
  exists st' m',
    CF.Kirkby2013_compute (lit 50, lit 82) (lit 150, lit 190) true Demo.st_xi = Ok st' /\
    CF.xinow st' = Some (A2 m') /\
    rows m' !! 0%nat = Some [Q2Qc 3] /\
    rows m' !! 1%nat = Some [Q2Qc 6] /\
    rows m' !! 2%nat = Some [CF.poly (Demo.zeros 5) (Q2Qc 100)] /\
    rows m' !! 3%nat = Some [Q2Qc 17] /\
    rows m' !! 4%nat = Some [Q2Qc 25].
Proof.
  destruct (Kirkby2013_fill Demo.st_xi Demo.xi_col Demo.fit_params true
              (CF.model [Q2Qc 60; Q2Qc 170], None)
              (CF.model [Q2Qc 60; Q2Qc 170], Some (A2 Demo.fit_params)))
    as (st' & m' & Hc & _ & _ & Hx & _ & _ & Hrows);
    [reflexivity | reflexivity | reflexivity | vm_compute; reflexivity
    | vm_compute; reflexivity | reflexivity | reflexivity |].
  exists st', m'. split; [exact Hc|]. split; [exact Hx|].
  split; [apply (Hrows 0%nat (Q2Qc 30) eq_refl); left; reflexivity|].
  split; [apply (Hrows 1%nat (Q2Qc 60) eq_refl); left; reflexivity|].
  split; [apply (Hrows 2%nat (Q2Qc 100) eq_refl); reflexivity|].
  split; [apply (Hrows 3%nat (Q2Qc 170) eq_refl); right; left; reflexivity|].
  apply (Hrows 4%nat (Q2Qc 250) eq_refl); right; left; reflexivity.
Defined.

Lemma set_k_no_range_check_witness :
  exists k, PS.set_k Demo.pk1 8 = Ok k /\ length k = 8%nat.
Proof.
  apply (proj1 (set_k_no_range_check Demo.pk1 8)); [lia | reflexivity | reflexivity].
Defined.

(** A range of no span is taken: [set_k] gives its grid and the
    construction goes through. *)
Lemma degenerate_range_accepted :
  (extrap_kmin Demo.pk_deg >=? extrap_kmax Demo.pk_deg)%fl = true /\
  (exists k, PS.set_k Demo.pk_deg 4 = Ok k /\ length k = 4%nat) /\
  exists st,
    PS.__init__ PS.Hinton2017PowerSpectrumBAOFilter Demo.pk_deg (Demo.kwargs_nk 4)
      = Ok st.
Proof.
  split; [reflexivity|]. split.
  - apply geomspace_Ok; [lia | reflexivity | reflexivity].
  - run (PS.__init__ PS.Hinton2017PowerSpectrumBAOFilter Demo.pk_deg
           (Demo.kwargs_nk 4)) st Hst.
    by exists st.
Qed.

Lemma factory_lookup_witness :
  PS.PowerSpectrumBAOFilter Demo.pk1 (Some "Planck") Demo.no_kwargs =
    Err (ValueError "Power spectrum BAO filter planck is unknown")
  /\ CF.CorrelationFunctionBAOFilter Demo.xi1 (Some "Planck") (Demo.xi_kwargs 8) =
    Err (ValueError "Correlation function BAO filter planck is unknown")
  /\ PS.PowerSpectrumBAOFilter Demo.pk1 (Some "SavGol") (Demo.kwargs_nk 8) =
    PS.__init__ PS.SavGolPowerSpectrumBAOFilter Demo.pk1 (Demo.kwargs_nk 8)
  /\ CF.CorrelationFunctionBAOFilter Demo.xi1 (Some "KIRKBY2013") (Demo.xi_kwargs 8) =
    CF.__init__ CF.Kirkby2013CorrelationFunctionBAOFilter Demo.xi1 (Demo.xi_kwargs 8).
Proof.
  destruct (factory_lookup (F:=Qc) "Planck") as (H1 & _ & _ & _ & Ha).
  destruct (Ha eq_refl) as (_ & H2 & _).
  destruct (factory_lookup (F:=Qc) "SavGol") as (_ & _ & H3 & _).
  destruct (factory_lookup (F:=Qc) "KIRKBY2013") as (_ & _ & _ & _ & Hb).
  destruct (Hb eq_refl) as (_ & _ & _ & H4).
  split; [|split; [|split]].
  - apply H1. intros []; discriminate.
  - apply H2. intros []; discriminate.
  - apply H3. reflexivity.
  - apply H4. reflexivity.
Defined.

Lemma forallb_self_ratio (row : list Qc) :
  forallb (fun y => feqb (y / y)%fl (lit 1)) row = true ->
  Forall (fun y => (y / y)%fl = lit 1) row.
Proof.
  induction row as [|y row IH]; simpl; [constructor|].
  intros [Hy Hrow]%andb_true_iff. constructor; [by apply Qc_eqb_eq | by apply IH].
Qed.

Lemma Wallish2018_tails_raw_witness :
  exists st a x row,
    PS.__init__ PS.Wallish2018PowerSpectrumBAOFilter Demo.pk1 (Demo.kwargs_nk 8)
      = Ok st /\
    PS.pknow st = Some a /\
    PS.k st !! 0%nat = Some x /\ (x <? lit 5e-4)%fl = true /\
    nd_row (PS.pk st) 0 = Some row /\ nd_row a 0 = Some row.
Proof.
  assert (match PS.__init__ PS.Wallish2018PowerSpectrumBAOFilter Demo.pk1
                  (Demo.kwargs_nk 8) with
          | Ok st =>
              match PS.k st !! 0%nat, nd_row (PS.pk st) 0 with
              | Some x, Some row =>
                  (x <? lit 5e-4)%fl && forallb (fun y => feqb (y / y)%fl (lit 1)) row
              | _, _ => false
              end
          | Err _ => false
          end = true) as Ht by (vm_compute; reflexivity).
  destruct (PS.__init__ _ _ _) as [st|] eqn:Hst; [|discriminate Ht].
  destruct (PS.k st !! 0%nat) as [x|] eqn:Hx; [|discriminate Ht].
  destruct (nd_row (PS.pk st) 0) as [row|] eqn:Hrow; [|discriminate Ht].
  apply andb_true_iff in Ht as [Hlt Hall].
  destruct (Wallish2018_tails_raw st (PS.reachable_init _ _ _ _ Hst)
              (init_cls _ _ _ _ Hst)) as (a & Ha & Hrows).
  exists st, a, x, row.
  split; [reflexivity|]. split; [exact Ha|]. split; [exact Hx|].
  split; [exact Hlt|]. split; [exact Hrow|].
  exact (Hrows 0%nat x row Hx (or_introl Hlt) Hrow (forallb_self_ratio row Hall)).
Defined.

Lemma Brieden2022_window_only_witness :
  exists st a interp kk vals x0 x1,
    PS.__init__ PS.Brieden2022PowerSpectrumBAOFilter Demo.pk1 (Demo.kwargs_fid 16)
      = Ok st /\
    PS.pknow st = Some a /\
    pk_clone (PS.pk_interpolator st) kk vals = Ok interp /\
    PS.k st !! 0%nat = Some x0 /\ (x0 <? lit 1e-3)%fl = true /\
    PS.k st !! 1%nat = Some x1 /\
    (x1 >=? lit 1e-3)%fl = true /\ (x1 <=? lit 1)%fl = true /\
    nd_row a 0 = nd_row (PS.pk st) 0 /\
    nd_row a 1 = PS.smooth_row st interp x1.
Proof.
  assert (match PS.__init__ PS.Brieden2022PowerSpectrumBAOFilter Demo.pk1
                  (Demo.kwargs_fid 16) with
          | Ok st =>
              match PS.k st !! 0%nat, PS.k st !! 1%nat with
              | Some x0, Some x1 =>
                  (x0 <? lit 1e-3)%fl && ((x1 >=? lit 1e-3)%fl && (x1 <=? lit 1)%fl)
              | _, _ => false
              end
          | Err _ => false
          end = true) as Ht by (vm_compute; reflexivity).
  destruct (PS.__init__ _ _ _) as [st|] eqn:Hst; [|discriminate Ht].
  destruct (PS.k st !! 0%nat) as [x0|] eqn:Hx0; [|discriminate Ht].
  destruct (PS.k st !! 1%nat) as [x1|] eqn:Hx1; [|discriminate Ht].
  apply andb_true_iff in Ht as [Hlt Ht]. apply andb_true_iff in Ht as [Hge Hle].
  destruct (Brieden2022_window_only st (PS.reachable_init _ _ _ _ Hst)
              (init_cls _ _ _ _ Hst)) as (a & interp & kk & vals & Ha & Hi & Hrows).
  exists st, a, interp, kk, vals, x0, x1.
  split; [reflexivity|]. split; [exact Ha|]. split; [exact Hi|].
  split; [exact Hx0|]. split; [exact Hlt|]. split; [exact Hx1|].
  split; [exact Hge|]. split; [exact Hle|].
  split; [exact (proj1 (Hrows 0%nat x0 Hx0) (or_introl Hlt))
         | exact (proj2 (Hrows 1%nat x1 Hx1) Hge Hle)].
Defined.


Lemma shape_and_grid_kept_witness :
  exists st st' a a',
    PS.__init__ PS.SavGolPowerSpectrumBAOFilter Demo.pk2 (Demo.kwargs_nk 8) = Ok st /\
    PS.__call__ st Demo.pk1 None = Ok st' /\
    PS.set_k Demo.pk2 8 = Ok (PS.k st) /\ PS.k st' = PS.k st /\
    PS.pknow st = Some a /\ shape a = shape (PS.pk st) /\
    PS.pknow st' = Some a' /\ shape a' = shape (PS.pk st').
Proof.
  run (st ← PS.__init__ PS.SavGolPowerSpectrumBAOFilter Demo.pk2 (Demo.kwargs_nk 8);
       st' ← PS.__call__ st Demo.pk1 None; Ok (st, st')) p Hp.
  apply bind_Ok in Hp as (st & Hinit & Hp).
  apply bind_Ok in Hp as (st' & Hcall & _).
  destruct shape_and_grid_kept as (Hi & Hc & _).
  destruct (Hi _ _ _ _ Hinit) as (Hk & a & Ha & Hs).
  destruct (Hc _ _ _ _ Hcall) as (Hk' & a' & Ha' & Hs').
  exists st, st', a, a'. auto 10.
Defined.

Lemma wiggles_elementwise_witness :
  exists w, PS.wiggles Demo.st_flat = (Ok w, Demo.st_flat) /\
    shape w = shape (PS.pk Demo.st_flat) /\
    forall ix, nd_get w ix =
      (x ← nd_get (PS.pk Demo.st_flat) ix;
       y ← nd_get (A1 [Q2Qc 3; Q2Qc 2]) ix; Some (x / y)%fl).
Proof.
  apply (wiggles_elementwise Demo.st_flat (A1 [Q2Qc 3; Q2Qc 2]));
    [reflexivity | reflexivity | exact I | exact I].
Defined.

Lemma shape_1d_init_and_call_witness :
  exists st st' a a',
    CF.__init__ CF.Kirkby2013CorrelationFunctionBAOFilter Demo.xi1 (Demo.xi_kwargs 8)
      = Ok st /\
    CF.__call__ st Demo.xi1 None = Ok st' /\
    CF.xinow st = Some a /\ shape a = [length (CF.s st); 1%nat] /\
    CF.xinow st' = Some a' /\ shape a' = [length (CF.s st')].
Proof.
  run (st ← CF.__init__ CF.Kirkby2013CorrelationFunctionBAOFilter Demo.xi1
              (Demo.xi_kwargs 8);
       st' ← CF.__call__ st Demo.xi1 None; Ok (st, st')) p Hp.
  apply bind_Ok in Hp as (st & Hinit & Hp).
  apply bind_Ok in Hp as (st' & Hcall & _).
  destruct shape_1d_init_and_call as (_ & _ & Hi & Hc).
  unfold Demo.xi1 in Hinit, Hcall.
  destruct (Hi _ _ _ _ Hinit) as (a & Ha & _ & Hs).
  destruct (Hc _ _ _ _ Hcall) as (a' & Ha' & _ & Hs').
  exists st, st', a, a'. auto 10.
Defined.

(** ** The other properties on concrete inputs *)

Lemma find_conflicts_classes_witness :
  find_conflicts "H0" = find_conflicts "h" /\ "h" ∈ find_conflicts "h" /\
  "h" ∈ find_conflicts "H0".
Proof.
  apply (find_conflicts_classes "h" "H0"). apply (bool_decide_unpack _). exact I.
Defined.

Lemma check_params_spec_witness :
  (forall a b : string, a ∈ ["h"; "sigma8"] -> b ∈ ["h"; "sigma8"] -> a <> b ->
     b ∉ find_conflicts a) /\
  exists i name others,
    ["h"; "sigma8"; "H0"; "A_s"] !! i = Some name /\ others <> [] /\
    CosmologyError "Conflicting parameters are given: ['h', 'H0']" =
    CosmologyError ("Conflicting parameters are given: " +:+ repr_names (name :: others)).
Proof.
  split.
  - exact (proj1 (proj1 (check_params_spec [("h", 1); ("sigma8", 2)])) eq_refl).
  - destruct (proj2 (check_params_spec [("h", 1); ("sigma8", 2); ("H0", 3); ("A_s", 4)])
                _ eq_refl) as (i & name & others & Hi & Ho & _ & _ & He).
    exists i, name, others. auto.
Defined.

Lemma merge_params_lookup_witness :
  dict_get "x" (merge_params [("h", 1); ("sigma8", 2); ("x", 7)]
                             [("H0", 3); ("x", 9); ("y", 0)]) = Some 9 /\
  dict_get "h" (merge_params [("h", 1); ("sigma8", 2); ("x", 7)]
                             [("H0", 3); ("x", 9); ("y", 0)]) = None /\
  dict_get "sigma8" (merge_params [("h", 1); ("sigma8", 2); ("x", 7)]
                                  [("H0", 3); ("x", 9); ("y", 0)]) = Some 2.
Proof.
  assert (NoDup (keys [("h", 1); ("sigma8", 2); ("x", 7)])) as Ha
    by (apply (bool_decide_unpack _); exact I).
  assert (NoDup (keys [("H0", 3); ("x", 9); ("y", 0)])) as Hm
    by (apply (bool_decide_unpack _); exact I).
  split; [|split].
  - apply (merge_params_lookup _ _ "x" Ha Hm). reflexivity.
  - apply (merge_params_lookup _ _ "h" Ha Hm); [reflexivity|].
    exists "H0". split; apply (bool_decide_unpack _); exact I.
  - apply (merge_params_lookup _ _ "sigma8" Ha Hm); [reflexivity|].
    intros name Hname. apply (bool_decide_unpack _).
    repeat (apply elem_of_cons in Hname as [->|Hname]; [exact I|]).
    by apply not_elem_of_nil in Hname.
Defined.

Lemma merge_params_checked_witness :
  check_params (merge_params [("h", 1); ("sigma8", 2); ("x", 7)]
                             [("H0", 3); ("x", 9); ("y", 0)]) = Ok tt.
Proof.
  apply merge_params_checked; [|reflexivity|reflexivity].
  apply (bool_decide_unpack _). exact I.
Defined.

Lemma include_conflicts_aliases_witness :
  exists params',
    _include_conflicts [("h", 1); ("tau_reio", 2); ("x", 7)] = Some params' /\
    dict_get "H0" params' = Some 1 /\ dict_get "z_reio" params' = Some 2 /\
    dict_get "x" params' = Some 7.
Proof.
  destruct (include_conflicts_aliases [("h", 1); ("tau_reio", 2); ("x", 7)])
    as (p' & Hp' & _ & Hal & Hk & _); [apply (bool_decide_unpack _); exact I|reflexivity|].
  exists p'. split; [exact Hp'|]. split; [|split].
  - apply (Hal "h" "H0"); apply (bool_decide_unpack _); exact I.
  - apply (Hal "tau_reio" "z_reio"); apply (bool_decide_unpack _); exact I.
  - apply (Hk "x"). apply (bool_decide_unpack _). exact I.
Defined.

Lemma get_default_parameters_spec_witness :
  get_default_parameters (Some "planck") true =
  Err (CosmologyError "No default parameters for planck").
Proof.
  apply (proj1 get_default_parameters_spec "planck" true); discriminate.
Defined.

Lemma Cosmology_merged_params_spec_witness :
  exists d, Cosmology_merged_params [("H0", VFloat 70); ("A_s", VFloat 2)] = Ok d /\
    check_params d = Ok tt /\
    dict_get "H0" d = Some (VFloat 70) /\ dict_get "h" d = None /\
    dict_get "n_s" d = Some (VFloat 0.96).
Proof.
  destruct (Cosmology_merged_params_spec [("H0", VFloat 70); ("A_s", VFloat 2)])
    as [_ Hspec]; [apply (bool_decide_unpack _); exact I|].
  destruct (Hspec eq_refl) as (d & Hd & Hc & _ & Hin & Hdrop & Hkeep).
  exists d. split; [exact Hd|]. split; [exact Hc|]. split; [|split].
  - apply Hin. reflexivity.
  - apply Hdrop; [reflexivity|]. exists "H0". split; apply (bool_decide_unpack _); exact I.
  - rewrite Hkeep; [reflexivity|reflexivity|].
    intros name Hname. apply (bool_decide_unpack _).
    repeat (apply elem_of_cons in Hname as [->|Hname]; [exact I|]).
    by apply not_elem_of_nil in Hname.
Defined.

Lemma Hinton2017_window_only_witness :
  exists st a x,
    PS.__init__ PS.Hinton2017PowerSpectrumBAOFilter Demo.pk1 (Demo.kwargs_nk 8) = Ok st /\
    PS.pknow st = Some a /\ PS.k st !! 0%nat = Some x /\
    ((x >? lit 1e-4) && (x <? lit 5))%fl = false /\
    nd_row a 0 = nd_row (PS.pk st) 0.
Proof.
  assert (match PS.__init__ PS.Hinton2017PowerSpectrumBAOFilter Demo.pk1
                  (Demo.kwargs_nk 8) with
          | Ok st => match PS.k st !! 0%nat with
                     | Some x => negb ((x >? lit 1e-4) && (x <? lit 5))%fl
                     | None => false
                     end
          | Err _ => false
          end = true) as Ht by (vm_compute; reflexivity).
  destruct (PS.__init__ _ _ _) as [st|] eqn:Hst; [|discriminate Ht].
  destruct (PS.k st !! 0%nat) as [x|] eqn:Hx; [|discriminate Ht].
  apply negb_true_iff in Ht.
  destruct (Hinton2017_window_only st (PS.reachable_init _ _ _ _ Hst)
              (init_cls _ _ _ _ Hst)) as (a & Ha & Hrows).
  exists st, a, x. split; [reflexivity|]. split; [exact Ha|]. split; [exact Hx|].
  split; [exact Ht|]. exact (Hrows 0%nat x Hx Ht).
Defined.

Lemma EHNoWigglePoly_window_only_witness :
  exists st' m',
    PS.EHNoWigglePoly_compute (Q2Qc 1, Q2Qc 4) false Demo.st_sampled = Ok st' /\
    PS.pknow st' = Some (A2 m') /\
    rows m' !! 3%nat = Some [Q2Qc 10] /\ rows m' !! 5%nat = Some [Q2Qc 34].
Proof.
  run (PS.EHNoWigglePoly_compute (Q2Qc 1, Q2Qc 4) false Demo.st_sampled) st' Hst'.
  destruct (EHNoWigglePoly_window_only (Q2Qc 1, Q2Qc 4) false Demo.st_sampled st'
              Demo.pk_col) as (kr & m' & -> & _ & Hm' & Hrows);
    [reflexivity | repeat constructor | exact Hst' |].
  exists st', m'. split; [reflexivity|]. split; [exact Hm'|].
  split; [exact (Hrows 3%nat (Q2Qc 8) eq_refl eq_refl)
         | exact (Hrows 5%nat (Q2Qc 32) eq_refl eq_refl)].
Defined.

Lemma Kirkby2013_gap_only_witness :
  exists st' m',
    CF.Kirkby2013_compute (Q2Qc 40, Q2Qc 70) (Q2Qc 160, Q2Qc 200) true Demo.st_xi
      = Ok st' /\
    CF.xinow st' = Some (A2 m') /\
    rows m' !! 0%nat = Some [Q2Qc 3] /\ rows m' !! 1%nat = Some [Q2Qc 6] /\
    rows m' !! 3%nat = Some [Q2Qc 17].
Proof.
  run (CF.Kirkby2013_compute (Q2Qc 40, Q2Qc 70) (Q2Qc 160, Q2Qc 200) true Demo.st_xi)
      st' Hst'.
  destruct (Kirkby2013_gap_only (Q2Qc 40, Q2Qc 70) (Q2Qc 160, Q2Qc 200) true
              Demo.st_xi st' Demo.xi_col eq_refl Hst')
    as (l & r & m' & Hlr & _ & _ & Hm' & Hrows).
  vm_compute in Hlr. injection Hlr as <- <-.
  exists st', m'. split; [reflexivity|]. split; [exact Hm'|].
  split; [exact (Hrows 0%nat (Q2Qc 30) eq_refl eq_refl)|].
  split; [exact (Hrows 1%nat (Q2Qc 60) eq_refl eq_refl)
         | exact (Hrows 3%nat (Q2Qc 170) eq_refl eq_refl)].
Defined.

Lemma call_frame_witness :
  exists st st',
    PS.__init__ PS.SavGolPowerSpectrumBAOFilter Demo.pk2 (Demo.kwargs_nk 8) = Ok st /\
    PS.__call__ st Demo.pk1 None = Ok st' /\
    PS.cls st' = PS.cls st /\ PS.k st' = PS.k st /\
    PS.pk_interpolator st' = Demo.pk1 /\ PS.is2d st' = false.
Proof.
  run (st ← PS.__init__ PS.SavGolPowerSpectrumBAOFilter Demo.pk2 (Demo.kwargs_nk 8);
       st' ← PS.__call__ st Demo.pk1 None; Ok (st, st')) p Hp.
  apply bind_Ok in Hp as (st & Hinit & Hp).
  apply bind_Ok in Hp as (st' & Hcall & _).
  destruct (proj1 call_frame st Demo.pk1 None st' Hcall)
    as (Hc & _ & Hk & _ & _ & Hi & H2d & _).
  exists st, st'. auto 10.
Defined.

Lemma prepare_needs_fiducial_engine_witness :
  PS.__init__ PS.Brieden2022PowerSpectrumBAOFilter Demo.pk1 (Demo.kwargs_nk 8) =
  Err (CosmologyError "Please provide an engine").
Proof.
  run (PS.set_k Demo.pk1 8) k Hk.
  exact (proj2 (prepare_needs_fiducial_engine PS.Brieden2022PowerSpectrumBAOFilter
                  Demo.pk1 (Demo.kwargs_nk 8) (or_introl eq_refl) I)
               PS.NoSettings k eq_refl Hk).
Defined.

Lemma rs_drag_ratio_one_witness :
  exists st,
    PS.__init__ PS.SavGolPowerSpectrumBAOFilter Demo.pk1 (Demo.kwargs_nk 8) = Ok st /\
    PS.rs_drag_ratio st = Ok (Q2Qc 1).
Proof.
  run (PS.__init__ PS.SavGolPowerSpectrumBAOFilter Demo.pk1 (Demo.kwargs_nk 8)) st Hst.
  exists st. split; [reflexivity|].
  exact (proj1 rs_drag_ratio_one PS.SavGolPowerSpectrumBAOFilter Demo.pk1
               (Demo.kwargs_nk 8) st eq_refl eq_refl Hst).
Defined.

Lemma rs_drag_ratio_of_cosmologies_witness :
  exists st,
    PS.__init__ PS.SavGolPowerSpectrumBAOFilter Demo.pk1 (Demo.kwargs_cosmo 8) = Ok st /\
    PS.rs_drag_ratio st = Ok (Q2Qc 100 / Q2Qc 100.91463132327911)%Qc.
Proof.
  run (PS.__init__ PS.SavGolPowerSpectrumBAOFilter Demo.pk1 (Demo.kwargs_cosmo 8)) st Hst.
  exists st. split; [reflexivity|].
  exact (proj1 rs_drag_ratio_of_cosmologies PS.SavGolPowerSpectrumBAOFilter Demo.pk1
               (Demo.kwargs_cosmo 8) st Demo.cosmo_with_engine Hst eq_refl).
Defined.

Lemma engine_keywords_witness :
  PS.__init__ PS.Hinton2017PowerSpectrumBAOFilter Demo.pk1 (Demo.kwargs_krange 8) =
    Err TypeError /\
  PS.__init__ PS.SavGolPowerSpectrumBAOFilter Demo.pk1 (Demo.kwargs_krange 8) =
    Err TypeError.
Proof.
  destruct (engine_keywords Demo.pk1 (Demo.kwargs_krange 8)) as (Hh & _ & Ho & _).
  split.
  - apply Hh. left. discriminate.
  - apply Ho; [discriminate | discriminate |]. do 3 right. left. discriminate.
Defined.

Lemma factory_base_witness :
  PS.PowerSpectrumBAOFilter Demo.pk1 (Some "Base") (Demo.kwargs_nk 8) =
  Err AttributeError.
Proof.
  run (PS.set_k Demo.pk1 8) k Hk.
  exact (proj1 (proj2 (factory_base "Base" eq_refl)) Demo.pk1 (Demo.kwargs_nk 8) k
               eq_refl Hk).
Defined.

Lemma shape_2d_init_and_call_witness :
  exists st a,
    PS.__init__ PS.SavGolPowerSpectrumBAOFilter Demo.pk2 (Demo.kwargs_nk 8) = Ok st /\
    PS.pknow st = Some a /\
    shape (PS.pk st) = [length (PS.k st); 2%nat] /\
    shape a = [length (PS.k st); 2%nat].
Proof.
  run (PS.__init__ PS.SavGolPowerSpectrumBAOFilter Demo.pk2 (Demo.kwargs_nk 8)) st Hst.
  unfold Demo.pk2 in Hst.
  destruct (proj1 shape_2d_init_and_call _ _ _ _ Hst) as (a & Ha & Hs & Hsa).
  exists st, a. auto.
Defined.

Lemma set_k_end_points_witness :
  exists k, PS.set_k Demo.pk1 8 = Ok k /\ length k = 8%nat /\
    k !! 0%nat = Some (Q2Qc 1e-4) /\ k !! 7%nat = Some (Q2Qc 3).
Proof.
  run (PS.set_k Demo.pk1 8) k Hk.
  destruct (proj1 set_k_end_points Demo.pk1 8 k Hk eq_refl) as (Hl & H0 & Hlast).
  exists k. split; [reflexivity|]. split; [exact Hl|].
  split; [apply H0; lia | apply Hlast; lia].
Defined.

Lemma SavGol_short_grid_witness :
  PS.__init__ PS.SavGolPowerSpectrumBAOFilter Demo.pk1 (Demo.kwargs_nk 1) =
  Err IndexError.
Proof.
  destruct (geomspace_Ok (extrap_kmin Demo.pk1) (extrap_kmax Demo.pk1) 1)
    as (k & Hk & Hl); [lia | reflexivity | reflexivity |].
  apply (SavGol_short_grid Demo.pk1 (Demo.kwargs_nk 1) k); [reflexivity | exact Hk |].
  exact Hl.
Defined.
